(** * frankenz/pdf.py : the kernel-dictionary PDF engine

    A shallow embedding of [gauss_kde], [gauss_kde_dict] and [PDFDict]
    (constructor and [fit]) together with the part of the Python / NumPy
    semantics these functions rely on: negative indexing, slice clamping,
    boolean-mask indexing, broadcasting of in-place slice addition, and the
    IEEE-754 special values produced by a division by zero.

    Numbers.  Input arrays (grids, weights, observed values, kernels) hold
    exact rationals ([Q]); every quotient computed by the code is a [num],
    that is a rational or one of [+inf], [-inf], [nan].  Rounding error and
    signed zeros are outside the model.  Integer arrays hold unbounded [Z]. *)

From Stdlib Require Import ZArith QArith Qround Qminmax List Bool Lia Lqa.
From Stdlib Require Import Permutation Sorted.
From Stdlib Require Reals Lra.
Import ListNotations.
Local Open Scope Z_scope.

(* ------------------------------------------------------------------ *)
(** ** Extended numbers *)

Module Num.

Inductive num : Type :=
| Fin (q : Q)
| PInf
| NInf
| NaN.

Definition Qsign (q : Q) : comparison := (q ?= 0)%Q.

Definition nneg (a : num) : num :=
  match a with
  | Fin q => Fin (- q)%Q
  | PInf => NInf
  | NInf => PInf
  | NaN => NaN
  end.

Definition nadd (a b : num) : num :=
  match a, b with
  | NaN, _ | _, NaN => NaN
  | Fin x, Fin y => Fin (x + y)%Q
  | PInf, NInf | NInf, PInf => NaN
  | PInf, _ | _, PInf => PInf
  | NInf, _ | _, NInf => NInf
  end.

Definition nsub (a b : num) : num := nadd a (nneg b).

(** [inf * q] for a finite [q]: the sign of [q] decides, [inf * 0 = nan]. *)
Definition inf_times (pos : bool) (q : Q) : num :=
  match Qsign q with
  | Eq => NaN
  | Gt => if pos then PInf else NInf
  | Lt => if pos then NInf else PInf
  end.

Definition nmul (a b : num) : num :=
  match a, b with
  | NaN, _ | _, NaN => NaN
  | Fin x, Fin y => Fin (x * y)%Q
  | PInf, Fin y => inf_times true y
  | NInf, Fin y => inf_times false y
  | Fin x, PInf => inf_times true x
  | Fin x, NInf => inf_times false x
  | PInf, PInf | NInf, NInf => PInf
  | PInf, NInf | NInf, PInf => NInf
  end.

(** Division as NumPy performs it on float64: a zero divisor gives an
    infinity of the sign of the dividend, or [nan] for [0/0]; nothing is
    raised. *)
Definition ndiv (a b : num) : num :=
  match a, b with
  | NaN, _ | _, NaN => NaN
  | Fin x, Fin y =>
      match Qsign y with
      | Eq => match Qsign x with Eq => NaN | Gt => PInf | Lt => NInf end
      | _ => Fin (x / y)%Q
      end
  | Fin _, PInf | Fin _, NInf => Fin 0
  | PInf, Fin y => match Qsign y with Lt => NInf | _ => PInf end
  | NInf, Fin y => match Qsign y with Lt => PInf | _ => NInf end
  | _, _ => NaN
  end.

(** Comparisons; every comparison with [nan] is false. *)
Definition nltb (a b : num) : bool :=
  match a, b with
  | Fin x, Fin y => match (x ?= y)%Q with Lt => true | _ => false end
  | NInf, Fin _ | NInf, PInf | Fin _, PInf => true
  | _, _ => false
  end.

Definition ngtb (a b : num) : bool := nltb b a.

Definition nleb (a b : num) : bool :=
  match a, b with
  | Fin x, Fin y => match (x ?= y)%Q with Gt => false | _ => true end
  | NInf, Fin _ | NInf, PInf | Fin _, PInf => true
  | NInf, NInf | PInf, PInf => true
  | _, _ => false
  end.

(** Truncation toward zero, the float -> int conversion of [int(.)] and of
    [np.array(., dtype='int')]. *)
Definition Qtrunc (q : Q) : Z :=
  match Qsign q with Lt => Qceiling q | _ => Qfloor q end.

(** [np.round]: to the nearest integer, ties to the even one. *)
Definition Qround_even (q : Q) : Z :=
  let f := Qfloor q in
  match ((q - inject_Z f) ?= 1 # 2)%Q with
  | Lt => f
  | Gt => f + 1
  | Eq => if Z.even f then f else f + 1
  end.

(** The value a non-finite float64 is converted to by the cast to a 64-bit
    integer on the usual platforms. *)
Definition INT_MIN : Z := - 2 ^ 63.

(** The cast of a float to an integer: truncation toward zero, which is
    what the cast gives for every value whose truncation fits in 64 bits
    (see [astype_int64] below for the others). *)
Definition astype_int (a : num) : Z :=
  match a with Fin q => Qtrunc q | _ => INT_MIN end.

(** The largest 64-bit integer, and the range of the 64-bit integers. *)
Definition INT_MAX : Z := 2 ^ 63 - 1.

Definition int64 (z : Z) : Prop := INT_MIN <= z <= INT_MAX.

(** Arithmetic on arrays of 64-bit integers wraps around. *)
Definition wrap64 (z : Z) : Z := (z + 2 ^ 63) mod 2 ^ 64 - 2 ^ 63.

(** The cast with its behaviour outside the 64-bit range: a finite value
    whose truncation does not fit is converted to [INT_MIN], like a
    non-finite one.  It agrees with [astype_int] on every value whose
    truncation fits. *)
Definition astype_int64 (a : num) : Z :=
  match a with
  | Fin q =>
      let t := Qtrunc q in
      if (INT_MIN <=? t) && (t <=? INT_MAX) then t else INT_MIN
  | _ => INT_MIN
  end.

Definition nround (a : num) : num :=
  match a with Fin q => Fin (inject_Z (Qround_even q)) | _ => a end.

Definition nceil (a : num) : num :=
  match a with Fin q => Fin (inject_Z (Qceiling q)) | _ => a end.

Fixpoint Qsum (l : list Q) : Q :=
  match l with
  | [] => 0%Q
  | x :: t => (x + Qsum t)%Q
  end.

End Num.
Import Num.

(* ------------------------------------------------------------------ *)
(** ** Python sequences and NumPy arrays *)

Module Py.

Inductive exn : Type :=
| IndexError
| ValueError.

Inductive result (A : Type) : Type :=
| Ok (a : A)
| Raise (e : exn).
Arguments Ok {A} a.
Arguments Raise {A} e.

Definition bind {A B} (r : result A) (k : A -> result B) : result B :=
  match r with
  | Ok a => k a
  | Raise e => Raise e
  end.

Definition len {A} (l : list A) : Z := Z.of_nat (length l).

(** [l[i]]: a negative index counts from the end; out of range raises. *)
Definition getitem {A} (l : list A) (i : Z) : result A :=
  let j := if i <? 0 then i + len l else i in
  if (0 <=? j) && (j <? len l) then
    match nth_error l (Z.to_nat j) with
    | Some a => Ok a
    | None => Raise IndexError
    end
  else Raise IndexError.

(** Normalisation of one bound of [l[start:stop]] for a sequence of
    length [n]: a negative bound is taken from the end, then the bound is
    clamped into [0, n]. *)
Definition clip_index (n i : Z) : Z :=
  let j := if i <? 0 then i + n else i in
  Z.max 0 (Z.min j n).

Definition slice {A} (l : list A) (start stop : Z) : list A :=
  let a := clip_index (len l) start in
  let b := clip_index (len l) stop in
  firstn (Z.to_nat (b - a)) (skipn (Z.to_nat a) l).

Definition arange (n : nat) : list Z := map Z.of_nat (seq 0 n).

Definition zeros (n : nat) : list num := repeat (Fin 0) n.

Definition ones (n : nat) : list Q := repeat 1%Q n.

Fixpoint cumsum_from (acc : Q) (l : list Q) : list Q :=
  match l with
  | [] => []
  | x :: t => (acc + x)%Q :: cumsum_from (acc + x)%Q t
  end.

Definition cumsum (l : list Q) : list Q := cumsum_from 0%Q l.

Fixpoint mask_filter {A} (l : list A) (mask : list bool) : list A :=
  match l, mask with
  | x :: l', b :: m' => if b then x :: mask_filter l' m' else mask_filter l' m'
  | _, _ => []
  end.

(** [a[mask]] for a boolean array [mask]: the lengths must agree. *)
Definition bool_index {A} (l : list A) (mask : list bool) : result (list A) :=
  if Nat.eqb (length l) (length mask) then Ok (mask_filter l mask)
  else Raise IndexError.

(** [a[idx]] for an integer array [idx]. *)
Fixpoint take {A} (l : list A) (idx : list Z) : result (list A) :=
  match idx with
  | [] => Ok []
  | i :: t =>
      bind (getitem l i) (fun x =>
      bind (take l t) (fun r => Ok (x :: r)))
  end.

(** [np.max] of a one-dimensional array; the empty array has no maximum. *)
Definition np_max (l : list Q) : result Q :=
  match l with
  | [] => Raise ValueError
  | x :: t => Ok (fold_left Qmax t x)
  end.

Definition weight_at (y_wt : list Q) (i : Z) : Q :=
  nth (Z.to_nat i) y_wt 0%Q.

(** Insertion of index [i] into an index list sorted by weight; [i] is
    put in front of the first entry whose weight is not smaller. *)
Fixpoint insert_by (w : Z -> Q) (i : Z) (l : list Z) : list Z :=
  match l with
  | [] => [i]
  | j :: t =>
      match (w j ?= w i)%Q with
      | Lt => j :: insert_by w i t
      | _ => i :: l
      end
  end.

Fixpoint sort_by (w : Z -> Q) (l : list Z) : list Z :=
  match l with
  | [] => []
  | i :: t => insert_by w i (sort_by w t)
  end.

(** [np.argsort]: the indices that sort the array in ascending order.
    NumPy leaves the order of equal elements open; the embedding takes the
    stable one, which keeps equal weights in input order (NumPy does the
    same on short arrays). *)
Definition argsort (y_wt : list Q) : list Z :=
  sort_by (weight_at y_wt) (arange (length y_wt)).

Fixpoint zip_with {A B C} (f : A -> B -> C) (a : list A) (b : list B) : list C :=
  match a, b with
  | x :: a', y :: b' => f x y :: zip_with f a' b'
  | _, _ => []
  end.

(** Elementwise operation on two one-dimensional arrays, with NumPy's
    broadcasting of a length-one operand. *)
Definition broadcast2 {A B C} (f : A -> B -> C) (a : list A) (b : list B)
  : result (list C) :=
  if Nat.eqb (length a) (length b) then Ok (zip_with f a b)
  else match a, b with
       | [x], _ => Ok (map (f x) b)
       | _, [y] => Ok (map (fun x => f x y) a)
       | _, _ => Raise ValueError
       end.

(** [a[low:high] += rhs]: the right-hand side must have the length of the
    view, or length one (it is then broadcast); the view's length never
    changes. *)
Definition iadd_slice (a : list num) (low high : Z) (rhs : list num)
  : result (list num) :=
  let lo := clip_index (len a) low in
  let hi := clip_index (len a) high in
  let n := Z.to_nat (hi - lo) in
  let view := firstn n (skipn (Z.to_nat lo) a) in
  let put v := firstn (Z.to_nat lo) a ++ v ++ skipn (Z.to_nat lo + n) a in
  if Nat.eqb (length rhs) n then Ok (put (zip_with nadd view rhs))
  else match rhs with
       | [r] => Ok (put (map (fun v => nadd v r) view))
       | _ => Raise ValueError
       end.

End Py.
Import Py.

Notation "x <- e ;; k" := (bind e (fun x => k))
  (at level 61, e at next level, right associativity).

(* ------------------------------------------------------------------ *)
(** ** pdf.py *)

Fixpoint mapM {A B} (f : A -> result B) (l : list A) : result (list B) :=
  match l with
  | [] => Ok []
  | x :: t => y <- f x ;; r <- mapM f t ;; Ok (y :: r)
  end.

(** Python's built-in [min] and [max] of a sequence. *)
Definition py_min (l : list Q) : result Q :=
  match l with
  | [] => Raise ValueError
  | x :: t => Ok (fold_left Qmin t x)
  end.

Definition py_max (l : list Q) : result Q :=
  match l with
  | [] => Raise ValueError
  | x :: t => Ok (fold_left Qmax t x)
  end.

(** The attributes of a [PDFDict] instance. *)
Record PDFDict : Type := {
  Ngrid : nat;
  grid_min : Q;
  grid_max : Q;
  delta : Q;
  grid : list Q;
  Ndict : nat;
  sigma_grid : list Q;
  dsigma : Q;
  sigma_width : list Z;
  sigma_dict : list (list Q);
  sigma_dict_cdf : list (list Q)
}.

Section Gaussian.

(** [np.exp] and the constant [np.sqrt(2. * np.pi)] are not rational; the
    functions that evaluate a Gaussian take them as parameters. *)
Variable np_exp : Q -> Q.
Variable sqrt_2pi : Q.

(** [gaussian(mu, std, x)]; the quotients are exact for [std <> 0]. *)
Definition gaussian (mu std : Q) (x : list Q) : list Q :=
  let dif := map (fun xi => xi - mu)%Q x in
  let norm := (sqrt_2pi * std)%Q in
  map (fun d => np_exp (- (1 # 2) * ((d / std) * (d / std))) / norm)%Q dif.

(** [PDFDict.__init__(pdf_grid, sigma_grid, sigma_trunc)]. *)
Definition PDFDict_init (pdf_grid sigma_grid : list Q) (sigma_trunc : Q)
  : result PDFDict :=
  let Ngrid := length pdf_grid in
  mn <- py_min pdf_grid ;;
  mx <- py_max pdf_grid ;;
  g1 <- getitem pdf_grid 1 ;;
  g0 <- getitem pdf_grid 0 ;;
  let delta := (g1 - g0)%Q in
  let grid := pdf_grid in
  let Ndict := length sigma_grid in
  s1 <- getitem sigma_grid 1 ;;
  s0 <- getitem sigma_grid 0 ;;
  let dsigma := (s1 - s0)%Q in
  let sigma_width :=
    map (fun s => astype_int (nceil (ndiv (Fin (s * sigma_trunc)) (Fin delta))))
        sigma_grid in
  let mid := Z.of_nat Ngrid / 2 in
  sigma_dict <-
    mapM (fun sw : Q * Z =>
            let (s, w) := sw in
            mu <- getitem grid mid ;;
            Ok (gaussian mu s (slice grid (mid - w) (mid + w + 1))))
         (combine sigma_grid sigma_width) ;;
  let sigma_dict_cdf := map cumsum sigma_dict in
  Ok {| Ngrid := Ngrid; grid_min := mn; grid_max := mx; delta := delta;
        grid := grid; Ndict := Ndict; sigma_grid := sigma_grid;
        dsigma := dsigma; sigma_width := sigma_width;
        sigma_dict := sigma_dict; sigma_dict_cdf := sigma_dict_cdf |}.

End Gaussian.

(** [PDFDict.fit(X, Xe)]. *)
Definition fit (self : PDFDict) (X Xe : list Q) : result (list Z * list Z) :=
  g0 <- getitem (grid self) 0 ;;
  let X_idx :=
    map (fun x => astype_int (nround (ndiv (Fin (x - g0)) (Fin (delta self))))) X in
  s0 <- getitem (sigma_grid self) 0 ;;
  let Xe_idx :=
    map (fun s => astype_int (nround (ndiv (Fin (s - s0)) (Fin (dsigma self))))) Xe in
  let Xe_idx :=
    map (fun k => if k >=? Z.of_nat (Ndict self) then Z.of_nat (Ndict self) - 1 else k)
        Xe_idx in
  let Xe_idx := map (fun k => if k <? 0 then 0 else k) Xe_idx in
  Ok (X_idx, Xe_idx).

(** The relative-amplitude selection:
    [np.arange(Ny)[y_wt > (wt_thresh * np.max(y_wt))]]. *)
Definition select_amplitude (Ny : nat) (y_wt : list Q) (wt_thresh : num)
  : result (list Z) :=
  m <- np_max y_wt ;;
  bool_index (arange Ny)
             (map (fun w => ngtb (Fin w) (nmul wt_thresh (Fin m))) y_wt).

(** The selection on the sorted cumulative weights. *)
Definition select_cdf (y_wt : list Q) (cdf_thresh : num) : result (list Z) :=
  let idx_sort := argsort y_wt in
  sorted <- take y_wt idx_sort ;;
  let y_cdf := cumsum sorted in
  total <- getitem y_cdf (-1) ;;
  let y_cdf := map (fun c => ndiv (Fin c) (Fin total)) y_cdf in
  bool_index idx_sort (map (fun c => nleb c (nsub (Fin 1) cdf_thresh)) y_cdf).

(** The block "Apply thresholding", which [gauss_kde] and [gauss_kde_dict]
    share word for word, after the default
    [if wt_thresh is None and cdf_thresh is None: wt_thresh = -np.inf]. *)
Definition apply_thresholding (Ny : nat) (y_wt : list Q)
           (wt_thresh cdf_thresh : option num) : result (list Z) :=
  match wt_thresh, cdf_thresh with
  | Some t, _ => select_amplitude Ny y_wt t
  | None, None => select_amplitude Ny y_wt NInf
  | None, Some c => select_cdf y_wt c
  end.

Definition default_weights (Ny : nat) (y_wt : option (list Q)) : list Q :=
  match y_wt with
  | Some w => w
  | None => ones Ny
  end.

(** The retained mass of a clipped kernel, read off its cumulative sum:
    [kcdf[hpad-1]] if [lpad == 0], else [kcdf[hpad-1] - kcdf[lpad-1]]. *)
Definition kernel_norm (kcdf : list Q) (lpad hpad : Z) : result Q :=
  if lpad =? 0 then getitem kcdf (hpad - 1)
  else a <- getitem kcdf (hpad - 1) ;;
       b <- getitem kcdf (lpad - 1) ;;
       Ok (a - b)%Q.

(** One turn of the loop "Compute PDF" of [gauss_kde_dict], for the selected
    observation [i]. *)
Definition stack_kernel (pdfdict : PDFDict) (y_idx y_std_idx : list Z)
           (y_wt : list Q) (pdf : list num) (i : Z) : result (list num) :=
  let Nx := Z.of_nat (Ngrid pdfdict) in
  idx <- getitem y_std_idx i ;;
  pos <- getitem y_idx i ;;
  kernel <- getitem (sigma_dict pdfdict) idx ;;
  width <- getitem (sigma_width pdfdict) idx ;;
  kcdf <- getitem (sigma_dict_cdf pdfdict) idx ;;
  let low := Z.max (pos - width) 0 in
  let high := Z.min (pos + width + 1) Nx in
  let lpad := low - (pos - width) in
  let hpad := high - (pos + width + 1) in
  norm <- kernel_norm kcdf lpad hpad ;;
  wi <- getitem y_wt i ;;
  iadd_slice pdf low high
             (map (fun k => nmul (ndiv (Fin wi) (Fin norm)) (Fin k))
                  (slice kernel lpad (2 * width + 1 + hpad))).

Definition for_each {S} (body : S -> Z -> result S) (sel_arr : list Z) (init : S)
  : result S :=
  fold_left (fun acc i => s <- acc ;; body s i) sel_arr (Ok init).

(** [gauss_kde_dict(pdfdict, y, y_std, y_idx, y_std_idx, y_wt, wt_thresh,
    cdf_thresh)]; [None] stands for an argument left at [None]. *)
Definition gauss_kde_dict (pdfdict : PDFDict) (y y_std : option (list Q))
           (y_idx y_std_idx : option (list Z)) (y_wt : option (list Q))
           (wt_thresh cdf_thresh : option num) : result (list num) :=
  idxs <- match y_idx, y_std_idx with
          | Some a, Some b => Ok (a, b)
          | _, _ =>
              match y, y_std with
              | Some v, Some s => fit pdfdict v s
              | _, _ => Raise ValueError
              end
          end ;;
  let y_idx := fst idxs in
  let y_std_idx := snd idxs in
  let pdf := zeros (Ngrid pdfdict) in
  let Ny := length y_idx in
  let y_wt := default_weights Ny y_wt in
  sel_arr <- apply_thresholding Ny y_wt wt_thresh cdf_thresh ;;
  for_each (stack_kernel pdfdict y_idx y_std_idx y_wt) sel_arr pdf.

Section DirectKDE.

Variable np_exp : Q -> Q.
Variable sqrt_2pi : Q.

(** The block "Clipping kernels" of [gauss_kde]: the pair
    [(lowers, uppers)].  [centers] and [offsets] are arrays of 64-bit
    integers, so their sum and difference wrap around; only [uppers > Nx]
    and [lowers < 0] are replaced. *)
Definition kde_windows (y y_std x : list Q) (dx : Q) (sig_thresh : Q)
  : result (list Z * list Z) :=
  let Nx := len x in
  x0 <- getitem x 0 ;;
  let centers :=
    map (fun yi => astype_int64 (ndiv (Fin (yi - x0)) (Fin dx))) y in
  let offsets :=
    map (fun s => astype_int64 (ndiv (Fin (sig_thresh * s)) (Fin dx))) y_std in
  uppers <- broadcast2 (fun c o => wrap64 (c + o)) centers offsets ;;
  lowers <- broadcast2 (fun c o => wrap64 (c - o)) centers offsets ;;
  let uppers := map (fun u => if u >? Nx then Nx else u) uppers in
  let lowers := map (fun l => if l <? 0 then 0 else l) lowers in
  Ok (lowers, uppers).

Definition kde_stack (y y_std x y_wt : list Q) (lowers uppers : list Z)
           (pdf : list num) (i : Z) : result (list num) :=
  yi <- getitem y i ;;
  si <- getitem y_std i ;;
  lo <- getitem lowers i ;;
  up <- getitem uppers i ;;
  let gkde := gaussian np_exp sqrt_2pi yi si (slice x lo up) in
  let norm := Qsum gkde in
  if Qeq_bool norm 0 then Ok pdf
  else wi <- getitem y_wt i ;;
       iadd_slice pdf lo up
                  (map (fun g => nmul (ndiv (Fin wi) (Fin norm)) (Fin g)) gkde).

(** [gauss_kde(y, y_std, x, dx, y_wt, sig_thresh, wt_thresh, cdf_thresh)]. *)
Definition gauss_kde (y y_std x : list Q) (dx : option Q)
           (y_wt : option (list Q)) (sig_thresh : Q)
           (wt_thresh cdf_thresh : option num) : result (list num) :=
  let Nx := length x in
  let Ny := length y in
  dx <- match dx with
        | Some v => Ok v
        | None => x1 <- getitem x 1 ;; x0 <- getitem x 0 ;; Ok (x1 - x0)%Q
        end ;;
  let y_wt := default_weights Ny y_wt in
  win <- kde_windows y y_std x dx sig_thresh ;;
  let pdf := zeros Nx in
  sel_arr <- apply_thresholding Ny y_wt wt_thresh cdf_thresh ;;
  for_each (kde_stack y y_std x y_wt (fst win) (snd win)) sel_arr pdf.

End DirectKDE.

(** Slices with one bound left out: [l[start:]] and [l[:stop]]. *)
Definition slice_from {A} (l : list A) (start : Z) : list A :=
  skipn (Z.to_nat (clip_index (len l) start)) l.

Definition slice_to {A} (l : list A) (stop : Z) : list A :=
  firstn (Z.to_nat (clip_index (len l) stop)) l.

Section GaussianBin.

(** [scipy.special.erf] and the constant [np.sqrt(2)] are parameters. *)
Variable erf : Q -> Q.
Variable sqrt_2 : Q.

(** The Normal CDF as [gaussian_bin] evaluates it at one bin edge. *)
Definition normal_cdf (mu std edge : Q) : Q :=
  ((1 # 2) * (1 + erf ((edge - mu) / (sqrt_2 * std))))%Q.

(** [gaussian_bin(mu, std, bins)]; the quotients are exact for [std <> 0].
    The two slices [cdf[1:]] and [cdf[:-1]] always have the same length. *)
Definition gaussian_bin (mu std : Q) (bins : list Q) : list Q :=
  let dif := map (fun b => b - mu)%Q bins in
  let y := map (fun d => d / (sqrt_2 * std))%Q dif in
  let cdf := map (fun v => (1 # 2) * (1 + erf v))%Q y in
  zip_with Qminus (slice_from cdf 1) (slice_to cdf (-1)).

End GaussianBin.

(** The unit conversions, entry by entry and over the real numbers:
    [np.log10], [np.log] and [10 ** x] are the real logarithms and the real
    power.  The conversions are exact where the logarithm is taken of a
    positive number. *)
Module Photometry.
Import Reals.
Local Open Scope R_scope.

Definition np_log10 (x : R) : R := ln x / ln 10.

(** [magnitude(phot, err, zeropoints)]: the pair [(mag, mag_err)], with the
    constant [2.5] written [5 / 2]. *)
Definition magnitude (phot err zeropoints : R) : R * R :=
  let mag := - (5 / 2) * np_log10 (phot / zeropoints) in
  let mag_err := 5 / 2 / ln 10 * err / phot in
  (mag, mag_err).

(** [inv_magnitude(mag, err, zeropoints)]: the pair [(phot, phot_err)],
    with the constant [0.4] written [2 / 5]. *)
Definition inv_magnitude (mag err zeropoints : R) : R * R :=
  let phot := Rpower 10 (- (2 / 5) * mag) * zeropoints in
  let phot_err := err * (2 / 5) * ln 10 * phot in
  (phot, phot_err).

(** [luptitude(phot, err, skynoise, zeropoints)]: the pair [(mag, mag_err)]
    of asinh magnitudes, with [np.square] as [Rsqr] and [np.e] as [exp 1]. *)
Definition luptitude (phot err skynoise zeropoints : R) : R * R :=
  let mag := - (5 / 2) / ln 10 * (arcsinh (phot / (2 * skynoise))
                                  + ln (skynoise / zeropoints)) in
  let mag_err := sqrt (Rsqr (5 / 2 * np_log10 (exp 1) * err)
                       / (Rsqr (2 * skynoise) + Rsqr phot)) in
  (mag, mag_err).

End Photometry.

(** *** The log-likelihood functions

    Two-dimensional arrays are kept with their number of columns, so that an
    array without rows still has a shape.  A one-dimensional array of length
    [F] enters an operation with a two-dimensional one as a single row, as
    NumPy's broadcasting has it. *)
Record array2 : Type := {
  ncols : nat;
  rows : list (list num)
}.

Fixpoint nsum (l : list num) : num :=
  match l with
  | [] => Fin 0
  | x :: t => nadd x (nsum t)
  end.

Definition nsquare (a : num) : num := nmul a a.

Definition nabs (a : num) : num :=
  match a with
  | Fin q => Fin (Qabs.Qabs q)
  | PInf | NInf => PInf
  | NaN => NaN
  end.

(** Broadcasting of one dimension against another. *)
Definition bdim (n m : nat) : result nat :=
  if Nat.eqb n m then Ok n
  else if Nat.eqb n 1 then Ok m
  else if Nat.eqb m 1 then Ok n
  else Raise ValueError.

Definition broadcast_rows {A B C} (g : A -> B -> result C)
           (a : list A) (b : list B) : result (list C) :=
  if Nat.eqb (length a) (length b)
  then mapM (fun p => g (fst p) (snd p)) (combine a b)
  else match a, b with
       | [x], _ => mapM (g x) b
       | _, [y] => mapM (fun x => g x y) a
       | _, _ => Raise ValueError
       end.

(** Elementwise operation on two two-dimensional arrays. *)
Definition bop2 (f : num -> num -> num) (X Y : array2) : result array2 :=
  n <- bdim (ncols X) (ncols Y) ;;
  r <- broadcast_rows (broadcast2 f) (rows X) (rows Y) ;;
  Ok {| ncols := n; rows := r |}.

Definition map2d (f : num -> num) (X : array2) : array2 :=
  {| ncols := ncols X; rows := map (map f) (rows X) |}.

(** [v[None, :]], also the way a one-dimensional [v] broadcasts. *)
Definition as_row (v : list num) : array2 :=
  {| ncols := length v; rows := [v] |}.

(** [v[:, None]]. *)
Definition as_column (v : list num) : array2 :=
  {| ncols := 1; rows := map (fun s => [s]) v |}.

(** [np.sum(X, axis=1)]. *)
Definition sum_axis1 (X : array2) : list num := map nsum (rows X).

Definition from_Q (v : list Q) : list num := map Fin v.

(** [a += b] on one-dimensional arrays: [b] may be broadcast, [a] may not. *)
Definition iadd_1d (a b : list num) : result (list num) :=
  if Nat.eqb (length a) (length b) then Ok (zip_with nadd a b)
  else match b with
       | [y] => Ok (map (fun x => nadd x y) a)
       | _ => Raise ValueError
       end.

(** Python's [max] of a one-dimensional array: the running maximum under
    [>], which a [nan] never replaces. *)
Definition py_max_num (l : list num) : result num :=
  match l with
  | [] => Raise ValueError
  | x :: t => Ok (fold_left (fun m v => if ngtb v m then v else m) t x)
  end.

Section LogLike.

(** [scipy.special.xlogy], [scipy.special.gammaln], [np.log] and the
    constants [np.log(2.)] and [np.log(2. * np.pi)] are parameters. *)
Variable xlogy : num -> num -> num.
Variable gammaln : num -> num.
Variable np_log : num -> num.
Variable log_2 : num.
Variable log_2pi : num.

(** The block "Initialize errors", shared by [_loglike] and [_loglike_s]. *)
Definition total_variance (ignore_model_err : bool) (data_err : list Q)
           (models_err : array2) : result array2 :=
  if ignore_model_err
  then bop2 nadd (map2d nsquare (as_row (from_Q data_err)))
            (map2d (fun _ => Fin 0) models_err)
  else bop2 nadd (map2d nsquare (as_row (from_Q data_err)))
            (map2d nsquare models_err).

(** [sum(tot_mask * square(resid) / tot_var, axis=1)]. *)
Definition chi_square (tot_mask resid tot_var : array2) : result (list num) :=
  t <- bop2 nmul tot_mask (map2d nsquare resid) ;;
  q <- bop2 ndiv t tot_var ;;
  Ok (sum_axis1 q).

(** The log-density of a chi-square distribution with [2 * a] degrees of
    freedom, [xlogy(a - 1., chi2) - (chi2 / 2.) - gammaln(a)
    - (np.log(2.) * a)]. *)
Definition chi2_logpdf (a chi2 : list num) : result (list num) :=
  x <- broadcast2 xlogy (map (fun v => nsub v (Fin 1)) a) chi2 ;;
  y <- broadcast2 nsub x (map (fun c => ndiv c (Fin 2)) chi2) ;;
  z <- broadcast2 nsub y (map gammaln a) ;;
  broadcast2 nsub z (map (nmul log_2) a).

(** The log-density of a multivariate normal: [lnl = -0.5 * chi2] followed
    by [lnl += -0.5 * (Ndim * np.log(2. * np.pi)
    + np.sum(np.log(tot_var), axis=1))]. *)
Definition normal_logpdf (Ndim chi2 : list num) (tot_var : array2)
  : result (list num) :=
  let lnl := map (nmul (Fin (- (1 # 2)))) chi2 in
  s <- broadcast2 nadd (map (fun n => nmul n log_2pi) Ndim)
                  (sum_axis1 (map2d np_log tot_var)) ;;
  iadd_1d lnl (map (nmul (Fin (- (1 # 2)))) s).

(** [_loglike(data, data_err, data_mask, models, models_err, models_mask,
    ignore_model_err, dim_prior)]: the triple [(lnl, Ndim, chi2)]. *)
Definition _loglike (data data_err data_mask : list Q)
           (models models_err models_mask : array2)
           (ignore_model_err dim_prior : bool)
  : result (list num * list num * list num) :=
  tot_var <- total_variance ignore_model_err data_err models_err ;;
  tot_mask <- bop2 nmul (as_row (from_Q data_mask)) models_mask ;;
  let Ndim := sum_axis1 tot_mask in
  resid <- bop2 nsub (as_row (from_Q data)) models ;;
  chi2 <- chi_square tot_mask resid tot_var ;;
  lnl <- (if dim_prior
          then chi2_logpdf (map (nmul (Fin (1 # 2))) Ndim) chi2
          else normal_logpdf Ndim chi2 tot_var) ;;
  Ok (lnl, Ndim, chi2).

(** The scale factors and the chi-square they give, for a total variance:
    [scale = inter_vals / shape_vals], then the scaled residuals. *)
Definition scale_and_chi2 (data : list Q) (models tot_mask inter_num shape_num
                           tot_var : array2)
  : result (list num * list num) :=
  iq <- bop2 ndiv inter_num tot_var ;;
  let inter_vals := sum_axis1 iq in
  sq <- bop2 ndiv shape_num tot_var ;;
  let shape_vals := sum_axis1 sq in
  scale <- broadcast2 ndiv inter_vals shape_vals ;;
  sm <- bop2 nmul (as_column scale) models ;;
  resid <- bop2 nsub (as_row (from_Q data)) sm ;;
  chi2 <- chi_square tot_mask resid tot_var ;;
  Ok (scale, chi2).

(** The loop "Iterate until convergence" of [_loglike_s].  [None] stands for
    a loop that has not stopped within [fuel] turns. *)
Fixpoint scale_loop (fuel : nat) (data data_err : list Q)
         (models models_err tot_mask inter_num shape_num : array2)
         (Ndim : list num) (ltol : num)
         (lerr : num) (lnl scale chi2 : list num)
  : option (result (list num * list num * list num)) :=
  if ngtb lerr ltol then
    match fuel with
    | O => None
    | S fuel' =>
        let step :=
          se <- bop2 nmul (as_column scale) models_err ;;
          tot_var <- bop2 nadd (map2d nsquare (as_row (from_Q data_err)))
                          (map2d nsquare se) ;;
          sc <- scale_and_chi2 data models tot_mask inter_num shape_num tot_var ;;
          let scale_new := fst sc in
          let chi2_new := snd sc in
          lnl_new <- normal_logpdf Ndim chi2_new tot_var ;;
          d <- broadcast2 nsub lnl_new lnl ;;
          loglike_err <- broadcast2 ndiv d lnl ;;
          lerr' <- py_max_num (map nabs loglike_err) ;;
          Ok (lerr', lnl_new, scale_new, chi2_new) in
        match step with
        | Raise e => Some (Raise e)
        | Ok (lerr', lnl_new, scale_new, chi2_new) =>
            scale_loop fuel' data data_err models models_err tot_mask
                       inter_num shape_num Ndim ltol
                       lerr' lnl_new scale_new chi2_new
        end
    end
  else Some (Ok (lnl, scale, chi2)).

(** [_loglike_s(data, data_err, data_mask, models, models_err, models_mask,
    ignore_model_err, dim_prior, ltol, return_scale)]: the tuple
    [(lnl, Ndim, chi2)], with [scale] as a fourth component when
    [return_scale] is set. *)
Definition _loglike_s (fuel : nat) (data data_err data_mask : list Q)
           (models models_err models_mask : array2)
           (ignore_model_err dim_prior : bool) (ltol : num)
           (return_scale : bool)
  : option (result (list num * list num * list num * option (list num))) :=
  let start :=
    tot_var <- total_variance ignore_model_err data_err models_err ;;
    tot_mask <- bop2 nmul (as_row (from_Q data_mask)) models_mask ;;
    let Ndim := sum_axis1 tot_mask in
    tm <- bop2 nmul tot_mask models ;;
    inter_num <- bop2 nmul tm (as_row (from_Q data)) ;;
    shape_num <- bop2 nmul tot_mask (map2d nsquare models) ;;
    sc <- scale_and_chi2 data models tot_mask inter_num shape_num tot_var ;;
    lnl <- normal_logpdf Ndim (snd sc) tot_var ;;
    Ok (tot_mask, Ndim, inter_num, shape_num, fst sc, snd sc, lnl) in
  match start with
  | Raise e => Some (Raise e)
  | Ok (tot_mask, Ndim, inter_num, shape_num, scale, chi2, lnl) =>
      let looped :=
        if ignore_model_err then Some (Ok (lnl, scale, chi2))
        else scale_loop fuel data data_err models models_err tot_mask
                        inter_num shape_num Ndim ltol PInf lnl scale chi2 in
      match looped with
      | None => None
      | Some (Raise e) => Some (Raise e)
      | Some (Ok (lnl, scale, chi2)) =>
          Some (lnl' <- (if dim_prior
                         then chi2_logpdf
                                (map (fun n => nmul (Fin (1 # 2))
                                                    (nsub n (Fin 1))) Ndim)
                                chi2
                         else Ok lnl) ;;
                Ok (lnl', Ndim, chi2,
                    if return_scale then Some scale else None))
      end
  end.

(** [loglike(...)]: the dispatch on [free_scale]. *)
Definition loglike (fuel : nat) (data data_err data_mask : list Q)
           (models models_err models_mask : array2)
           (free_scale ignore_model_err dim_prior : bool) (ltol : num)
           (return_scale : bool)
  : option (result (list num * list num * list num * option (list num))) :=
  if free_scale
  then _loglike_s fuel data data_err data_mask models models_err models_mask
                  ignore_model_err dim_prior ltol return_scale
  else Some (r <- _loglike data data_err data_mask models models_err
                           models_mask ignore_model_err dim_prior ;;
             Ok (r, None)).

End LogLike.

(* ------------------------------------------------------------------ *)
(** ** Predicates and concrete inputs *)

Definition is_max (m : Q) (l : list Q) : Prop :=
  In m l /\ forall w, In w l -> (w <= m)%Q.

(** The demonstration batch of the specification: weights [1, 1, 1000]. *)
Definition demo_weights : list Q := [1; 1; 1000]%Q.

(** Two dictionaries used at concrete inputs.  [demo_dict] has an 11-point
    grid and two symmetric, strictly positive kernels of half-widths 1 and 2.
    [underflow_dict] is what the constructor builds in float64 from the grid
    [0, 1, 2] and the sigma grid [0.01, 0.02]: the tails of both kernels,
    [exp(-5000)] and [exp(-1250)] up to scale, underflow to zero. *)
Definition demo_dict : PDFDict :=
  {| Ngrid := 11; grid_min := -5; grid_max := 5; delta := 1;
     grid := map inject_Z [-5; -4; -3; -2; -1; 0; 1; 2; 3; 4; 5];
     Ndict := 2; sigma_grid := [1 # 5; 2 # 5]%Q; dsigma := 1 # 5;
     sigma_width := [1; 2];
     sigma_dict := [[1 # 4; 1 # 2; 1 # 4];
                    [1 # 10; 2 # 10; 4 # 10; 2 # 10; 1 # 10]]%Q;
     sigma_dict_cdf := [cumsum [1 # 4; 1 # 2; 1 # 4]%Q;
                        cumsum [1 # 10; 2 # 10; 4 # 10; 2 # 10; 1 # 10]%Q] |}.

Definition underflow_dict : PDFDict :=
  {| Ngrid := 3; grid_min := 0; grid_max := 2; delta := 1;
     grid := [0; 1; 2]%Q;
     Ndict := 2; sigma_grid := [1 # 100; 2 # 100]%Q; dsigma := 1 # 100;
     sigma_width := [1; 1];
     sigma_dict := [[0; 40; 0]; [0; 20; 0]]%Q;
     sigma_dict_cdf := [cumsum [0; 40; 0]%Q; cumsum [0; 20; 0]%Q] |}.

Definition default_wt_thresh : option num := Some (Fin (1 # 1000)).
Definition default_cdf_thresh : option num := Some (Fin (1 # 5000)).

(** A well-formed dictionary: one width, one kernel and one cumulative sum
    per sigma bucket; each kernel has [2 * width + 1] samples, all strictly
    positive as the values of a Gaussian density are, and each cumulative
    sum is the running sum of its kernel. *)
Definition wf_dict (d : PDFDict) : Prop :=
  length (sigma_width d) = Ndict d /\
  length (sigma_dict d) = Ndict d /\
  length (sigma_dict_cdf d) = Ndict d /\
  forall k w ker,
    nth_error (sigma_width d) k = Some w ->
    nth_error (sigma_dict d) k = Some ker ->
    len ker = 2 * w + 1 /\
    Forall (fun v => 0 < v)%Q ker /\
    nth_error (sigma_dict_cdf d) k = Some (cumsum ker).

Definition width_of (sigma_trunc delta s : Q) : Z :=
  astype_int (nceil (ndiv (Fin (s * sigma_trunc)) (Fin delta))).

(** The scenario of the specification: the grid [-5, -4, ..., 5], the sigma
    grid [0.5, 1.0, 1.5] and the default truncation at 5 sigma.  The widths
    are 3, 5 and 8, and the grid's middle index is 5. *)
Definition spec_grid : list Q := map inject_Z [-5; -4; -3; -2; -1; 0; 1; 2; 3; 4; 5].
Definition spec_sigma_grid : list Q := [1 # 2; 1; 3 # 2]%Q.

(** Rational stand-ins for [np.exp] on the negative axis and for
    [sqrt(2 pi)], used where the constructor is run on concrete inputs. *)
Definition exp_stand_in (q : Q) : Q := (1 / (1 - q))%Q.
Definition sqrt_2pi_stand_in : Q := 5 # 2.

(** An evenly spaced sequence: a first point and a non-zero step. *)
Definition uniform_spacing (g : list Q) (step : Q) : Prop :=
  ~ (step == 0)%Q /\
  exists g0, nth_error g 0 = Some g0 /\
             forall j gj, nth_error g j = Some gj ->
                          (gj == g0 + inject_Z (Z.of_nat j) * step)%Q.

(** Index lists in ascending order of weight. *)
Definition ascending (w : Z -> Q) : list Z -> Prop :=
  StronglySorted (fun a b => (w a <= w b)%Q).

(** [paste ps low high r] is the array [ps] after [ps[low:high] += r], for
    bounds inside the array and [r] of the length of the window. *)
Definition paste (ps : list Q) (low high : Z) (r : list Q) : list Q :=
  firstn (Z.to_nat low) ps
  ++ zip_with Qplus (firstn (Z.to_nat (high - low)) (skipn (Z.to_nat low) ps)) r
  ++ skipn (Z.to_nat low + Z.to_nat (high - low)) ps.

(** The weights of the selected observations, in the order of the loop. *)
Definition selected_weights (y_wt : list Q) (sel_arr : list Z) : list Q :=
  map (weight_at y_wt) sel_arr.

(** Consecutive entries in non-decreasing order. *)
Definition non_decreasing (l : list Q) : Prop :=
  forall k a b, nth_error l k = Some a -> nth_error l (S k) = Some b ->
                (a <= b)%Q.

(** A monotone, bounded rational stand-in for the error function. *)
Definition erf_stand_in (q : Q) : Q := Qmax (-1) (Qmin 1 q).
Definition sqrt_2_stand_in : Q := 7 # 5.

(** A two-dimensional array of finite values with [F] columns. *)
Definition matrix (F : nat) (A : list (list Q)) : array2 :=
  {| ncols := F; rows := map from_Q A |}.

Definition rectangular (F : nat) (A : list (list Q)) : Prop :=
  Forall (fun r => length r = F) A.

Definition Qsquare (q : Q) : Q := (q * q)%Q.

(** Stand-ins for the special functions, used on concrete inputs. *)
Definition special2_stand_in (a b : num) : num := Fin 0.
Definition special1_stand_in (a : num) : num := Fin 0.

(** The total variance of a well-shaped problem, row by row. *)
Definition variance_rows (ignore_model_err : bool) (data_err : list Q)
           (es : list (list Q)) : list (list Q) :=
  map (zip_with Qplus (map Qsquare data_err))
      (map (map (if ignore_model_err then (fun _ => 0%Q) else Qsquare)) es).

(** The chi-square of a well-shaped problem, row by row. *)
Definition chi2_rows (data data_mask : list Q) (ms ks V : list (list Q))
  : list (list Q) :=
  zip_with (zip_with Qdiv)
           (zip_with (zip_with Qmult)
                     (map (zip_with Qmult data_mask) ks)
                     (map (map Qsquare) (map (zip_with Qminus data) ms)))
           V.

(** The "interaction" and "shape" terms of [_loglike_s] and the scale
    factors, row by row. *)
Definition inter_rows (data data_mask : list Q) (ms ks V : list (list Q))
  : list (list Q) :=
  zip_with (zip_with Qdiv)
           (map (fun a => zip_with Qmult a data)
                (zip_with (zip_with Qmult)
                          (map (zip_with Qmult data_mask) ks) ms))
           V.

Definition shape_rows (data_mask : list Q) (ms ks V : list (list Q))
  : list (list Q) :=
  zip_with (zip_with Qdiv)
           (zip_with (zip_with Qmult)
                     (map (zip_with Qmult data_mask) ks)
                     (map (map Qsquare) ms))
           V.

Definition scale_values (data data_mask : list Q) (ms ks V : list (list Q))
  : list Q :=
  zip_with Qdiv (map Qsum (inter_rows data data_mask ms ks V))
           (map Qsum (shape_rows data_mask ms ks V)).

Definition scaled_models (scale : list Q) (ms : list (list Q))
  : list (list Q) :=
  zip_with (fun s m => map (Qmult s) m) scale ms.

(** Elementwise operations that map finite values to finite values. *)
Definition finite_on (P : Q -> Prop) (f : num -> num -> num) (g : Q -> Q -> Q)
  : Prop :=
  forall a b, P b -> f (Fin a) (Fin b) = Fin (g a b).

(* ------------------------------------------------------------------ *)
(** ** Indexing and slicing lemmas *)

Section Sequences.

Context {A : Type}.
Implicit Types (l : list A) (i j : Z).

Lemma getitem_nonneg l i :
  0 <= i < len l ->
  exists a, getitem l i = Ok a /\ nth_error l (Z.to_nat i) = Some a.
Proof.
  intros Hi. unfold getitem.
  destruct (Z.ltb_spec i 0); [lia|].
  destruct (Z.leb_spec 0 i); [|lia].
  destruct (Z.ltb_spec i (len l)); [|lia]. simpl.
  destruct (nth_error l (Z.to_nat i)) eqn:E.
  - eauto.
  - apply nth_error_None in E. unfold len in *. lia.
Qed.

Lemma getitem_negative l i :
  - len l <= i < 0 ->
  exists a, getitem l i = Ok a /\ nth_error l (Z.to_nat (i + len l)) = Some a.
Proof.
  intros Hi. unfold getitem.
  destruct (Z.ltb_spec i 0); [|lia].
  destruct (Z.leb_spec 0 (i + len l)); [|lia].
  destruct (Z.ltb_spec (i + len l) (len l)); [|lia]. simpl.
  destruct (nth_error l (Z.to_nat (i + len l))) eqn:E.
  - eauto.
  - apply nth_error_None in E. unfold len in *. lia.
Qed.

Lemma getitem_too_large l i : len l <= i -> getitem l i = Raise IndexError.
Proof.
  intros Hi. unfold getitem. unfold len in *.
  destruct (Z.ltb_spec i 0); [lia|].
  destruct (Z.ltb_spec i (Z.of_nat (length l))); [lia|].
  now rewrite andb_false_r.
Qed.

Lemma getitem_too_small l i : i < - len l -> getitem l i = Raise IndexError.
Proof.
  intros Hi. unfold getitem. unfold len in *.
  destruct (Z.ltb_spec i 0); [|lia].
  destruct (Z.leb_spec 0 (i + Z.of_nat (length l))); [lia|].
  reflexivity.
Qed.

Lemma getitem_Ok_nth l i a :
  getitem l i = Ok a ->
  (0 <= i < len l /\ nth_error l (Z.to_nat i) = Some a) \/
  (- len l <= i < 0 /\ nth_error l (Z.to_nat (i + len l)) = Some a).
Proof.
  intros H.
  destruct (Z_lt_le_dec i (- len l)) as [Hs|Hs].
  { rewrite getitem_too_small in H by assumption. discriminate. }
  destruct (Z_lt_le_dec i 0) as [Hn|Hn].
  - right. destruct (getitem_negative l i) as (b & Hb & Hnth); [lia|].
    rewrite Hb in H. inversion H; subst. split; [lia|assumption].
  - destruct (Z_lt_le_dec i (len l)) as [Hl|Hl].
    + left. destruct (getitem_nonneg l i) as (b & Hb & Hnth); [lia|].
      rewrite Hb in H. inversion H; subst. split; [lia|assumption].
    + rewrite getitem_too_large in H by assumption. discriminate.
Qed.

Lemma clip_index_id n i : 0 <= i <= n -> clip_index n i = i.
Proof.
  intros Hi. unfold clip_index.
  destruct (Z.ltb_spec i 0); lia.
Qed.

Lemma slice_inside l a b :
  0 <= a <= b -> b <= len l ->
  slice l a b = firstn (Z.to_nat (b - a)) (skipn (Z.to_nat a) l)
  /\ len (slice l a b) = b - a.
Proof.
  intros Ha Hb. unfold slice.
  rewrite !clip_index_id by lia. split; [reflexivity|].
  unfold len in *. rewrite length_firstn, length_skipn. lia.
Qed.

Lemma mask_filter_In l (m : list bool) x :
  In x (mask_filter l m) <->
  exists k, nth_error l k = Some x /\ nth_error m k = Some true.
Proof.
  revert m. induction l as [|y l IH]; intros m.
  - simpl. split; [tauto|]. intros (k & Hk & _). destruct k; discriminate.
  - destruct m as [|b m].
    + simpl. split; [tauto|]. intros (k & _ & Hk). destruct k; discriminate.
    + simpl. destruct b.
      * simpl. rewrite IH. split.
        -- intros [->|(k & H1 & H2)]; [exists 0%nat; auto|exists (S k); auto].
        -- intros (k & H1 & H2). destruct k as [|k]; simpl in *.
           ++ left. congruence.
           ++ right. eauto.
      * rewrite IH. split.
        -- intros (k & H1 & H2). exists (S k); auto.
        -- intros (k & H1 & H2). destruct k as [|k]; simpl in *;
             [discriminate|eauto].
Qed.

End Sequences.

Lemma nth_error_arange n k j :
  nth_error (arange n) k = Some j <-> (k < n)%nat /\ j = Z.of_nat k.
Proof.
  unfold arange. rewrite nth_error_map.
  destruct (Nat.lt_ge_cases k n) as [Hk|Hk].
  - rewrite nth_error_nth' with (d := 0%nat) by (rewrite length_seq; lia).
    rewrite seq_nth by lia. simpl. split.
    + intros H. inversion H. auto.
    + intros [_ ->]. reflexivity.
  - assert (E : nth_error (seq 0 n) k = None)
      by (apply nth_error_None; rewrite length_seq; lia).
    rewrite E. simpl. split; [discriminate|lia].
Qed.

Lemma length_arange n : length (arange n) = n.
Proof. unfold arange. now rewrite length_map, length_seq. Qed.

(* ------------------------------------------------------------------ *)
(** ** The selection step *)

Lemma Qmax_cases x y : Qmax x y = x \/ Qmax x y = y.
Proof.
  unfold Qmax, GenericMinMax.gmax. destruct (x ?= y)%Q; auto.
Qed.

Lemma fold_left_Qmax_spec t : forall x,
  let m := fold_left Qmax t x in
  (m = x \/ In m t) /\ (x <= m)%Q /\ forall w, In w t -> (w <= m)%Q.
Proof.
  induction t as [|y t IH]; intros x; simpl.
  - repeat split; auto using Qle_refl. intros w [].
  - destruct (IH (Qmax x y)) as (Hin & Hle & Hall). repeat split.
    + destruct Hin as [E|Hin]; [|auto].
      rewrite E. destruct (Qmax_cases x y) as [->| ->]; auto.
    + eapply Qle_trans; [apply Q.le_max_l|exact Hle].
    + intros w [<-|Hw]; [|auto].
      eapply Qle_trans; [apply Q.le_max_r|exact Hle].
Qed.

Lemma np_max_is_max l :
  l <> [] -> exists m, np_max l = Ok m /\ is_max m l.
Proof.
  destruct l as [|x t]; [congruence|]. intros _.
  exists (fold_left Qmax t x). split; [reflexivity|].
  destruct (fold_left_Qmax_spec t x) as (Hin & Hle & Hall). split.
  - simpl. destruct Hin as [->|Hin]; auto.
  - intros w [<-|Hw]; auto.
Qed.

Lemma weight_at_nth_error y_wt k w :
  nth_error y_wt k = Some w -> weight_at y_wt (Z.of_nat k) = w.
Proof.
  intros H. unfold weight_at. rewrite Nat2Z.id.
  now apply nth_error_nth.
Qed.

(** Membership in the amplitude selection, for a weight array of the length
    of the batch. *)
Lemma select_amplitude_In y_wt t m :
  np_max y_wt = Ok m ->
  exists sel,
    select_amplitude (length y_wt) y_wt t = Ok sel /\
    forall j, In j sel <->
              0 <= j < len y_wt /\
              ngtb (Fin (weight_at y_wt j)) (nmul t (Fin m)) = true.
Proof.
  intros Hm. unfold select_amplitude. rewrite Hm. simpl.
  unfold bool_index. rewrite length_arange, length_map, Nat.eqb_refl.
  eexists. split; [reflexivity|].
  intros j. rewrite mask_filter_In. split.
  - intros (k & Hk & Hmask). apply nth_error_arange in Hk as [Hk ->].
    rewrite nth_error_map in Hmask.
    destruct (nth_error y_wt k) as [w|] eqn:E; simpl in Hmask; [|discriminate].
    rewrite (weight_at_nth_error _ _ _ E). unfold len.
    split; [lia|congruence].
  - intros [Hj Hgt]. unfold len in Hj. exists (Z.to_nat j).
    assert (Hk : (Z.to_nat j < length y_wt)%nat) by lia.
    split.
    + apply nth_error_arange. split; [exact Hk|lia].
    + rewrite nth_error_map.
      rewrite (nth_error_nth' y_wt 0%Q Hk). simpl.
      unfold weight_at in Hgt. now rewrite Hgt.
Qed.

(** C7.  With [wt_thresh] given, the observations selected are exactly the
    indices [j] with [y_wt[j] > wt_thresh * max(y_wt)], where the maximum is
    the largest entry of the weight array; for the weights [1, 1, 1000] and
    [wt_thresh = 0.5] only the last observation is selected. *)
Theorem select_by_weight_threshold :
  forall (y_wt : list Q) (wt_thresh : num) (cdf_thresh : option num),
    y_wt <> [] ->
    exists m sel,
      np_max y_wt = Ok m /\ is_max m y_wt /\
      apply_thresholding (length y_wt) y_wt (Some wt_thresh) cdf_thresh = Ok sel /\
      (forall j, In j sel <->
                 0 <= j < len y_wt /\
                 ngtb (Fin (weight_at y_wt j)) (nmul wt_thresh (Fin m)) = true) /\
      apply_thresholding 3 demo_weights (Some (Fin (1 # 2))) cdf_thresh = Ok [2].
Proof.
  intros y_wt t c Hne.
  destruct (np_max_is_max y_wt Hne) as (m & Hm & Hmax).
  destruct (select_amplitude_In y_wt t m Hm) as (sel & Hsel & Hin).
  exists m, sel.
  split; [exact Hm|]. split; [exact Hmax|]. split; [exact Hsel|].
  split; [exact Hin|reflexivity].
Qed.

Lemma select_by_weight_threshold_witness :
  exists m sel,
    np_max demo_weights = Ok m /\ is_max m demo_weights /\
    apply_thresholding (length demo_weights) demo_weights
                       (Some (Fin (1 # 1000))) (Some (Fin (1 # 5000))) = Ok sel /\
    (forall j, In j sel <->
               0 <= j < len demo_weights /\
               ngtb (Fin (weight_at demo_weights j))
                    (nmul (Fin (1 # 1000)) (Fin m)) = true) /\
    apply_thresholding 3 demo_weights (Some (Fin (1 # 2)))
                       (Some (Fin (1 # 5000))) = Ok [2].
Proof.
  apply (select_by_weight_threshold demo_weights (Fin (1 # 1000))
                                    (Some (Fin (1 # 5000)))).
  discriminate.
Defined.

Lemma ngtb_above_fraction (w t m : Q) :
  (w == m)%Q -> (0 < m)%Q -> (t < 1)%Q ->
  ngtb (Fin w) (nmul (Fin t) (Fin m)) = true.
Proof.
  intros Hw Hm Ht. unfold ngtb, nltb, nmul.
  assert (H : (t * m < w)%Q).
  { rewrite Hw. setoid_replace m with (1 * m)%Q at 2 by ring.
    apply Qmult_lt_compat_r; assumption. }
  assert (E : (t * m ?= w)%Q = Lt) by (apply Qlt_alt; exact H).
  now rewrite E.
Qed.

(** C10.  For a weight array with a strictly positive maximum and a threshold
    [0 < wt_thresh < 1], the thresholding block shared by [gauss_kde_dict]
    and [gauss_kde] returns a non-empty selection that contains every index
    whose weight attains the maximum. *)
Theorem threshold_keeps_maximum :
  forall (y_wt : list Q) (wt_thresh : Q) (cdf_thresh : option num) (m : Q),
    np_max y_wt = Ok m ->
    (0 < m)%Q -> (0 < wt_thresh)%Q -> (wt_thresh < 1)%Q ->
    exists sel,
      apply_thresholding (length y_wt) y_wt (Some (Fin wt_thresh)) cdf_thresh
        = Ok sel /\
      sel <> [] /\
      forall j, 0 <= j < len y_wt -> (weight_at y_wt j == m)%Q -> In j sel.
Proof.
  intros y_wt t c m Hm Hpos Ht0 Ht1.
  destruct (select_amplitude_In y_wt (Fin t) m Hm) as (sel & Hsel & Hin).
  exists sel. split; [exact Hsel|].
  assert (Hall : forall j, 0 <= j < len y_wt ->
                           (weight_at y_wt j == m)%Q -> In j sel).
  { intros j Hj Hw. apply Hin. split; [exact Hj|].
    now apply ngtb_above_fraction. }
  split; [|exact Hall].
  assert (Hne : y_wt <> []) by (destruct y_wt; [discriminate|congruence]).
  destruct (np_max_is_max y_wt Hne) as (m' & Hm' & Hmax).
  assert (m' = m) by congruence. subst m'.
  destruct Hmax as [Hmem _].
  apply In_nth_error in Hmem as [k Hk].
  assert (Hlt : (k < length y_wt)%nat) by (apply nth_error_Some; congruence).
  intros Hnil.
  specialize (Hall (Z.of_nat k)). rewrite Hnil in Hall. apply Hall.
  - unfold len. lia.
  - rewrite (weight_at_nth_error _ _ _ Hk). reflexivity.
Qed.

Lemma threshold_keeps_maximum_witness :
  exists sel,
    apply_thresholding (length demo_weights) demo_weights
                       (Some (Fin (1 # 1000))) (Some (Fin (1 # 5000))) = Ok sel /\
    sel <> [] /\
    forall j, 0 <= j < len demo_weights ->
              (weight_at demo_weights j == 1000)%Q -> In j sel.
Proof.
  apply (threshold_keeps_maximum demo_weights (1 # 1000)
                                 (Some (Fin (1 # 5000))) 1000%Q).
  - reflexivity.
  - reflexivity.
  - reflexivity.
  - reflexivity.
Defined.

(** C9.  When the pre-quantized pair [(y_idx, y_std_idx)] is given, the raw
    pair [(y, y_std)] is never read: the call returns what the same call
    without [y] and [y_std] returns. *)
Theorem prequantized_indices_take_precedence :
  forall (pdfdict : PDFDict) (y y_std : option (list Q))
         (y_idx y_std_idx : list Z) (y_wt : option (list Q))
         (wt_thresh cdf_thresh : option num),
    gauss_kde_dict pdfdict y y_std (Some y_idx) (Some y_std_idx) y_wt
                   wt_thresh cdf_thresh
    = gauss_kde_dict pdfdict None None (Some y_idx) (Some y_std_idx) y_wt
                     wt_thresh cdf_thresh.
Proof.
  intros. unfold gauss_kde_dict. reflexivity.
Qed.

(** C5.  The cumulative-weight selection at the weights [1, 1, 1000] with the
    default [cdf_thresh = 2e-4]: the sorted order is [0, 1, 2], the
    normalised cumulative weights are [1/1002, 2/1002, 1], and the selection
    is [[0, 1]]; the dominant observation, index 2, is not selected. *)
Theorem cdf_selection_on_demo_weights :
  argsort demo_weights = [0; 1; 2] /\
  apply_thresholding 3 demo_weights None (Some (Fin (1 # 5000))) = Ok [0; 1] /\
  ~ In 2 [0; 1].
Proof.
  split; [reflexivity|]. split; [reflexivity|].
  simpl. intros [H|[H|[]]]; discriminate.
Qed.

(** C1.  A batch whose first observation sits at grid index [-10^6]: the
    lookup [kcdf[lpad-1]] is out of range, the call raises [IndexError] and
    the second observation is never processed; the second observation alone
    is stacked without error. *)
Theorem off_grid_observation_raises :
  gauss_kde_dict demo_dict None None (Some [-1000000; 5]) (Some [0; 0]) None
                 default_wt_thresh default_cdf_thresh
  = Raise IndexError /\
  exists pdf,
    gauss_kde_dict demo_dict None None (Some [5]) (Some [0]) None
                   default_wt_thresh default_cdf_thresh = Ok pdf /\
    nth_error pdf 5 = Some (Fin (32 # 64)).
Proof.
  split; [vm_compute; reflexivity|].
  eexists. split; vm_compute; reflexivity.
Qed.

(** C3.  An observation whose clipped window keeps only a zero sample of the
    kernel: [norm] is [0], the weight is divided by it, and the cell of the
    output receives [inf * 0 = nan]. *)
Theorem zero_norm_is_divided_by :
  (exists norm, kernel_norm (cumsum [0; 40; 0]%Q) 0 (-2) = Ok norm /\
                (norm == 0)%Q) /\
  gauss_kde_dict underflow_dict None None (Some [3]) (Some [0]) None
                 default_wt_thresh default_cdf_thresh
  = Ok [Fin 0; Fin 0; NaN].
Proof.
  split.
  - eexists. split; reflexivity.
  - vm_compute. reflexivity.
Qed.

(* ------------------------------------------------------------------ *)
(** ** Sums, cumulative sums and the retained mass *)

Lemma firstn_plus {A} (a n : nat) (l : list A) :
  firstn (a + n) l = firstn a l ++ firstn n (skipn a l).
Proof.
  revert l. induction a as [|a IH]; intros l; [reflexivity|].
  destruct l as [|x l]; simpl.
  - now rewrite firstn_nil.
  - now rewrite IH.
Qed.

Lemma three_parts {A} (a n : nat) (l : list A) :
  l = firstn a l ++ firstn n (skipn a l) ++ skipn (a + n) l.
Proof.
  rewrite <- (firstn_skipn a l) at 1. f_equal.
  rewrite <- (firstn_skipn n (skipn a l)) at 1. f_equal.
  rewrite skipn_skipn. f_equal. lia.
Qed.

Lemma Qsum_app (a b : list Q) : (Qsum (a ++ b) == Qsum a + Qsum b)%Q.
Proof.
  induction a as [|x a IH]; simpl; [ring|]. rewrite IH. ring.
Qed.

Lemma Qsum_scale (c : Q) (l : list Q) :
  (Qsum (map (Qmult c) l) == c * Qsum l)%Q.
Proof.
  induction l as [|x l IH]; simpl; [ring|]. rewrite IH. ring.
Qed.

Lemma Qsum_zip_plus (a : list Q) : forall b,
  length a = length b ->
  (Qsum (zip_with Qplus a b) == Qsum a + Qsum b)%Q.
Proof.
  induction a as [|x a IH]; intros [|y b] H; simpl in *; try discriminate.
  - ring.
  - rewrite IH by congruence. ring.
Qed.

Lemma length_zip_with {A B C} (f : A -> B -> C) (a : list A) : forall b,
  length a = length b -> length (zip_with f a b) = length a.
Proof.
  induction a as [|x a IH]; intros [|y b] H; simpl in *; try discriminate.
  - reflexivity.
  - f_equal. apply IH. congruence.
Qed.

Lemma Qsum_positive (l : list Q) :
  Forall (fun v => 0 < v)%Q l -> l <> [] -> (0 < Qsum l)%Q.
Proof.
  induction 1 as [|x l Hx Hl IH]; [congruence|]. intros _. simpl.
  destruct l as [|y l].
  - simpl. lra.
  - assert (0 < Qsum (y :: l))%Q by (apply IH; discriminate). lra.
Qed.

Lemma length_cumsum_from (l : list Q) : forall acc,
  length (cumsum_from acc l) = length l.
Proof.
  induction l as [|x l IH]; intros acc; simpl; [reflexivity|].
  now rewrite IH.
Qed.

Lemma cumsum_from_nth (l : list Q) : forall acc j,
  (j < length l)%nat ->
  exists c, nth_error (cumsum_from acc l) j = Some c /\
            (c == acc + Qsum (firstn (S j) l))%Q.
Proof.
  induction l as [|x l IH]; intros acc j Hj; simpl in Hj; [lia|].
  destruct j as [|j].
  - exists (acc + x)%Q. split; [reflexivity|].
    simpl. ring.
  - destruct (IH (acc + x)%Q j) as (c & Hc & Hsum); [lia|].
    exists c. split; [exact Hc|].
    rewrite Hsum. simpl. ring.
Qed.

Lemma cumsum_nth (l : list Q) (j : nat) :
  (j < length l)%nat ->
  exists c, nth_error (cumsum l) j = Some c /\ (c == Qsum (firstn (S j) l))%Q.
Proof.
  intros Hj. destruct (cumsum_from_nth l 0%Q j Hj) as (c & Hc & Hsum).
  exists c. split; [exact Hc|]. rewrite Hsum. ring.
Qed.

(** The normaliser read off the cumulative sum is the sum of the pasted
    sub-slice [kernel[lpad : stop]], where [stop = len(kernel) + hpad]. *)
Lemma kernel_norm_is_slice_sum (kernel : list Q) (lpad hpad : Z) :
  0 <= lpad -> lpad < len kernel + hpad -> hpad <= 0 ->
  exists norm,
    kernel_norm (cumsum kernel) lpad hpad = Ok norm /\
    (norm == Qsum (slice kernel lpad (len kernel + hpad)))%Q.
Proof.
  intros Hl Hlt Hh.
  set (L := len kernel) in *.
  assert (HL : len (cumsum kernel) = L).
  { unfold len, cumsum. now rewrite length_cumsum_from. }
  destruct (getitem_negative (cumsum kernel) (hpad - 1)) as (c1 & G1 & N1);
    [rewrite HL; lia|].
  rewrite HL in N1.
  destruct (cumsum_nth kernel (Z.to_nat (hpad - 1 + L))) as (c1' & N1' & S1);
    [unfold L, len in *; lia|].
  assert (c1' = c1) by congruence. subst c1'.
  replace (S (Z.to_nat (hpad - 1 + L))) with (Z.to_nat (L + hpad)) in S1 by lia.
  destruct (slice_inside kernel lpad (L + hpad)) as [Hs _]; [lia|lia|].
  fold L. rewrite Hs. unfold kernel_norm.
  destruct (Z.eqb_spec lpad 0) as [E|E].
  - subst lpad. exists c1. split; [exact G1|].
    rewrite S1. rewrite Z.sub_0_r. simpl skipn. reflexivity.
  - destruct (getitem_nonneg (cumsum kernel) (lpad - 1)) as (c2 & G2 & N2);
      [rewrite HL; lia|].
    destruct (cumsum_nth kernel (Z.to_nat (lpad - 1))) as (c2' & N2' & S2);
      [unfold L, len in *; lia|].
    assert (c2' = c2) by congruence. subst c2'.
    replace (S (Z.to_nat (lpad - 1))) with (Z.to_nat lpad) in S2 by lia.
    exists (c1 - c2)%Q. rewrite G1, G2. split; [reflexivity|].
    rewrite S1, S2.
    replace (Z.to_nat (L + hpad))
      with (Z.to_nat lpad + Z.to_nat (L + hpad - lpad))%nat by lia.
    rewrite firstn_plus, Qsum_app. ring.
Qed.

(** In-place addition of finite values onto a finite array. *)
Lemma zip_with_nadd_Fin (a : list Q) : forall b,
  zip_with nadd (map Fin a) (map Fin b) = map Fin (zip_with Qplus a b).
Proof.
  induction a as [|x a IH]; intros [|y b]; simpl; try reflexivity.
  now rewrite IH.
Qed.

Lemma iadd_slice_finite (ps r : list Q) (low high : Z) :
  0 <= low <= high -> high <= len ps -> len r = high - low ->
  exists ps',
    iadd_slice (map Fin ps) low high (map Fin r) = Ok (map Fin ps') /\
    length ps' = length ps /\
    (Qsum ps' == Qsum ps + Qsum r)%Q.
Proof.
  intros Hlo Hhi Hr. unfold iadd_slice.
  assert (Hlen : len (map Fin ps) = len ps) by (unfold len; now rewrite length_map).
  rewrite Hlen, !clip_index_id by lia.
  set (a := Z.to_nat low). set (n := Z.to_nat (high - low)).
  assert (Hn : length r = n) by (unfold len in Hr; lia).
  rewrite length_map, Hn, Nat.eqb_refl.
  assert (Hv : length (firstn n (skipn a ps)) = length r).
  { rewrite length_firstn, length_skipn. unfold len in *. lia. }
  exists (firstn a ps ++ zip_with Qplus (firstn n (skipn a ps)) r ++ skipn (a + n) ps).
  split; [|split].
  - rewrite !map_app, <- zip_with_nadd_Fin, !skipn_map, !firstn_map.
    reflexivity.
  - rewrite !length_app, length_zip_with by exact Hv.
    rewrite <- !length_app. now rewrite <- three_parts.
  - rewrite !Qsum_app, Qsum_zip_plus by exact Hv.
    rewrite (three_parts a n ps) at 4. rewrite !Qsum_app. ring.
Qed.

(* ------------------------------------------------------------------ *)
(** ** Mass preservation of one stacked kernel *)

Lemma getitem_parallel {A B} (l : list A) (l' : list B) (i : Z) (a : A) :
  length l = length l' ->
  getitem l i = Ok a ->
  exists k b, nth_error l k = Some a /\ nth_error l' k = Some b /\
              getitem l' i = Ok b.
Proof.
  intros Hlen H.
  assert (HL : len l' = len l) by (unfold len; now rewrite Hlen).
  destruct (getitem_Ok_nth l i a H) as [[Hi Hn]|[Hi Hn]].
  - destruct (getitem_nonneg l' i) as (b & Hb & Hnb); [rewrite HL; lia|].
    exists (Z.to_nat i), b. auto.
  - destruct (getitem_negative l' i) as (b & Hb & Hnb); [rewrite HL; lia|].
    rewrite HL in Hnb. exists (Z.to_nat (i + len l)), b. auto.
Qed.

Lemma wf_dict_lookup (d : PDFDict) (idx width : Z) :
  wf_dict d ->
  getitem (sigma_width d) idx = Ok width ->
  exists kernel,
    getitem (sigma_dict d) idx = Ok kernel /\
    getitem (sigma_dict_cdf d) idx = Ok (cumsum kernel) /\
    len kernel = 2 * width + 1 /\
    Forall (fun v => 0 < v)%Q kernel.
Proof.
  intros (Hw & Hd & Hc & Hwf) Hget.
  destruct (getitem_parallel (sigma_width d) (sigma_dict d) idx width)
    as (k & kernel & Nw & Nk & Gk); [congruence|exact Hget|].
  destruct (getitem_parallel (sigma_width d) (sigma_dict_cdf d) idx width)
    as (k' & kcdf & Nw' & Nc & Gc); [congruence|exact Hget|].
  destruct (Hwf k width kernel Nw Nk) as (Hlen & Hpos & Hcdf).
  exists kernel. repeat split; try assumption.
  (* the cumulative sum found at [idx] is the one of this kernel *)
  destruct (getitem_parallel (sigma_dict d) (sigma_dict_cdf d) idx kernel)
    as (k2 & kcdf2 & Nk2 & Nc2 & Gc2); [congruence|exact Gk|].
  destruct (getitem_Ok_nth _ _ _ Gk) as [[Hi Hn]|[Hi Hn]];
  destruct (getitem_Ok_nth _ _ _ Hget) as [[Hi' Hn']|[Hi' Hn']]; try lia.
  - destruct (Hwf _ _ _ Hn' Hn) as (_ & _ & E).
    destruct (getitem_nonneg (sigma_dict_cdf d) idx) as (c & Gc' & Nc');
      [unfold len in *; lia|].
    rewrite Gc'. congruence.
  - assert (EL : len (sigma_dict d) = len (sigma_width d))
      by (unfold len; congruence).
    rewrite EL in Hn.
    destruct (Hwf _ _ _ Hn' Hn) as (_ & _ & E).
    destruct (getitem_negative (sigma_dict_cdf d) idx) as (c & Gc' & Nc');
      [unfold len in *; lia|].
    assert (EL' : len (sigma_dict_cdf d) = len (sigma_width d))
      by (unfold len; congruence).
    rewrite EL' in Nc'. rewrite Gc'. congruence.
Qed.

Lemma Forall_slice {A} (P : A -> Prop) (l : list A) (a b : Z) :
  Forall P l -> Forall P (slice l a b).
Proof.
  intros H. unfold slice.
  set (s := Z.to_nat (clip_index (len l) a)).
  set (n := Z.to_nat (clip_index (len l) b - clip_index (len l) a)).
  rewrite (three_parts s n l) in H.
  apply Forall_app in H as [_ H]. apply Forall_app in H as [H _]. exact H.
Qed.

Lemma scale_by_finite (c : Q) (l : list Q) :
  map (fun k => nmul (Fin c) (Fin k)) l = map Fin (map (Qmult c) l).
Proof. rewrite map_map. reflexivity. Qed.

Lemma ndiv_positive (w n : Q) : (0 < n)%Q -> ndiv (Fin w) (Fin n) = Fin (w / n).
Proof.
  intros Hn. unfold ndiv, Qsign.
  assert (E : (n ?= 0)%Q = Gt) by (apply Qgt_alt; exact Hn).
  now rewrite E.
Qed.

(** C2.  For an observation whose clipped window is non-empty, stacked from
    a well-formed dictionary onto an array of finite values: the normaliser
    read off the cumulative sum equals the sum of the pasted kernel
    sub-slice [kernel[lpad : 2*width+1+hpad]], the loop body returns without
    raising, and the sum of the output array grows by exactly the weight of
    the observation, whether or not the window was clipped. *)
Theorem clipped_kernel_preserves_mass :
  forall (pdfdict : PDFDict) (y_idx y_std_idx : list Z) (y_wt ps : list Q)
         (i idx pos width : Z) (wi : Q),
    wf_dict pdfdict ->
    length ps = Ngrid pdfdict ->
    getitem y_std_idx i = Ok idx ->
    getitem y_idx i = Ok pos ->
    getitem y_wt i = Ok wi ->
    getitem (sigma_width pdfdict) idx = Ok width ->
    let low := Z.max (pos - width) 0 in
    let high := Z.min (pos + width + 1) (Z.of_nat (Ngrid pdfdict)) in
    let lpad := low - (pos - width) in
    let hpad := high - (pos + width + 1) in
    low < high ->
    exists kernel norm ps',
      getitem (sigma_dict pdfdict) idx = Ok kernel /\
      kernel_norm (cumsum kernel) lpad hpad = Ok norm /\
      (norm == Qsum (slice kernel lpad (2 * width + 1 + hpad)))%Q /\
      stack_kernel pdfdict y_idx y_std_idx y_wt (map Fin ps) i
        = Ok (map Fin ps') /\
      length ps' = length ps /\
      (Qsum ps' == Qsum ps + wi)%Q.
Proof.
  intros d y_idx y_std_idx y_wt ps i idx pos width wi
         Hwf Hps Gidx Gpos Gwi Gw low high lpad hpad Hwin.
  destruct (wf_dict_lookup d idx width Hwf Gw) as (kernel & Gk & Gc & Hlen & Hpos).
  assert (Hw0 : 0 <= width) by (unfold len in Hlen; lia).
  destruct (kernel_norm_is_slice_sum kernel lpad hpad) as (norm & Gn & Hnorm);
    [subst lpad low; lia | subst lpad hpad low high; lia
     | subst hpad high; lia |].
  rewrite Hlen in Hnorm.
  set (sl := slice kernel lpad (2 * width + 1 + hpad)) in *.
  assert (Hsl : len sl = high - low).
  { destruct (slice_inside kernel lpad (2 * width + 1 + hpad)) as [_ E];
      [subst lpad hpad low high; lia | subst hpad high; lia |].
    fold sl in E. rewrite E. subst lpad hpad. lia. }
  assert (Hnpos : (0 < norm)%Q).
  { rewrite Hnorm. apply Qsum_positive.
    - apply Forall_slice, Hpos.
    - intros E. rewrite E in Hsl. unfold len in Hsl. simpl in Hsl. lia. }
  destruct (iadd_slice_finite ps (map (Qmult (wi / norm)) sl) low high)
    as (ps' & Hadd & Hlen' & Hsum).
  { subst low high. lia. }
  { subst high. unfold len. lia. }
  { unfold len in *. rewrite length_map. exact Hsl. }
  exists kernel, norm, ps'.
  split; [exact Gk|]. split; [exact Gn|]. split; [exact Hnorm|].
  split; [|split; [exact Hlen'|]].
  - unfold stack_kernel.
    rewrite Gidx; cbn [bind]. rewrite Gpos; cbn [bind].
    rewrite Gk; cbn [bind]. rewrite Gw; cbn [bind]. rewrite Gc; cbn [bind].
    fold low high lpad hpad. rewrite Gn; cbn [bind]. rewrite Gwi; cbn [bind].
    rewrite ndiv_positive by exact Hnpos.
    fold sl. rewrite scale_by_finite. exact Hadd.
  - rewrite Hsum, Qsum_scale, <- Hnorm. field. lra.
Qed.

Lemma wf_demo_dict : wf_dict demo_dict.
Proof.
  unfold wf_dict. simpl. repeat split; try reflexivity.
  - destruct k as [|[|[|k]]]; simpl in *; try discriminate;
      inversion H; inversion H0; subst; reflexivity.
  - destruct k as [|[|[|k]]]; simpl in *; try discriminate;
      inversion H; inversion H0; subst; repeat constructor.
  - destruct k as [|[|[|k]]]; simpl in *; try discriminate;
      inversion H; inversion H0; subst; reflexivity.
Qed.

(** An observation at grid index 0 with the kernel of half-width 2, clipped on
    the low side, stacked with weight 3 onto a zero array. *)
Lemma clipped_kernel_preserves_mass_witness :
  exists kernel norm ps',
    getitem (sigma_dict demo_dict) 1 = Ok kernel /\
    kernel_norm (cumsum kernel) 2 0 = Ok norm /\
    (norm == Qsum (slice kernel 2 5))%Q /\
    stack_kernel demo_dict [0] [1] [3%Q] (map Fin (repeat 0%Q 11)) 0
      = Ok (map Fin ps') /\
    length ps' = length (repeat 0%Q 11) /\
    (Qsum ps' == Qsum (repeat 0%Q 11) + 3)%Q.
Proof.
  apply (clipped_kernel_preserves_mass
           demo_dict [0] [1] [3%Q] (repeat 0%Q 11) 0 1 0 2 3%Q).
  - exact wf_demo_dict.
  - reflexivity.
  - reflexivity.
  - reflexivity.
  - reflexivity.
  - reflexivity.
  - reflexivity.
Defined.

(* ------------------------------------------------------------------ *)
(** ** The constructor and undersized grids *)

Lemma mapM_pure {A B} (f : A -> result B) (g : A -> B) (l : list A) :
  (forall x, f x = Ok (g x)) -> mapM f l = Ok (map g l).
Proof.
  intros H. induction l as [|x l IH]; simpl; [reflexivity|].
  rewrite H. simpl. rewrite IH. reflexivity.
Qed.

Lemma len_slice {A} (l : list A) (a b : Z) :
  len (slice l a b) = Z.max 0 (clip_index (len l) b - clip_index (len l) a).
Proof.
  unfold slice, len. rewrite length_firstn, length_skipn.
  assert (H : forall i, 0 <= clip_index (Z.of_nat (length l)) i
                        <= Z.of_nat (length l)).
  { intros i. unfold clip_index. destruct (i <? 0); lia. }
  pose proof (H a). pose proof (H b). lia.
Qed.

Lemma length_gaussian e c mu std x : length (gaussian e c mu std x) = length x.
Proof. unfold gaussian. now rewrite !length_map. Qed.

(** Length of the slice [grid[mid-w : mid+w+1]] taken by the constructor. *)
Lemma kernel_slice_length (L w : Z) :
  0 <= L -> 0 <= w ->
  let mid := L / 2 in
  let n := Z.max 0 (clip_index L (mid + w + 1) - clip_index L (mid - w)) in
  (0 <= mid - w /\ mid + w + 1 <= L -> n = 2 * w + 1) /\
  (mid - w < 0 \/ L < mid + w + 1 -> n < 2 * w + 1).
Proof.
  intros HL Hw mid n. subst n. unfold clip_index.
  assert (0 <= mid <= L) by (subst mid; split; [apply Z.div_pos; lia|
    apply Z.div_le_upper_bound; lia]).
  destruct (Z.ltb_spec (mid + w + 1) 0); destruct (Z.ltb_spec (mid - w) 0);
    split; intros; lia.
Qed.

Lemma getitem_head2 {A} (a b : A) (l : list A) :
  getitem (a :: b :: l) 0 = Ok a /\ getitem (a :: b :: l) 1 = Ok b.
Proof.
  split.
  - destruct (getitem_nonneg (a :: b :: l) 0) as (x & G & N);
      [unfold len; simpl length; lia|].
    simpl in N. congruence.
  - destruct (getitem_nonneg (a :: b :: l) 1) as (x & G & N);
      [unfold len; simpl length; lia|].
    simpl in N. congruence.
Qed.

Lemma nth_error_combine_Some {A B} (a : list A) : forall (b : list B) k x y,
  nth_error (combine a b) k = Some (x, y) ->
  nth_error a k = Some x /\ nth_error b k = Some y.
Proof.
  induction a as [|u a IH]; intros [|v b] [|k] x y H; simpl in *;
    try discriminate.
  - inversion H. auto.
  - eauto.
Qed.

Lemma PDFDict_init_returns e c (pdf_grid sigma_grid : list Q) (sigma_trunc : Q) :
  (2 <= length pdf_grid)%nat -> (2 <= length sigma_grid)%nat ->
  exists d mu delta,
    PDFDict_init e c pdf_grid sigma_grid sigma_trunc = Ok d /\
    sigma_width d = map (width_of sigma_trunc delta) sigma_grid /\
    sigma_dict d =
      map (fun sw : Q * Z =>
             gaussian e c mu (fst sw)
                      (slice pdf_grid (len pdf_grid / 2 - snd sw)
                             (len pdf_grid / 2 + snd sw + 1)))
          (combine sigma_grid (sigma_width d)).
Proof.
  intros Hg Hs. unfold PDFDict_init.
  destruct pdf_grid as [|g0 [|g1 gs]]; simpl in Hg; try lia.
  destruct sigma_grid as [|s0 [|s1 ss]]; simpl in Hs; try lia.
  unfold py_min, py_max. cbn [bind].
  destruct (getitem_head2 g0 g1 gs) as [G0 G1].
  destruct (getitem_head2 s0 s1 ss) as [S0 S1].
  rewrite G1; cbn [bind]. rewrite G0; cbn [bind].
  rewrite S1; cbn [bind]. rewrite S0; cbn [bind].
  set (G := g0 :: g1 :: gs) in *.
  destruct (getitem_nonneg G (Z.of_nat (length G) / 2)) as (mu & Gmu & _).
  { unfold len. subst G. simpl length.
    split; [apply Z.div_pos; lia|apply Z.div_lt_upper_bound; lia]. }
  erewrite mapM_pure
    with (g := fun sw : Q * Z =>
                 gaussian e c mu (fst sw)
                          (slice G (Z.of_nat (length G) / 2 - snd sw)
                                 (Z.of_nat (length G) / 2 + snd sw + 1))).
  2:{ intros [s w]. rewrite Gmu. reflexivity. }
  cbn [bind]. eexists _, mu, (g1 - g0)%Q.
  split; [reflexivity|]. simpl sigma_width. simpl sigma_dict.
  split; reflexivity.
Qed.

(** C4 (as the code has it).  Given at least two grid points and two sigma
    values the constructor returns a dictionary and raises nothing; a kernel
    whose slice [mid-w : mid+w+1] stays inside the grid has [2*w+1] samples,
    and a kernel whose slice leaves the grid is silently shorter. *)
Theorem constructor_truncates_silently :
  forall (np_exp : Q -> Q) (sqrt_2pi : Q) (pdf_grid sigma_grid : list Q)
         (sigma_trunc : Q),
    (2 <= length pdf_grid)%nat -> (2 <= length sigma_grid)%nat ->
    exists d,
      PDFDict_init np_exp sqrt_2pi pdf_grid sigma_grid sigma_trunc = Ok d /\
      length (sigma_dict d) = length sigma_grid /\
      forall k w ker,
        nth_error (sigma_width d) k = Some w ->
        nth_error (sigma_dict d) k = Some ker ->
        0 <= w ->
        let mid := len pdf_grid / 2 in
        (0 <= mid - w /\ mid + w + 1 <= len pdf_grid -> len ker = 2 * w + 1) /\
        (mid - w < 0 \/ len pdf_grid < mid + w + 1 -> len ker < 2 * w + 1).
Proof.
  intros e c pdf_grid sigma_grid sigma_trunc Hg Hs.
  destruct (PDFDict_init_returns e c pdf_grid sigma_grid sigma_trunc Hg Hs)
    as (d & mu & dl & Hinit & Hw & Hd).
  exists d. split; [exact Hinit|]. split.
  - rewrite Hd, length_map, length_combine, Hw, length_map. lia.
  - intros k w ker Nw Nk Hw0 mid.
    rewrite Hd in Nk. rewrite nth_error_map in Nk.
    destruct (nth_error (combine sigma_grid (sigma_width d)) k)
      as [[s w']|] eqn:E; simpl in Nk; [|discriminate].
    inversion Nk as [Hker]. clear Nk.
    assert (w' = w).
    { apply nth_error_combine_Some in E as [_ E]. congruence. }
    subst w'.
    assert (Hlen : len (gaussian e c mu s
                          (slice pdf_grid (len pdf_grid / 2 - w)
                                 (len pdf_grid / 2 + w + 1)))
                   = Z.max 0 (clip_index (len pdf_grid) (mid + w + 1)
                              - clip_index (len pdf_grid) (mid - w))).
    { unfold len at 1. rewrite length_gaussian. apply len_slice. }
    rewrite Hlen. apply kernel_slice_length; [unfold len; lia|exact Hw0].
Qed.

Lemma constructor_truncates_silently_witness :
  exists d,
    PDFDict_init exp_stand_in sqrt_2pi_stand_in spec_grid spec_sigma_grid 5
      = Ok d /\
    length (sigma_dict d) = length spec_sigma_grid /\
    forall k w ker,
      nth_error (sigma_width d) k = Some w ->
      nth_error (sigma_dict d) k = Some ker ->
      0 <= w ->
      let mid := len spec_grid / 2 in
      (0 <= mid - w /\ mid + w + 1 <= len spec_grid -> len ker = 2 * w + 1) /\
      (mid - w < 0 \/ len spec_grid < mid + w + 1 -> len ker < 2 * w + 1).
Proof.
  apply (constructor_truncates_silently
           exp_stand_in sqrt_2pi_stand_in spec_grid spec_sigma_grid 5).
  - simpl. lia.
  - simpl. lia.
Defined.

(** On the scenario of the specification the constructor raises nothing: the
    kernel of the third bucket, of half-width 8 on a grid whose middle index
    is 5, is built from the wrapped slice [grid[-3:14]] and has 3 samples
    instead of 17. *)
Lemma constructor_accepts_undersized_grid :
  exists d,
    PDFDict_init exp_stand_in sqrt_2pi_stand_in spec_grid spec_sigma_grid 5
      = Ok d /\
    sigma_width d = [3; 5; 8] /\
    map (@length Q) (sigma_dict d) = [7; 11; 3]%nat /\
    len spec_grid / 2 - 8 < 0.
Proof.
  eexists. split; [reflexivity|].
  split; [vm_compute; reflexivity|].
  split; [vm_compute; reflexivity|].
  vm_compute. reflexivity.
Qed.

(* ------------------------------------------------------------------ *)
(** ** Quantization *)

Lemma Qround_even_Z (q : Q) (z : Z) : (q == inject_Z z)%Q -> Qround_even q = z.
Proof.
  intros H. unfold Qround_even.
  assert (F : Qfloor q = z) by (rewrite (Qfloor_comp _ _ H); apply Qfloor_Z).
  rewrite F.
  assert (E : ((q - inject_Z z) ?= 1 # 2)%Q = Lt).
  { apply (proj1 (Qlt_alt _ _)). rewrite H. lra. }
  now rewrite E.
Qed.

Lemma Qtrunc_Z (z : Z) : Qtrunc (inject_Z z) = z.
Proof.
  unfold Qtrunc. destruct (Qsign (inject_Z z)); auto using Qfloor_Z, Qceiling_Z.
Qed.

Lemma ndiv_nonzero (a b : Q) : ~ (b == 0)%Q -> ndiv (Fin a) (Fin b) = Fin (a / b).
Proof.
  intros Hb. unfold ndiv, Qsign.
  destruct (b ?= 0)%Q eqn:E; try reflexivity.
  apply Qeq_alt in E. contradiction.
Qed.

Lemma quantize_on_grid (x g0 step : Q) (z : Z) :
  ~ (step == 0)%Q -> (x == g0 + inject_Z z * step)%Q ->
  astype_int (nround (ndiv (Fin (x - g0)) (Fin step))) = z.
Proof.
  intros Hs Hx. rewrite ndiv_nonzero by exact Hs. simpl.
  rewrite (Qround_even_Z _ z); [apply Qtrunc_Z|].
  rewrite Hx. field. exact Hs.
Qed.

Lemma getitem_first {A} (l : list A) (a : A) :
  nth_error l 0 = Some a -> getitem l 0 = Ok a.
Proof.
  intros H. destruct (getitem_nonneg l 0) as (b & G & N).
  - destruct l; [discriminate|]. unfold len. simpl length. lia.
  - change (Z.to_nat 0) with 0%nat in N. congruence.
Qed.

(** C6.  On a dictionary whose grid and sigma grid are evenly spaced, [fit]
    returns, for every value equal to the grid point [grid[j]], the grid
    index [j], and for every sigma equal to [sigma_grid[k]], the dictionary
    index [k]. *)
Theorem fit_round_trip :
  forall (self : PDFDict) (X Xe : list Q),
    uniform_spacing (grid self) (delta self) ->
    uniform_spacing (sigma_grid self) (dsigma self) ->
    length (sigma_grid self) = Ndict self ->
    exists X_idx Xe_idx,
      fit self X Xe = Ok (X_idx, Xe_idx) /\
      (forall i x j gj,
          nth_error X i = Some x -> nth_error (grid self) j = Some gj ->
          (x == gj)%Q -> nth_error X_idx i = Some (Z.of_nat j)) /\
      (forall i s k sk,
          nth_error Xe i = Some s -> nth_error (sigma_grid self) k = Some sk ->
          (s == sk)%Q -> nth_error Xe_idx i = Some (Z.of_nat k)).
Proof.
  intros self X Xe (Hd & g0 & Hg0 & Hgrid) (Hds & s0 & Hs0 & Hsig) HN.
  unfold fit.
  rewrite (getitem_first _ _ Hg0); cbn [bind].
  rewrite (getitem_first _ _ Hs0); cbn [bind].
  eexists _, _. split; [reflexivity|]. split.
  - intros i x j gj Hx Hj E.
    rewrite nth_error_map, Hx. cbn [option_map]. f_equal.
    apply quantize_on_grid; [exact Hd|].
    rewrite E. apply Hgrid, Hj.
  - intros i s k sk Hs Hk E.
    rewrite !nth_error_map, Hs. cbn [option_map]. f_equal.
    rewrite (quantize_on_grid s s0 (dsigma self) (Z.of_nat k));
      [|exact Hds|rewrite E; apply Hsig, Hk].
    assert (Hlt : (k < Ndict self)%nat)
      by (rewrite <- HN; apply nth_error_Some; congruence).
    destruct (Z.geb_spec (Z.of_nat k) (Z.of_nat (Ndict self))); [lia|].
    destruct (Z.ltb_spec (Z.of_nat k) 0); [lia|reflexivity].
Qed.

Lemma uniform_demo_grid : uniform_spacing (grid demo_dict) (delta demo_dict).
Proof.
  split; [discriminate|]. exists (-5)%Q. split; [reflexivity|].
  intros j gj H.
  do 11 (destruct j as [|j]; [inversion H; reflexivity|]).
  destruct j; discriminate.
Qed.

Lemma uniform_demo_sigma_grid :
  uniform_spacing (sigma_grid demo_dict) (dsigma demo_dict).
Proof.
  split; [discriminate|]. exists (1 # 5)%Q. split; [reflexivity|].
  intros j gj H.
  do 2 (destruct j as [|j]; [inversion H; reflexivity|]).
  destruct j; discriminate.
Qed.

Lemma fit_round_trip_witness :
  exists X_idx Xe_idx,
    fit demo_dict [3; -5]%Q [2 # 5]%Q = Ok (X_idx, Xe_idx) /\
    (forall i x j gj,
        nth_error [3; -5]%Q i = Some x -> nth_error (grid demo_dict) j = Some gj ->
        (x == gj)%Q -> nth_error X_idx i = Some (Z.of_nat j)) /\
    (forall i s k sk,
        nth_error [2 # 5]%Q i = Some s ->
        nth_error (sigma_grid demo_dict) k = Some sk ->
        (s == sk)%Q -> nth_error Xe_idx i = Some (Z.of_nat k)).
Proof.
  apply (fit_round_trip demo_dict [3; -5]%Q [2 # 5]%Q).
  - exact uniform_demo_grid.
  - exact uniform_demo_sigma_grid.
  - reflexivity.
Defined.

(* ------------------------------------------------------------------ *)
(** ** The windows of the direct path *)

Lemma nth_error_zip_with {A B C} (f : A -> B -> C) (a : list A) :
  forall (b : list B) i u v,
    nth_error a i = Some u -> nth_error b i = Some v ->
    nth_error (zip_with f a b) i = Some (f u v).
Proof.
  induction a as [|x a IH]; intros [|y b] [|i] u v Ha Hb; simpl in *;
    try discriminate.
  - congruence.
  - eauto.
Qed.

Lemma broadcast2_same_length {A B C} (f : A -> B -> C) (a : list A) (b : list B) :
  length a = length b -> broadcast2 f a b = Ok (zip_with f a b).
Proof.
  intros H. unfold broadcast2. now rewrite H, Nat.eqb_refl.
Qed.

Lemma wrap64_id (z : Z) : int64 z -> wrap64 z = z.
Proof.
  unfold int64, wrap64, INT_MIN, INT_MAX. intros H.
  change (2 ^ 63) with 9223372036854775808 in *.
  change (2 ^ 64) with 18446744073709551616.
  rewrite Z.mod_small; lia.
Qed.

Lemma astype_int64_in_range (q : Q) :
  int64 (Qtrunc q) -> astype_int64 (Fin q) = Qtrunc q.
Proof.
  unfold int64, astype_int64. intros [Hlo Hhi].
  destruct (Z.leb_spec INT_MIN (Qtrunc q)); [|lia].
  destruct (Z.leb_spec (Qtrunc q) INT_MAX); [reflexivity|lia].
Qed.

Lemma astype_int64_agrees (a : num) :
  int64 (astype_int a) -> astype_int64 a = astype_int a.
Proof.
  destruct a as [q| | |]; try reflexivity. apply astype_int64_in_range.
Qed.

(** The cells of a slice whose bounds lie on the sequence. *)
Lemma slice_cells {A} (l : list A) (lo up : Z) :
  0 <= lo <= len l -> 0 <= up <= len l ->
  len (slice l lo up) = Z.max (up - lo) 0 /\
  forall k, lo <= k < up ->
            nth_error (slice l lo up) (Z.to_nat (k - lo))
            = nth_error l (Z.to_nat k).
Proof.
  intros Hlo Hup. split.
  - rewrite len_slice, !clip_index_id by lia. lia.
  - intros k Hk. unfold slice. rewrite !clip_index_id by lia.
    rewrite nth_error_firstn.
    destruct (Nat.ltb_spec (Z.to_nat (k - lo)) (Z.to_nat (up - lo))); [|lia].
    rewrite nth_error_skipn. f_equal. lia.
Qed.

(** C8 (as the code has it).  In [gauss_kde] the center
    [(y[i] - x[0]) / dx] and the half-width [sig_thresh * y_std[i] / dx] of
    observation [i] are converted to integers by truncation toward zero.
    When these two integers, their sum and their difference fit in 64 bits
    and the window [center - offset : center + offset] reaches the grid
    ([0 <= center + offset] and [center - offset <= Nx]), the bounds are
    [lowers[i] = max(center - offset, 0)] and
    [uppers[i] = min(center + offset, Nx)], both in [[0, Nx]], and the
    window [x[lowers[i]:uppers[i]]] is the grid cells [lowers[i] <= k <
    uppers[i]], in order. *)
Theorem kde_window_bounds :
  forall (y y_std x : list Q) (dx sig_thresh x0 : Q) (i : nat) (yi si : Q),
    nth_error x 0 = Some x0 ->
    length y = length y_std ->
    ~ (dx == 0)%Q ->
    nth_error y i = Some yi -> nth_error y_std i = Some si ->
    let center := Qtrunc ((yi - x0) / dx) in
    let offset := Qtrunc (sig_thresh * si / dx) in
    int64 center -> int64 offset ->
    int64 (center + offset) -> int64 (center - offset) ->
    0 <= center + offset -> center - offset <= len x ->
    exists lowers uppers lo up,
      kde_windows y y_std x dx sig_thresh = Ok (lowers, uppers) /\
      nth_error lowers i = Some lo /\
      nth_error uppers i = Some up /\
      lo = Z.max (center - offset) 0 /\
      up = Z.min (center + offset) (len x) /\
      0 <= lo <= len x /\ 0 <= up <= len x /\
      len (slice x lo up) = Z.max (up - lo) 0 /\
      forall k, lo <= k < up ->
                nth_error (slice x lo up) (Z.to_nat (k - lo))
                = nth_error x (Z.to_nat k).
Proof.
  intros y y_std x dx sig_thresh x0 i yi si Hx0 Hlen Hdx Hy Hs
         center offset Hc64 Ho64 Hu64 Hl64 Hreach_lo Hreach_up.
  unfold kde_windows.
  rewrite (getitem_first _ _ Hx0); cbn [bind].
  rewrite !broadcast2_same_length by (rewrite !length_map; exact Hlen).
  cbn [bind].
  assert (Hc : nth_error
                 (map (fun yi => astype_int64 (ndiv (Fin (yi - x0)) (Fin dx)))
                      y) i
               = Some center).
  { rewrite nth_error_map, Hy. cbn [option_map].
    rewrite ndiv_nonzero by exact Hdx.
    now rewrite astype_int64_in_range. }
  assert (Ho : nth_error
                 (map (fun s => astype_int64
                                  (ndiv (Fin (sig_thresh * s)) (Fin dx)))
                      y_std) i
               = Some offset).
  { rewrite nth_error_map, Hs. cbn [option_map].
    rewrite ndiv_nonzero by exact Hdx.
    now rewrite astype_int64_in_range. }
  assert (HNx : 0 <= len x) by (unfold len; lia).
  set (lo := Z.max (center - offset) 0).
  set (up := Z.min (center + offset) (len x)).
  assert (Hlo : 0 <= lo <= len x) by (subst lo; lia).
  assert (Hup : 0 <= up <= len x) by (subst up; lia).
  destruct (slice_cells x lo up Hlo Hup) as [Hlen_w Hcells].
  eexists _, _, lo, up. split; [reflexivity|].
  split; [|split].
  - rewrite nth_error_map,
      (nth_error_zip_with (fun c o => wrap64 (c - o)) _ _ _ _ _ Hc Ho).
    cbn [option_map]. f_equal. rewrite (wrap64_id _ Hl64). subst lo.
    destruct (Z.ltb_spec (center - offset) 0); lia.
  - rewrite nth_error_map,
      (nth_error_zip_with (fun c o => wrap64 (c + o)) _ _ _ _ _ Hc Ho).
    cbn [option_map]. f_equal. rewrite (wrap64_id _ Hu64). subst up.
    destruct (Z.gtb_spec (center + offset) (len x)); lia.
  - repeat (split; [reflexivity || assumption|]). exact Hcells.
Qed.

Lemma kde_window_bounds_witness :
  exists lowers uppers lo up,
    kde_windows [0; 4]%Q [35 # 100; 1]%Q spec_grid 1 5 = Ok (lowers, uppers) /\
    nth_error lowers 1 = Some lo /\
    nth_error uppers 1 = Some up /\
    lo = Z.max (Qtrunc ((4 - (-5)) / 1) - Qtrunc (5 * 1 / 1)) 0 /\
    up = Z.min (Qtrunc ((4 - (-5)) / 1) + Qtrunc (5 * 1 / 1)) (len spec_grid) /\
    0 <= lo <= len spec_grid /\ 0 <= up <= len spec_grid /\
    len (slice spec_grid lo up) = Z.max (up - lo) 0 /\
    forall k, lo <= k < up ->
              nth_error (slice spec_grid lo up) (Z.to_nat (k - lo))
              = nth_error spec_grid (Z.to_nat k).
Proof.
  apply (kde_window_bounds [0; 4]%Q [35 # 100; 1]%Q spec_grid 1 5 (-5)%Q
                           1%nat 4%Q 1%Q).
  - reflexivity.
  - reflexivity.
  - discriminate.
  - reflexivity.
  - reflexivity.
  - vm_compute. split; discriminate.
  - vm_compute. split; discriminate.
  - vm_compute. split; discriminate.
  - vm_compute. split; discriminate.
  - vm_compute. discriminate.
  - vm_compute. discriminate.
Defined.

(** An observation at the grid's center with [sigma = 0.35]: the ratio
    [sig_thresh * sigma / dx] is 1.75, which rounds to 2, yet the window is
    [4 : 6], of half-width 1 about the center 5. *)
Lemma kde_half_width_is_not_rounded :
  kde_windows [0]%Q [35 # 100]%Q spec_grid 1 5 = Ok ([4], [6]) /\
  Qtrunc ((0 - (-5)) / 1) = 5 /\
  Qround_even (5 * (35 # 100) / 1) = 2 /\
  kde_windows [0]%Q [35 # 100]%Q spec_grid 1 5
  <> Ok ([Z.max (5 - Qround_even (5 * (35 # 100) / 1)) 0],
         [Z.min (5 + Qround_even (5 * (35 # 100) / 1)) (len spec_grid)]).
Proof.
  split; [reflexivity|]. split; [reflexivity|]. split; [reflexivity|].
  vm_compute. discriminate.
Qed.

(* ------------------------------------------------------------------ *)
(** ** The direct path on degenerate observations *)

(** [gauss_kde] leaves an observation far outside the grid out: its window
    is the empty slice [x[0:-999999]], the kernel sum is [0], and the guard
    [if norm != 0.] skips the accumulation. *)
Lemma gauss_kde_skips_off_grid (e : Q -> Q) (c : Q) :
  gauss_kde e c [-1000005]%Q [1 # 5]%Q spec_grid None None 5
            default_wt_thresh default_cdf_thresh
  = Ok (zeros 11).
Proof. vm_compute. reflexivity. Qed.

(** An observation beyond the 64-bit range: the center is [INT_MIN], the
    difference [center - offset] wraps around to [2^63 - 2], the window
    [x[2^63-2 : -(2^63-2)]] is empty and the guard skips the observation. *)
Lemma kde_windows_beyond_int64 :
  kde_windows [inject_Z (2 ^ 70)]%Q [2 # 5]%Q spec_grid 1 5
  = Ok ([2 ^ 63 - 2], [- (2 ^ 63 - 2)]).
Proof. vm_compute. reflexivity. Qed.

Lemma gauss_kde_skips_beyond_int64 (e : Q -> Q) (c : Q) :
  gauss_kde e c [inject_Z (2 ^ 70)]%Q [2 # 5]%Q spec_grid None None 5
            default_wt_thresh default_cdf_thresh
  = Ok (zeros 11).
Proof. vm_compute. reflexivity. Qed.

(** An observation below the grid whose window does not reach it
    ([center + offset = -1]): [uppers] is not above [Nx] and stays [-1],
    and the slice [x[0:-1]] holds the first ten cells. *)
Lemma kde_windows_below_grid :
  kde_windows [- (17 # 2)]%Q [1 # 2]%Q spec_grid 1 5 = Ok ([0], [-1]) /\
  len (slice spec_grid 0 (-1)) = 10.
Proof. split; vm_compute; reflexivity. Qed.

(** The same guard covers a kernel whose samples all vanish. *)
Lemma gauss_kde_skips_zero_norm (c : Q) :
  gauss_kde (fun _ => 0%Q) c [0]%Q [1 # 5]%Q spec_grid None None 5
            default_wt_thresh default_cdf_thresh
  = Ok (zeros 11).
Proof. vm_compute. reflexivity. Qed.

(** In [gauss_kde_dict] the only window entirely off the grid that does not
    raise is the one ending just before index 0 ([pos = -width - 1]): both
    slices are empty and nothing is added. *)
Lemma gauss_kde_dict_adjacent_window :
  gauss_kde_dict demo_dict None None (Some [-2]) (Some [0]) None
                 default_wt_thresh default_cdf_thresh
  = Ok (zeros 11) /\
  gauss_kde_dict demo_dict None None (Some [-3]) (Some [0]) None
                 default_wt_thresh default_cdf_thresh
  = Raise IndexError /\
  gauss_kde_dict demo_dict None None (Some [12]) (Some [0]) None
                 default_wt_thresh default_cdf_thresh
  = Raise IndexError.
Proof. repeat split; vm_compute; reflexivity. Qed.

(* ------------------------------------------------------------------ *)
(** ** The cumulative-weight selection in general *)

Section SortByWeight.

Variable w : Z -> Q.

Lemma insert_by_Permutation i l : Permutation (insert_by w i l) (i :: l).
Proof.
  induction l as [|j t IH]; simpl; [reflexivity|].
  destruct (w j ?= w i)%Q; try reflexivity.
  rewrite IH. apply perm_swap.
Qed.

Lemma sort_by_Permutation l : Permutation (sort_by w l) l.
Proof.
  induction l as [|i t IH]; simpl; [reflexivity|].
  rewrite insert_by_Permutation. now constructor.
Qed.

Lemma insert_by_ascending i l : ascending w l -> ascending w (insert_by w i l).
Proof.
  unfold ascending. induction 1 as [|j t Ht IH Hj]; simpl.
  - repeat constructor.
  - destruct (w j ?= w i)%Q eqn:E.
    + apply Qeq_alt in E. constructor; [constructor; assumption|].
      constructor; [rewrite E; apply Qle_refl|].
      eapply Forall_impl; [|exact Hj]. intros a Ha. simpl in Ha.
      rewrite <- E. exact Ha.
    + apply (proj2 (Qlt_alt _ _)) in E. constructor; [exact IH|].
      eapply Permutation_Forall; [symmetry; apply insert_by_Permutation|].
      constructor; [lra|exact Hj].
    + apply (proj2 (Qgt_alt _ _)) in E. constructor; [constructor; assumption|].
      constructor; [lra|].
      eapply Forall_impl; [|exact Hj]. intros a Ha. simpl in Ha. lra.
Qed.

Lemma sort_by_ascending l : ascending w (sort_by w l).
Proof.
  induction l as [|i t IH]; simpl; [constructor|].
  now apply insert_by_ascending.
Qed.

Lemma ascending_last l h :
  ascending w l -> nth_error l (length l - 1) = Some h ->
  forall x, In x l -> (w x <= w h)%Q.
Proof.
  unfold ascending. induction 1 as [|j t Ht IH Hj]; intros Hh x Hx.
  - destruct Hx.
  - simpl in Hh. destruct t as [|j' t'].
    + simpl in Hh. inversion Hh; subst. destruct Hx as [->|[]]. apply Qle_refl.
    + replace (length (j' :: t') - 0)%nat with (S (length (j' :: t') - 1)) in Hh
        by (simpl; lia).
      simpl nth_error in Hh.
      destruct Hx as [->|Hx].
      * rewrite Forall_forall in Hj. apply Hj.
        apply nth_error_In with (n := (length (j' :: t') - 1)%nat). exact Hh.
      * apply IH; assumption.
Qed.

End SortByWeight.

Lemma take_in_range (l : list Q) (idx : list Z) :
  Forall (fun i => 0 <= i < len l) idx ->
  exists r, take l idx = Ok r /\ length r = length idx.
Proof.
  induction 1 as [|i t Hi Ht IH]; simpl.
  - exists []. auto.
  - destruct (getitem_nonneg l i Hi) as (a & Ga & _).
    destruct IH as (r & Hr & Hlen).
    rewrite Ga, Hr. simpl. exists (a :: r). simpl. auto.
Qed.

Lemma arange_in_range (n : nat) (i : Z) :
  In i (arange n) <-> 0 <= i < Z.of_nat n.
Proof.
  unfold arange. rewrite in_map_iff. split.
  - intros (k & <- & Hk). apply in_seq in Hk. lia.
  - intros Hi. exists (Z.to_nat i). split; [lia|]. apply in_seq. lia.
Qed.

Lemma NoDup_arange (n : nat) : NoDup (arange n).
Proof.
  unfold arange. apply Finite.Injective_map_NoDup.
  - intros a b. lia.
  - apply seq_NoDup.
Qed.

Lemma top_of_cdf_rejected (total c : Q) :
  (0 < c)%Q ->
  nleb (ndiv (Fin total) (Fin total)) (nsub (Fin 1) (Fin c)) = false.
Proof.
  intros Hc. unfold ndiv, Qsign.
  destruct (total ?= 0)%Q eqn:E; [reflexivity| |].
  - apply (proj2 (Qlt_alt _ _)) in E. simpl.
    assert (G : (total / total ?= 1 + - c)%Q = Gt).
    { apply (proj1 (Qgt_alt _ _)).
      setoid_replace (total / total)%Q with 1%Q by (field; lra). lra. }
    now rewrite G.
  - apply (proj2 (Qgt_alt _ _)) in E. simpl.
    assert (G : (total / total ?= 1 + - c)%Q = Gt).
    { apply (proj1 (Qgt_alt _ _)).
      setoid_replace (total / total)%Q with 1%Q by (field; lra). lra. }
    now rewrite G.
Qed.

(** Whatever the weights, the cumulative-weight selection with a positive
    [cdf_thresh] returns, and it leaves out the observation sorted last,
    whose weight is the largest of the batch. *)
Lemma select_cdf_drops_heaviest (y_wt : list Q) (c : Q) :
  y_wt <> [] -> (0 < c)%Q ->
  exists sel h,
    select_cdf y_wt (Fin c) = Ok sel /\
    0 <= h < len y_wt /\
    (forall j, 0 <= j < len y_wt ->
               (weight_at y_wt j <= weight_at y_wt h)%Q) /\
    ~ In h sel.
Proof.
  intros Hne Hc. unfold select_cdf.
  set (n := length y_wt).
  assert (Hn : (0 < n)%nat) by (subst n; destruct y_wt; simpl; [congruence|lia]).
  set (idx_sort := argsort y_wt).
  assert (Hperm : Permutation idx_sort (arange n))
    by apply sort_by_Permutation.
  assert (Hlen : length idx_sort = n).
  { rewrite (Permutation_length Hperm). apply length_arange. }
  assert (Hrange : Forall (fun i => 0 <= i < len y_wt) idx_sort).
  { apply Forall_forall. intros i Hi.
    apply (Permutation_in _ Hperm), arange_in_range in Hi. exact Hi. }
  destruct (take_in_range y_wt idx_sort Hrange) as (sorted & Htake & Hsl).
  rewrite Htake. cbn [bind].
  assert (Hcl : length (cumsum sorted) = n).
  { unfold cumsum. rewrite length_cumsum_from. congruence. }
  destruct (getitem_negative (cumsum sorted) (-1)) as (total & Gt & Nt);
    [unfold len; lia|].
  rewrite Gt. cbn [bind].
  unfold bool_index. rewrite !length_map, Hcl, Hlen, Nat.eqb_refl.
  replace (Z.to_nat (-1 + len (cumsum sorted))) with (n - 1)%nat in Nt
    by (unfold len; lia).
  destruct (nth_error idx_sort (n - 1)) as [h|] eqn:Nh;
    [|apply nth_error_None in Nh; lia].
  eexists _, h. split; [reflexivity|].
  assert (Hh : In h idx_sort) by (eapply nth_error_In; exact Nh).
  split; [|split].
  - rewrite Forall_forall in Hrange. apply Hrange, Hh.
  - intros j Hj.
    apply (ascending_last (weight_at y_wt) idx_sort h).
    + apply sort_by_ascending.
    + rewrite Hlen. exact Nh.
    + apply (Permutation_in _ (Permutation_sym Hperm)), arange_in_range.
      exact Hj.
  - rewrite mask_filter_In. intros (k & Nk & Mk).
    assert (k = (n - 1)%nat).
    { assert (Hnd : NoDup idx_sort)
        by (eapply Permutation_NoDup;
            [apply Permutation_sym, Hperm|apply NoDup_arange]).
      rewrite NoDup_nth_error in Hnd. apply Hnd; [|congruence].
      apply nth_error_Some. congruence. }
    subst k. rewrite !nth_error_map, Nt in Mk. cbn [option_map] in Mk.
    rewrite top_of_cdf_rejected in Mk by exact Hc. discriminate.
Qed.

Lemma select_cdf_drops_heaviest_witness :
  exists sel h,
    select_cdf demo_weights (Fin (1 # 5000)) = Ok sel /\
    0 <= h < len demo_weights /\
    (forall j, 0 <= j < len demo_weights ->
               (weight_at demo_weights j <= weight_at demo_weights h)%Q) /\
    ~ In h sel.
Proof.
  apply (select_cdf_drops_heaviest demo_weights (1 # 5000)).
  - discriminate.
  - reflexivity.
Defined.

(* ------------------------------------------------------------------ *)
(** ** Loops, shapes and the length of the output *)

Lemma fold_left_raise {S} (body : S -> Z -> result S) (l : list Z) (e : exn) :
  fold_left (fun acc i => s <- acc ;; body s i) l (Raise e) = Raise e.
Proof. induction l as [|i t IH]; simpl; auto. Qed.

Lemma for_each_cons {S} (body : S -> Z -> result S) (i : Z) (t : list Z) (init : S) :
  for_each body (i :: t) init = (s <- body init i ;; for_each body t s).
Proof.
  unfold for_each. simpl. destruct (body init i) as [s|e]; simpl.
  - reflexivity.
  - apply fold_left_raise.
Qed.

Lemma for_each_invariant {S} (P : S -> Prop) (body : S -> Z -> result S)
      (sel : list Z) :
  (forall s i s', P s -> In i sel -> body s i = Ok s' -> P s') ->
  forall init out, P init -> for_each body sel init = Ok out -> P out.
Proof.
  induction sel as [|i t IH]; intros Hstep init out Hinit Hrun.
  - unfold for_each in Hrun. simpl in Hrun. congruence.
  - rewrite for_each_cons in Hrun.
    destruct (body init i) as [s|e] eqn:E; simpl in Hrun; [|discriminate].
    apply (IH (fun s0 j s' Hs Hj => Hstep s0 j s' Hs (or_intror Hj)) s out);
      [|exact Hrun].
    apply (Hstep init i s Hinit (or_introl eq_refl) E).
Qed.

Lemma length_zip_with_min {A B C} (f : A -> B -> C) (a : list A) : forall b,
  length (zip_with f a b) = Nat.min (length a) (length b).
Proof.
  induction a as [|x a IH]; intros [|y b]; simpl; auto.
Qed.

Lemma clip_index_range (n i : Z) : 0 <= n -> 0 <= clip_index n i <= n.
Proof. intros Hn. unfold clip_index. destruct (i <? 0); lia. Qed.

(** In-place addition on a slice never changes the length of the array. *)
Lemma iadd_slice_length (a : list num) (low high : Z) (rhs a' : list num) :
  iadd_slice a low high rhs = Ok a' -> length a' = length a.
Proof.
  unfold iadd_slice.
  pose proof (clip_index_range (len a) low) as Hlo.
  pose proof (clip_index_range (len a) high) as Hhi.
  set (lo := clip_index (len a) low) in *.
  set (hi := clip_index (len a) high) in *.
  set (n := Z.to_nat (hi - lo)).
  assert (Hv : length (firstn n (skipn (Z.to_nat lo) a)) = n).
  { rewrite length_firstn, length_skipn. unfold len in *. lia. }
  assert (Hput : forall v, length v = n ->
            length (firstn (Z.to_nat lo) a ++ v ++ skipn (Z.to_nat lo + n) a)
            = length a).
  { intros v Hvl. rewrite !length_app, length_firstn, length_skipn, Hvl.
    unfold len in *. lia. }
  destruct (Nat.eqb_spec (length rhs) n) as [E|E].
  - intros H. inversion H. apply Hput.
    rewrite length_zip_with_min, Hv. lia.
  - destruct rhs as [|r [|r' rest]]; try discriminate.
    intros H. inversion H. apply Hput. now rewrite length_map.
Qed.

Lemma stack_kernel_length pdfdict y_idx y_std_idx y_wt pdf i pdf' :
  stack_kernel pdfdict y_idx y_std_idx y_wt pdf i = Ok pdf' ->
  length pdf' = length pdf.
Proof.
  unfold stack_kernel, bind. intros H.
  repeat match type of H with
         | match ?r with Ok _ => _ | Raise _ => _ end = _ =>
             destruct r; [|discriminate]
         end.
  eapply iadd_slice_length; exact H.
Qed.

Lemma kde_stack_length e c y y_std x y_wt lowers uppers pdf i pdf' :
  kde_stack e c y y_std x y_wt lowers uppers pdf i = Ok pdf' ->
  length pdf' = length pdf.
Proof.
  unfold kde_stack, bind. intros H.
  repeat match type of H with
         | match ?r with Ok _ => _ | Raise _ => _ end = _ =>
             destruct r; [|discriminate]
         end.
  match type of H with
  | (if ?b then _ else _) = _ => destruct b
  end; [congruence|].
  destruct (getitem y_wt i); [|discriminate].
  eapply iadd_slice_length; exact H.
Qed.

(** Whenever [gauss_kde_dict] returns, the array it returns has one cell per
    grid point of the dictionary. *)
Theorem gauss_kde_dict_output_length :
  forall pdfdict y y_std y_idx y_std_idx y_wt wt_thresh cdf_thresh pdf,
    gauss_kde_dict pdfdict y y_std y_idx y_std_idx y_wt wt_thresh cdf_thresh
    = Ok pdf ->
    length pdf = Ngrid pdfdict.
Proof.
  intros d y y_std y_idx y_std_idx y_wt t c pdf. unfold gauss_kde_dict.
  match goal with
  | |- bind ?r _ = _ -> _ => destruct r as [idxs|]; [|discriminate]
  end.
  cbn [bind].
  match goal with
  | |- bind ?r _ = _ -> _ => destruct r as [sel|]; [|discriminate]
  end.
  cbn [bind]. intros H.
  apply (for_each_invariant (fun p => length p = Ngrid d)) in H; [exact H| |].
  - intros s i s' Hs _ Hi. rewrite <- Hs. eapply stack_kernel_length; exact Hi.
  - unfold zeros. apply repeat_length.
Qed.

Lemma gauss_kde_dict_output_length_witness :
  exists pdf,
    gauss_kde_dict demo_dict None None (Some [-2; 0; 10; 11; 12])
                   (Some [0; 1; 1; 1; 1]) (Some [2; 3; 4; 5; 6]%Q)
                   default_wt_thresh default_cdf_thresh = Ok pdf /\
    length pdf = Ngrid demo_dict.
Proof.
  eexists. split.
  - vm_compute. reflexivity.
  - apply (gauss_kde_dict_output_length
             demo_dict None None (Some [-2; 0; 10; 11; 12])
             (Some [0; 1; 1; 1; 1]) (Some [2; 3; 4; 5; 6]%Q)
             default_wt_thresh default_cdf_thresh).
    vm_compute. reflexivity.
Defined.

(** Whenever [gauss_kde] returns, the array it returns has the length of the
    grid [x]. *)
Theorem gauss_kde_output_length :
  forall np_exp sqrt_2pi y y_std x dx y_wt sig_thresh wt_thresh cdf_thresh pdf,
    gauss_kde np_exp sqrt_2pi y y_std x dx y_wt sig_thresh wt_thresh cdf_thresh
    = Ok pdf ->
    length pdf = length x.
Proof.
  intros e c y y_std x dx y_wt st t cd pdf. unfold gauss_kde.
  match goal with
  | |- bind ?r _ = _ -> _ => destruct r as [dxv|]; [|discriminate]
  end.
  cbn [bind].
  match goal with
  | |- bind ?r _ = _ -> _ => destruct r as [win|]; [|discriminate]
  end.
  cbn [bind].
  match goal with
  | |- bind ?r _ = _ -> _ => destruct r as [sel|]; [|discriminate]
  end.
  cbn [bind]. intros H.
  apply (for_each_invariant (fun p => length p = length x)) in H; [exact H| |].
  - intros s i s' Hs _ Hi. rewrite <- Hs. eapply kde_stack_length; exact Hi.
  - unfold zeros. apply repeat_length.
Qed.

Lemma gauss_kde_output_length_witness :
  exists pdf,
    gauss_kde exp_stand_in sqrt_2pi_stand_in [0; 4]%Q [35 # 100; 1]%Q spec_grid
              None None 5 default_wt_thresh default_cdf_thresh = Ok pdf /\
    length pdf = length spec_grid.
Proof.
  eexists. split.
  - vm_compute. reflexivity.
  - apply (gauss_kde_output_length
             exp_stand_in sqrt_2pi_stand_in [0; 4]%Q [35 # 100; 1]%Q spec_grid
             None None 5 default_wt_thresh default_cdf_thresh).
    vm_compute. reflexivity.
Defined.

(* ------------------------------------------------------------------ *)
(** ** Inputs the stacking functions reject *)

(** Without a complete pair of indices and without a complete pair of raw
    values, [gauss_kde_dict] raises [ValueError], whatever the dictionary,
    the weights and the thresholds are. *)
Theorem gauss_kde_dict_missing_input :
  forall pdfdict y y_std y_idx y_std_idx y_wt wt_thresh cdf_thresh,
    y_idx = None \/ y_std_idx = None ->
    y = None \/ y_std = None ->
    gauss_kde_dict pdfdict y y_std y_idx y_std_idx y_wt wt_thresh cdf_thresh
    = Raise ValueError.
Proof.
  intros d y y_std y_idx y_std_idx y_wt t c Hi Hv. unfold gauss_kde_dict.
  destruct y_idx, y_std_idx, y, y_std; try reflexivity;
    destruct Hi, Hv; discriminate.
Qed.

Lemma gauss_kde_dict_missing_input_witness :
  gauss_kde_dict demo_dict (Some [0]%Q) None (Some [5]) None None
                 default_wt_thresh default_cdf_thresh
  = Raise ValueError.
Proof.
  apply (gauss_kde_dict_missing_input
           demo_dict (Some [0]%Q) None (Some [5]) None None
           default_wt_thresh default_cdf_thresh).
  - right. reflexivity.
  - right. reflexivity.
Defined.

(** An empty batch is rejected by the selection step: the maximum of no
    weights does not exist ([ValueError]), and under the cumulative-weight
    selection the last entry of an empty cumulative sum does not exist
    ([IndexError]).  This holds on both paths. *)
Theorem empty_batch_is_rejected :
  forall pdfdict y_std_idx np_exp sqrt_2pi x0 x dx sig_thresh wt_thresh cdf_thresh,
    let expected :=
      match wt_thresh, cdf_thresh with
      | None, Some _ => Raise IndexError
      | _, _ => Raise ValueError
      end in
    gauss_kde_dict pdfdict None None (Some []) (Some y_std_idx) None
                   wt_thresh cdf_thresh = expected /\
    gauss_kde np_exp sqrt_2pi [] [] (x0 :: x) (Some dx) None sig_thresh
              wt_thresh cdf_thresh = expected.
Proof.
  intros d ysi e c x0 x dx st t cd expected. subst expected. split.
  - unfold gauss_kde_dict. cbn [bind fst snd length default_weights ones repeat].
    destruct t, cd; reflexivity.
  - unfold gauss_kde. cbn [bind length default_weights ones repeat].
    unfold kde_windows.
    rewrite (getitem_first (x0 :: x) x0 eq_refl). cbn [bind map].
    unfold broadcast2. cbn [length Nat.eqb bind zip_with map fst snd].
    destruct t, cd; reflexivity.
Qed.

(** A weight array that is not empty and whose length differs from the
    number of observations makes the relative-amplitude selection, and with
    it [gauss_kde_dict], raise [IndexError]. *)
Theorem weight_length_mismatch_raises :
  forall pdfdict y_idx y_std_idx y_wt wt_thresh cdf_thresh,
    y_wt <> [] ->
    length y_wt <> length y_idx ->
    gauss_kde_dict pdfdict None None (Some y_idx) (Some y_std_idx) (Some y_wt)
                   (Some wt_thresh) cdf_thresh
    = Raise IndexError.
Proof.
  intros d yi ysi w t c Hne Hlen. unfold gauss_kde_dict.
  cbn [bind fst snd default_weights apply_thresholding].
  unfold select_amplitude.
  destruct (np_max_is_max w Hne) as (m & Hm & _). rewrite Hm. cbn [bind].
  unfold bool_index. rewrite length_arange, length_map.
  destruct (Nat.eqb_spec (length yi) (length w)); [congruence|reflexivity].
Qed.

Lemma weight_length_mismatch_raises_witness :
  gauss_kde_dict demo_dict None None (Some [5; 6]) (Some [0; 0]) (Some [1]%Q)
                 (Some (Fin (1 # 1000))) default_cdf_thresh
  = Raise IndexError.
Proof.
  apply (weight_length_mismatch_raises
           demo_dict [5; 6] [0; 0] [1]%Q (Fin (1 # 1000)) default_cdf_thresh).
  - discriminate.
  - discriminate.
Defined.

(* ------------------------------------------------------------------ *)
(** ** More on the relative-amplitude selection *)

Lemma mask_filter_all_true {A B} (l : list A) : forall (w : list B),
  length l = length w -> mask_filter l (map (fun _ => true) w) = l.
Proof.
  induction l as [|x l IH]; intros [|y w] H; simpl in *; try discriminate.
  - reflexivity.
  - f_equal. apply IH. congruence.
Qed.

Lemma mask_filter_all_false {A B} (l : list A) : forall (w : list B),
  mask_filter l (map (fun _ => false) w) = [].
Proof.
  induction l as [|x l IH]; intros [|y w]; simpl; auto.
Qed.

(** With both thresholds left at [None] the threshold becomes [-inf]: every
    observation is selected when the largest weight is positive, and none is
    when the largest weight is zero or negative ([-inf * 0] is [nan],
    [-inf * max] is [+inf] for a negative maximum). *)
Theorem no_threshold_selection :
  forall (y_wt : list Q) (m : Q),
    np_max y_wt = Ok m ->
    ((0 < m)%Q ->
     apply_thresholding (length y_wt) y_wt None None
     = Ok (arange (length y_wt))) /\
    ((m <= 0)%Q ->
     apply_thresholding (length y_wt) y_wt None None = Ok []).
Proof.
  intros w m Hm. unfold apply_thresholding, select_amplitude.
  rewrite Hm. cbn [bind]. unfold bool_index.
  rewrite length_arange, length_map, Nat.eqb_refl.
  unfold nmul, inf_times, Qsign. split; intros Hs.
  - assert (E : (m ?= 0)%Q = Gt) by (apply (proj1 (Qgt_alt _ _)); exact Hs).
    rewrite E. f_equal.
    rewrite (map_ext _ (fun _ => true)) by reflexivity.
    apply mask_filter_all_true. apply length_arange.
  - f_equal. destruct (m ?= 0)%Q eqn:E.
    + rewrite (map_ext _ (fun _ => false)) by reflexivity.
      apply mask_filter_all_false.
    + rewrite (map_ext _ (fun _ => false)) by reflexivity.
      apply mask_filter_all_false.
    + apply (proj2 (Qgt_alt _ _)) in E. lra.
Qed.

Lemma no_threshold_selection_witness :
  (0 < 1000 ->
   apply_thresholding (length demo_weights) demo_weights None None
   = Ok (arange (length demo_weights)))%Q /\
  (1000 <= 0 ->
   apply_thresholding (length demo_weights) demo_weights None None = Ok [])%Q.
Proof.
  apply (no_threshold_selection demo_weights 1000%Q). reflexivity.
Defined.

Lemma Qcompare_scale (k a b : Q) :
  (0 < k)%Q -> (k * a ?= k * b)%Q = (a ?= b)%Q.
Proof.
  intros Hk. destruct (Qcompare_spec a b) as [E|E|E].
  - apply (proj1 (Qeq_alt _ _)). rewrite E. reflexivity.
  - apply (proj1 (Qlt_alt _ _)). apply Qmult_lt_l; assumption.
  - apply (proj1 (Qgt_alt _ _)). apply Qmult_lt_l; assumption.
Qed.

Lemma Qsign_scale (k m : Q) : (0 < k)%Q -> Qsign (k * m) = Qsign m.
Proof.
  intros Hk. unfold Qsign. rewrite <- (Qcompare_scale k m 0 Hk).
  apply Qcompare_comp; [reflexivity|ring].
Qed.

Lemma Qmax_scale (k x y : Q) :
  (0 < k)%Q -> Qmax (k * x) (k * y) = (k * Qmax x y)%Q.
Proof.
  intros Hk. unfold Qmax, GenericMinMax.gmax.
  rewrite Qcompare_scale by exact Hk. destruct (x ?= y)%Q; reflexivity.
Qed.

Lemma fold_left_Qmax_scale (k : Q) (t : list Q) : forall x,
  (0 < k)%Q ->
  fold_left Qmax (map (Qmult k) t) (k * x)%Q = (k * fold_left Qmax t x)%Q.
Proof.
  induction t as [|y t IH]; intros x Hk; simpl; [reflexivity|].
  rewrite Qmax_scale by exact Hk. apply IH, Hk.
Qed.

Lemma threshold_test_scale (k w m : Q) (t : num) :
  (0 < k)%Q ->
  ngtb (Fin (k * w)) (nmul t (Fin (k * m))) = ngtb (Fin w) (nmul t (Fin m)).
Proof.
  intros Hk. unfold ngtb. destruct t as [q| | |]; simpl.
  - rewrite <- (Qcompare_scale k (q * m) w Hk).
    replace ((q * (k * m) ?= k * w)%Q) with ((k * (q * m) ?= k * w)%Q);
      [reflexivity|].
    apply Qcompare_comp; [ring|reflexivity].
  - unfold inf_times. rewrite Qsign_scale by exact Hk.
    destruct (Qsign m); reflexivity.
  - unfold inf_times. rewrite Qsign_scale by exact Hk.
    destruct (Qsign m); reflexivity.
  - reflexivity.
Qed.

(** The relative-amplitude selection depends on the weights only up to a
    common positive factor: multiplying every weight by [k > 0] leaves the
    selected indices, or the exception raised, unchanged. *)
Theorem amplitude_selection_scale_invariant :
  forall (Ny : nat) (y_wt : list Q) (k : Q) (wt_thresh : num)
         (cdf_thresh : option num),
    (0 < k)%Q ->
    apply_thresholding Ny (map (Qmult k) y_wt) (Some wt_thresh) cdf_thresh
    = apply_thresholding Ny y_wt (Some wt_thresh) cdf_thresh.
Proof.
  intros Ny w k t c Hk. unfold apply_thresholding, select_amplitude.
  destruct w as [|x w]; [reflexivity|].
  cbn [map np_max bind].
  rewrite fold_left_Qmax_scale by exact Hk.
  f_equal. cbn [map]. f_equal.
  - apply threshold_test_scale, Hk.
  - rewrite map_map. apply map_ext. intros a.
    apply threshold_test_scale, Hk.
Qed.

Lemma amplitude_selection_scale_invariant_witness :
  apply_thresholding 3 (map (Qmult (7 # 2)) demo_weights)
                     (Some (Fin (1 # 2))) default_cdf_thresh
  = apply_thresholding 3 demo_weights (Some (Fin (1 # 2))) default_cdf_thresh.
Proof.
  apply (amplitude_selection_scale_invariant
           3 demo_weights (7 # 2) (Fin (1 # 2)) default_cdf_thresh).
  reflexivity.
Defined.

(* ------------------------------------------------------------------ *)
(** ** The dictionary path, cell by cell and over a batch *)

Lemma iadd_slice_paste (ps r : list Q) (low high : Z) :
  0 <= low <= high -> high <= len ps -> len r = high - low ->
  iadd_slice (map Fin ps) low high (map Fin r) = Ok (map Fin (paste ps low high r)).
Proof.
  intros Hlo Hhi Hr. unfold iadd_slice, paste.
  assert (Hlen : len (map Fin ps) = len ps) by (unfold len; now rewrite length_map).
  rewrite Hlen, !clip_index_id by lia.
  assert (Hn : length r = Z.to_nat (high - low)) by (unfold len in Hr; lia).
  rewrite length_map, Hn, Nat.eqb_refl.
  rewrite !map_app, <- zip_with_nadd_Fin, !skipn_map, !firstn_map.
  reflexivity.
Qed.

Lemma Qsum_paste (ps r : list Q) (low high : Z) :
  0 <= low <= high -> high <= len ps -> len r = high - low ->
  length (paste ps low high r) = length ps /\
  (Qsum (paste ps low high r) == Qsum ps + Qsum r)%Q.
Proof.
  intros Hlo Hhi Hr. unfold paste.
  set (a := Z.to_nat low). set (n := Z.to_nat (high - low)).
  assert (Hv : length (firstn n (skipn a ps)) = length r).
  { rewrite length_firstn, length_skipn. unfold len in *. lia. }
  split.
  - rewrite !length_app, length_zip_with by exact Hv.
    rewrite <- !length_app. now rewrite <- three_parts.
  - rewrite !Qsum_app, Qsum_zip_plus by exact Hv.
    rewrite (three_parts a n ps) at 4. rewrite !Qsum_app. ring.
Qed.

(** The loop body of [gauss_kde_dict] in closed form, for a non-empty window
    and a well-formed dictionary. *)
Lemma stack_kernel_explicit
      (d : PDFDict) (y_idx y_std_idx : list Z) (y_wt ps : list Q)
      (i idx pos width : Z) (wi : Q) :
  wf_dict d ->
  length ps = Ngrid d ->
  getitem y_std_idx i = Ok idx ->
  getitem y_idx i = Ok pos ->
  getitem y_wt i = Ok wi ->
  getitem (sigma_width d) idx = Ok width ->
  let low := Z.max (pos - width) 0 in
  let high := Z.min (pos + width + 1) (Z.of_nat (Ngrid d)) in
  let lpad := low - (pos - width) in
  let hpad := high - (pos + width + 1) in
  low < high ->
  exists kernel norm,
    getitem (sigma_dict d) idx = Ok kernel /\
    len kernel = 2 * width + 1 /\
    kernel_norm (cumsum kernel) lpad hpad = Ok norm /\
    (0 < norm)%Q /\
    (norm == Qsum (slice kernel lpad (2 * width + 1 + hpad)))%Q /\
    len (slice kernel lpad (2 * width + 1 + hpad)) = high - low /\
    stack_kernel d y_idx y_std_idx y_wt (map Fin ps) i
    = Ok (map Fin (paste ps low high
                         (map (Qmult (wi / norm))
                              (slice kernel lpad (2 * width + 1 + hpad))))).
Proof.
  intros Hwf Hps Gidx Gpos Gwi Gw low high lpad hpad Hwin.
  destruct (wf_dict_lookup d idx width Hwf Gw) as (kernel & Gk & Gc & Hlen & Hpos).
  assert (Hw0 : 0 <= width) by (unfold len in Hlen; lia).
  destruct (kernel_norm_is_slice_sum kernel lpad hpad) as (norm & Gn & Hnorm);
    [subst lpad low; lia | subst lpad hpad low high; lia
     | subst hpad high; lia |].
  rewrite Hlen in Hnorm.
  set (sl := slice kernel lpad (2 * width + 1 + hpad)) in *.
  assert (Hsl : len sl = high - low).
  { destruct (slice_inside kernel lpad (2 * width + 1 + hpad)) as [_ E];
      [subst lpad hpad low high; lia | subst hpad high; lia |].
    fold sl in E. rewrite E. subst lpad hpad. lia. }
  assert (Hnpos : (0 < norm)%Q).
  { rewrite Hnorm. apply Qsum_positive.
    - apply Forall_slice, Hpos.
    - intros E. rewrite E in Hsl. unfold len in Hsl. simpl in Hsl. lia. }
  exists kernel, norm. repeat (split; [assumption|]).
  unfold stack_kernel.
  rewrite Gidx; cbn [bind]. rewrite Gpos; cbn [bind].
  rewrite Gk; cbn [bind]. rewrite Gw; cbn [bind]. rewrite Gc; cbn [bind].
  fold low high lpad hpad. rewrite Gn; cbn [bind]. rewrite Gwi; cbn [bind].
  rewrite ndiv_positive by exact Hnpos.
  fold sl. rewrite scale_by_finite.
  apply iadd_slice_paste.
  - subst low high. lia.
  - subst high. unfold len. lia.
  - unfold len in *. rewrite length_map. exact Hsl.
Qed.

(** Alignment of the pasted kernel.  Under the conditions of mass
    preservation, the loop body leaves every cell outside the window
    [low : high] as it was, and adds to the cell [k] of the window the sample
    [kernel[k - (pos - width)]] scaled by [y_wt[i] / norm]. *)
Theorem stack_kernel_cells :
  forall (pdfdict : PDFDict) (y_idx y_std_idx : list Z) (y_wt ps : list Q)
         (i idx pos width : Z) (wi : Q),
    wf_dict pdfdict ->
    length ps = Ngrid pdfdict ->
    getitem y_std_idx i = Ok idx ->
    getitem y_idx i = Ok pos ->
    getitem y_wt i = Ok wi ->
    getitem (sigma_width pdfdict) idx = Ok width ->
    let low := Z.max (pos - width) 0 in
    let high := Z.min (pos + width + 1) (Z.of_nat (Ngrid pdfdict)) in
    low < high ->
    exists kernel norm ps',
      getitem (sigma_dict pdfdict) idx = Ok kernel /\
      kernel_norm (cumsum kernel) (low - (pos - width))
                  (high - (pos + width + 1)) = Ok norm /\
      stack_kernel pdfdict y_idx y_std_idx y_wt (map Fin ps) i
        = Ok (map Fin ps') /\
      forall (k : nat) (p : Q),
        nth_error ps k = Some p ->
        (Z.of_nat k < low \/ high <= Z.of_nat k -> nth_error ps' k = Some p) /\
        (low <= Z.of_nat k < high ->
         exists v,
           nth_error kernel (Z.to_nat (Z.of_nat k - (pos - width))) = Some v /\
           nth_error ps' k = Some (p + wi / norm * v)%Q).
Proof.
  intros d y_idx y_std_idx y_wt ps i idx pos width wi
         Hwf Hps Gidx Gpos Gwi Gw low high Hwin.
  destruct (stack_kernel_explicit d y_idx y_std_idx y_wt ps i idx pos width wi
              Hwf Hps Gidx Gpos Gwi Gw Hwin)
    as (kernel & norm & Gk & Hlen & Gn & Hnpos & Hnorm & Hsl & Hrun).
  fold low high in Gn, Hnorm, Hsl, Hrun.
  set (lpad := low - (pos - width)) in *.
  set (hpad := high - (pos + width + 1)) in *.
  set (sl := slice kernel lpad (2 * width + 1 + hpad)) in *.
  exists kernel, norm, (paste ps low high (map (Qmult (wi / norm)) sl)).
  split; [exact Gk|]. split; [exact Gn|]. split; [exact Hrun|].
  assert (Hrange : 0 <= low /\ high <= Z.of_nat (length ps))
    by (subst low high; lia).
  set (a := Z.to_nat low). set (n := Z.to_nat (high - low)).
  assert (Ha : length (firstn a ps) = a)
    by (rewrite length_firstn; lia).
  assert (Hv : length (firstn n (skipn a ps)) = n)
    by (rewrite length_firstn, length_skipn; lia).
  assert (Hr : length (map (Qmult (wi / norm)) sl) = n)
    by (rewrite length_map; unfold len in Hsl; lia).
  assert (Hz : length (zip_with Qplus (firstn n (skipn a ps))
                                (map (Qmult (wi / norm)) sl)) = n)
    by (rewrite length_zip_with; congruence).
  assert (Hslice : sl = firstn (Z.to_nat (2 * width + 1 + hpad - lpad))
                               (skipn (Z.to_nat lpad) kernel)).
  { apply slice_inside; subst lpad hpad low high; lia. }
  intros k p Hk. unfold paste. fold a n. split.
  - intros [Hlt|Hge].
    + rewrite nth_error_app1 by lia.
      rewrite nth_error_firstn.
      destruct (Nat.ltb_spec k a); [exact Hk|lia].
    + rewrite nth_error_app2 by lia.
      rewrite nth_error_app2 by lia.
      rewrite nth_error_skipn, Ha, Hz.
      replace (a + n + (k - a - n))%nat with k by lia. exact Hk.
  - intros Hin.
    assert (Hp : nth_error (firstn n (skipn a ps)) (k - a) = Some p).
    { rewrite nth_error_firstn, nth_error_skipn.
      destruct (Nat.ltb_spec (k - a) n); [|lia].
      replace (a + (k - a))%nat with k by lia. exact Hk. }
    assert (Hsome : exists v, nth_error sl (k - a) = Some v).
    { destruct (nth_error sl (k - a)) eqn:E; [eauto|].
      apply nth_error_None in E. unfold len in Hsl. lia. }
    destruct Hsome as [v Hv'].
    exists v. split.
    + rewrite Hslice, nth_error_firstn, nth_error_skipn in Hv'.
      destruct (Nat.ltb_spec (k - a)
                             (Z.to_nat (2 * width + 1 + hpad - lpad)));
        [|discriminate].
      replace (Z.to_nat (Z.of_nat k - (pos - width)))
        with (Z.to_nat lpad + (k - a))%nat by (subst lpad a; lia).
      exact Hv'.
    + rewrite nth_error_app2 by lia.
      rewrite nth_error_app1 by lia.
      rewrite Ha.
      apply nth_error_zip_with; [exact Hp|].
      rewrite nth_error_map, Hv'. reflexivity.
Qed.

Lemma stack_kernel_cells_witness :
  exists kernel norm ps',
    getitem (sigma_dict demo_dict) 1 = Ok kernel /\
    kernel_norm (cumsum kernel) 2 0 = Ok norm /\
    stack_kernel demo_dict [0] [1] [3%Q] (map Fin (repeat 0%Q 11)) 0
      = Ok (map Fin ps') /\
    forall (k : nat) (p : Q),
      nth_error (repeat 0%Q 11) k = Some p ->
      (Z.of_nat k < 0 \/ 3 <= Z.of_nat k -> nth_error ps' k = Some p) /\
      (0 <= Z.of_nat k < 3 ->
       exists v,
         nth_error kernel (Z.to_nat (Z.of_nat k - (0 - 2))) = Some v /\
         nth_error ps' k = Some (p + 3 / norm * v)%Q).
Proof.
  apply (stack_kernel_cells
           demo_dict [0] [1] [3%Q] (repeat 0%Q 11) 0 1 0 2 3%Q).
  - exact wf_demo_dict.
  - reflexivity.
  - reflexivity.
  - reflexivity.
  - reflexivity.
  - reflexivity.
  - reflexivity.
Defined.

Lemma mask_filter_incl {A} (l : list A) (m : list bool) (x : A) :
  In x (mask_filter l m) -> In x l.
Proof.
  intros H. apply mask_filter_In in H as (k & Hk & _).
  eapply nth_error_In; exact Hk.
Qed.

(** Every selected index is an index of the batch. *)
Lemma apply_thresholding_in_range (y_wt : list Q) wt_thresh cdf_thresh sel :
  apply_thresholding (length y_wt) y_wt wt_thresh cdf_thresh = Ok sel ->
  forall i, In i sel -> 0 <= i < len y_wt.
Proof.
  assert (Hamp : forall t, select_amplitude (length y_wt) y_wt t = Ok sel ->
                           forall i, In i sel -> 0 <= i < len y_wt).
  { intros t H i Hi. unfold select_amplitude in H.
    destruct (np_max y_wt); [|discriminate]. cbn [bind] in H.
    unfold bool_index in H.
    destruct (Nat.eqb _ _); [|discriminate]. inversion H; subst.
    apply mask_filter_incl, arange_in_range in Hi. exact Hi. }
  unfold apply_thresholding. destruct wt_thresh as [t|].
  - apply Hamp.
  - destruct cdf_thresh as [c|]; [|apply Hamp].
    intros H i Hi. unfold select_cdf in H.
    destruct (take y_wt (argsort y_wt)); [|discriminate]. cbn [bind] in H.
    destruct (getitem _ (-1)); [|discriminate]. cbn [bind] in H.
    unfold bool_index in H.
    destruct (Nat.eqb _ _); [|discriminate]. inversion H; subst.
    apply mask_filter_incl in Hi.
    apply (Permutation_in _ (sort_by_Permutation _ _)), arange_in_range in Hi.
    exact Hi.
Qed.

Lemma getitem_weight_at (y_wt : list Q) (i : Z) :
  0 <= i < len y_wt -> getitem y_wt i = Ok (weight_at y_wt i).
Proof.
  intros Hi. destruct (getitem_nonneg y_wt i Hi) as (a & Ga & Na).
  rewrite Ga. f_equal. unfold weight_at. symmetry. now apply nth_error_nth.
Qed.

Lemma zeros_finite (n : nat) : zeros n = map Fin (repeat 0%Q n).
Proof. unfold zeros. now rewrite map_repeat. Qed.

Lemma Qsum_repeat_zero (n : nat) : (Qsum (repeat 0%Q n) == 0)%Q.
Proof. induction n as [|n IH]; simpl; [reflexivity|]. rewrite IH. ring. Qed.

(** The loop of [gauss_kde_dict] over observations whose windows all meet the
    grid. *)
Lemma dict_loop_mass (d : PDFDict) (y_idx y_std_idx : list Z) (y_wt : list Q) :
  wf_dict d ->
  forall sel,
    (forall i, In i sel ->
       exists idx pos width,
         getitem y_std_idx i = Ok idx /\ getitem y_idx i = Ok pos /\
         getitem y_wt i = Ok (weight_at y_wt i) /\
         getitem (sigma_width d) idx = Ok width /\
         Z.max (pos - width) 0
         < Z.min (pos + width + 1) (Z.of_nat (Ngrid d))) ->
    forall ps,
      length ps = Ngrid d ->
      exists ps',
        for_each (stack_kernel d y_idx y_std_idx y_wt) sel (map Fin ps)
        = Ok (map Fin ps') /\
        length ps' = Ngrid d /\
        (Qsum ps' == Qsum ps + Qsum (selected_weights y_wt sel))%Q.
Proof.
  intros Hwf. induction sel as [|i t IH]; intros Hsel ps Hps.
  - exists ps. split; [reflexivity|]. split; [exact Hps|]. simpl. ring.
  - destruct (Hsel i (or_introl eq_refl))
      as (idx & pos & width & Gidx & Gpos & Gwi & Gw & Hwin).
    destruct (stack_kernel_explicit d y_idx y_std_idx y_wt ps i idx pos width
                (weight_at y_wt i) Hwf Hps Gidx Gpos Gwi Gw Hwin)
      as (kernel & norm & _ & _ & _ & Hnpos & Hnorm & Hsl & Hrun).
    set (low := Z.max (pos - width) 0) in *.
    set (high := Z.min (pos + width + 1) (Z.of_nat (Ngrid d))) in *.
    set (sl := slice kernel (low - (pos - width))
                     (2 * width + 1 + (high - (pos + width + 1)))) in *.
    set (r := map (Qmult (weight_at y_wt i / norm)) sl) in *.
    destruct (Qsum_paste ps r low high) as [Hlen' Hsum].
    { subst low high. lia. }
    { subst high. unfold len. lia. }
    { subst r. unfold len in *. rewrite length_map. exact Hsl. }
    destruct (IH (fun j Hj => Hsel j (or_intror Hj)) (paste ps low high r))
      as (ps' & Hrest & Hlen2 & Hsum2); [congruence|].
    exists ps'. rewrite for_each_cons, Hrun. cbn [bind].
    split; [exact Hrest|]. split; [exact Hlen2|].
    rewrite Hsum2, Hsum. subst r. rewrite Qsum_scale, <- Hnorm.
    unfold selected_weights. simpl. field. lra.
Qed.

(** Mass of a whole batch.  On a well-formed dictionary, when the window of
    every selected observation meets the grid, [gauss_kde_dict] returns an
    array of finite values whose sum is the sum of the weights of the
    selected observations. *)
Theorem gauss_kde_dict_total_mass :
  forall (pdfdict : PDFDict) (y_idx y_std_idx : list Z) (y_wt : list Q)
         (wt_thresh cdf_thresh : option num) (sel : list Z),
    wf_dict pdfdict ->
    length y_std_idx = length y_idx ->
    length y_wt = length y_idx ->
    apply_thresholding (length y_idx) y_wt wt_thresh cdf_thresh = Ok sel ->
    (forall i pos idx,
        In i sel -> getitem y_idx i = Ok pos -> getitem y_std_idx i = Ok idx ->
        exists width,
          getitem (sigma_width pdfdict) idx = Ok width /\
          Z.max (pos - width) 0
          < Z.min (pos + width + 1) (Z.of_nat (Ngrid pdfdict))) ->
    exists ps,
      gauss_kde_dict pdfdict None None (Some y_idx) (Some y_std_idx)
                     (Some y_wt) wt_thresh cdf_thresh = Ok (map Fin ps) /\
      length ps = Ngrid pdfdict /\
      (Qsum ps == Qsum (selected_weights y_wt sel))%Q.
Proof.
  intros d y_idx y_std_idx y_wt t c sel Hwf Hls Hlw Hsel Hwin.
  assert (Hrange : forall i, In i sel -> 0 <= i < len y_wt).
  { apply (apply_thresholding_in_range y_wt t c). now rewrite Hlw. }
  destruct (dict_loop_mass d y_idx y_std_idx y_wt Hwf sel) with
    (ps := repeat 0%Q (Ngrid d)) as (ps & Hrun & Hlen & Hsum).
  - intros i Hi. specialize (Hrange i Hi).
    destruct (getitem_nonneg y_idx i) as (pos & Gpos & _);
      [unfold len in *; lia|].
    destruct (getitem_nonneg y_std_idx i) as (idx & Gidx & _);
      [unfold len in *; lia|].
    destruct (Hwin i pos idx Hi Gpos Gidx) as (width & Gw & Hlt).
    exists idx, pos, width.
    repeat split; try assumption. now apply getitem_weight_at.
  - apply repeat_length.
  - exists ps. unfold gauss_kde_dict.
    cbn [bind fst snd default_weights]. rewrite Hsel. cbn [bind].
    rewrite zeros_finite. split; [exact Hrun|]. split; [exact Hlen|].
    rewrite Hsum, Qsum_repeat_zero. ring.
Qed.

Lemma gauss_kde_dict_total_mass_witness :
  exists ps,
    gauss_kde_dict demo_dict None None (Some [0; 10; 5]) (Some [1; 1; 0])
                   (Some [3; 4; 2]%Q) default_wt_thresh default_cdf_thresh
    = Ok (map Fin ps) /\
    length ps = Ngrid demo_dict /\
    (Qsum ps == Qsum (selected_weights [3; 4; 2]%Q [0; 1; 2]%Z))%Q.
Proof.
  apply (gauss_kde_dict_total_mass
           demo_dict [0; 10; 5] [1; 1; 0] [3; 4; 2]%Q
           default_wt_thresh default_cdf_thresh [0; 1; 2]).
  - exact wf_demo_dict.
  - reflexivity.
  - reflexivity.
  - reflexivity.
  - intros i pos idx [<-|[<-|[<-|[]]]] Hp Hi;
      vm_compute in Hp; vm_compute in Hi;
      inversion Hp; inversion Hi; subst;
      eexists; (split; [reflexivity|reflexivity]).
Defined.

(* ------------------------------------------------------------------ *)
(** ** Windows that miss the grid *)





(** The one window off the grid that passes: it ends just before index 0.
    The retained mass is [0], the weight is divided by it, and the result
    multiplies an empty slice that is added to the empty view [pdf[0:0]]. *)
Theorem adjacent_window_is_skipped :
  forall (pdfdict : PDFDict) (y_idx y_std_idx : list Z) (y_wt : list Q)
         (pdf : list num) (i idx pos width : Z) (wi : Q),
    wf_dict pdfdict ->
    getitem y_std_idx i = Ok idx ->
    getitem y_idx i = Ok pos ->
    getitem y_wt i = Ok wi ->
    getitem (sigma_width pdfdict) idx = Ok width ->
    pos = - width - 1 ->
    stack_kernel pdfdict y_idx y_std_idx y_wt pdf i = Ok pdf.
Proof.
  intros d y_idx y_std_idx y_wt pdf i idx pos width wi
         Hwf Gidx Gpos Gwi Gw Hpos.
  destruct (wf_dict_lookup d idx width Hwf Gw) as (kernel & Gk & Gc & Hlen & _).
  assert (Hw0 : 0 <= width) by (unfold len in Hlen; lia).
  assert (HL : len (cumsum kernel) = 2 * width + 1).
  { unfold len, cumsum in *. now rewrite length_cumsum_from. }
  unfold stack_kernel.
  rewrite Gidx; cbn [bind]. rewrite Gpos; cbn [bind].
  rewrite Gk; cbn [bind]. rewrite Gw; cbn [bind]. rewrite Gc; cbn [bind].
  subst pos.
  replace (Z.max (- width - 1 - width) 0) with 0 by lia.
  replace (Z.min (- width - 1 + width + 1) (Z.of_nat (Ngrid d))) with 0 by lia.
  replace (0 - (- width - 1 - width)) with (2 * width + 1) by lia.
  replace (0 - (- width - 1 + width + 1)) with 0 by lia.
  unfold kernel_norm.
  destruct (Z.eqb_spec (2 * width + 1) 0); [lia|].
  destruct (getitem_negative (cumsum kernel) (0 - 1)) as (a & Ga & _);
    [rewrite HL; lia|].
  destruct (getitem_nonneg (cumsum kernel) (2 * width + 1 - 1)) as (b & Gb & _);
    [rewrite HL; lia|].
  rewrite Ga; cbn [bind]. rewrite Gb; cbn [bind]. rewrite Gwi; cbn [bind].
  assert (Hs : slice kernel (2 * width + 1) (2 * width + 1 + 0) = []).
  { unfold slice. rewrite Hlen, !clip_index_id by lia.
    replace (2 * width + 1 + 0 - (2 * width + 1)) with 0 by lia.
    reflexivity. }
  rewrite Hs. cbn [map]. unfold iadd_slice.
  pose proof (clip_index_range (len pdf) 0) as Hc.
  assert (E : clip_index (len pdf) 0 = 0).
  { unfold clip_index. simpl. unfold len. lia. }
  rewrite E. cbn [length Z.sub Z.opp Z.add Z.to_nat Nat.eqb firstn skipn
                  zip_with app Nat.add].
  reflexivity.
Qed.

Lemma adjacent_window_is_skipped_witness :
  stack_kernel demo_dict [-3] [1] [7%Q] (zeros 11) 0 = Ok (zeros 11).
Proof.
  apply (adjacent_window_is_skipped
           demo_dict [-3] [1] [7%Q] (zeros 11) 0 1 (-3) 2 7%Q).
  - exact wf_demo_dict.
  - reflexivity.
  - reflexivity.
  - reflexivity.
  - reflexivity.
  - reflexivity.
Defined.

(* ------------------------------------------------------------------ *)
(** ** What the constructor builds on a grid that is large enough *)

Lemma PDFDict_init_fields e c (g0 g1 : Q) (gs : list Q) (s0 s1 : Q) (ss : list Q)
      (sigma_trunc : Q) :
  let G := g0 :: g1 :: gs in
  let S := s0 :: s1 :: ss in
  exists d mu,
    PDFDict_init e c G S sigma_trunc = Ok d /\
    Ngrid d = length G /\ grid d = G /\ delta d = (g1 - g0)%Q /\
    Ndict d = length S /\ sigma_grid d = S /\ dsigma d = (s1 - s0)%Q /\
    sigma_width d = map (width_of sigma_trunc (g1 - g0)) S /\
    sigma_dict d =
      map (fun sw : Q * Z =>
             gaussian e c mu (fst sw)
                      (slice G (len G / 2 - snd sw) (len G / 2 + snd sw + 1)))
          (combine S (sigma_width d)) /\
    sigma_dict_cdf d = map cumsum (sigma_dict d).
Proof.
  intros G S. unfold PDFDict_init, py_min, py_max. subst G S. cbn [bind].
  destruct (getitem_head2 g0 g1 gs) as [G0 G1].
  destruct (getitem_head2 s0 s1 ss) as [S0 S1].
  rewrite G1; cbn [bind]. rewrite G0; cbn [bind].
  rewrite S1; cbn [bind]. rewrite S0; cbn [bind].
  set (G := g0 :: g1 :: gs) in *.
  destruct (getitem_nonneg G (Z.of_nat (length G) / 2)) as (mu & Gmu & _).
  { unfold len. subst G. simpl length.
    split; [apply Z.div_pos; lia|apply Z.div_lt_upper_bound; lia]. }
  erewrite mapM_pure
    with (g := fun sw : Q * Z =>
                 gaussian e c mu (fst sw)
                          (slice G (Z.of_nat (length G) / 2 - snd sw)
                                 (Z.of_nat (length G) / 2 + snd sw + 1))).
  2:{ intros [s w]. rewrite Gmu. reflexivity. }
  cbn [bind]. eexists _, mu. split; [reflexivity|].
  repeat split; reflexivity.
Qed.

Lemma gaussian_positive e c (mu std : Q) (x : list Q) :
  (forall q, (q <= 0)%Q -> (0 < e q)%Q) -> (0 < c)%Q -> (0 < std)%Q ->
  Forall (fun v => 0 < v)%Q (gaussian e c mu std x).
Proof.
  intros He Hc Hstd. unfold gaussian. rewrite map_map.
  apply Forall_forall. intros v Hv. apply in_map_iff in Hv as (xi & <- & _).
  unfold Qdiv at 1. apply Qmult_lt_0_compat.
  - apply He.
    assert (H : (0 <= (xi - mu) / std * ((xi - mu) / std))%Q).
    { destruct (Qlt_le_dec ((xi - mu) / std) 0) as [Hn|Hp].
      - setoid_replace ((xi - mu) / std * ((xi - mu) / std))%Q
          with ((- ((xi - mu) / std)) * (- ((xi - mu) / std)))%Q by ring.
        apply Qmult_le_0_compat; lra.
      - apply Qmult_le_0_compat; assumption. }
    lra.
  - apply Qinv_lt_0_compat. apply Qmult_lt_0_compat; assumption.
Qed.

Lemma width_of_ceiling (sigma_trunc delta s : Q) :
  ~ (delta == 0)%Q ->
  width_of sigma_trunc delta s = Qceiling (s * sigma_trunc / delta).
Proof.
  intros Hd. unfold width_of. rewrite ndiv_nonzero by exact Hd.
  simpl. apply Qtrunc_Z.
Qed.

Lemma Qceiling_positive (q : Q) : (0 < q)%Q -> 0 < Qceiling q.
Proof.
  intros Hq. pose proof (Qle_ceiling q) as H.
  assert (Hlt : (inject_Z 0 < inject_Z (Qceiling q))%Q)
    by (eapply Qlt_le_trans; [exact Hq|exact H]).
  rewrite <- Zlt_Qlt in Hlt. exact Hlt.
Qed.

(** On an increasing grid, with positive sigmas and a positive truncation,
    when every truncated kernel fits around the grid's middle index, the
    constructor returns a well-formed dictionary: the widths are
    [ceil(sigma * sigma_trunc / delta)], every kernel has [2 * width + 1]
    strictly positive samples, and every cumulative sum is the running sum
    of its kernel.  (The exponential is positive on non-positive arguments
    and [sqrt(2 pi)] is positive.) *)
Theorem constructor_builds_well_formed_dict :
  forall (np_exp : Q -> Q) (sqrt_2pi : Q) (g0 g1 : Q) (gs : list Q)
         (s0 s1 : Q) (ss : list Q) (sigma_trunc : Q),
    let pdf_grid := g0 :: g1 :: gs in
    let sigma_grid := s0 :: s1 :: ss in
    (forall q, (q <= 0)%Q -> (0 < np_exp q)%Q) ->
    (0 < sqrt_2pi)%Q ->
    (g0 < g1)%Q ->
    Forall (fun s => 0 < s)%Q sigma_grid ->
    (0 < sigma_trunc)%Q ->
    (forall s, In s sigma_grid ->
               let w := Qceiling (s * sigma_trunc / (g1 - g0)) in
               0 <= len pdf_grid / 2 - w /\
               len pdf_grid / 2 + w + 1 <= len pdf_grid) ->
    exists d,
      PDFDict_init np_exp sqrt_2pi pdf_grid sigma_grid sigma_trunc = Ok d /\
      wf_dict d /\
      Ngrid d = length pdf_grid /\
      sigma_width d
      = map (fun s => Qceiling (s * sigma_trunc / (g1 - g0))) sigma_grid.
Proof.
  intros e c g0 g1 gs s0 s1 ss trunc G S He Hc Hg Hs Ht Hfit.
  destruct (PDFDict_init_fields e c g0 g1 gs s0 s1 ss trunc)
    as (d & mu & Hinit & HN & _ & _ & HNd & _ & _ & Hw & Hd & Hcdf).
  fold G S in Hinit, HN, HNd, Hw, Hd.
  assert (Hdelta : ~ (g1 - g0 == 0)%Q) by lra.
  assert (Hw' : sigma_width d
                = map (fun s => Qceiling (s * trunc / (g1 - g0))) S).
  { rewrite Hw. apply map_ext. intros s. now apply width_of_ceiling. }
  exists d. split; [exact Hinit|]. split; [|split; [exact HN|exact Hw']].
  unfold wf_dict. rewrite Hcdf, Hd, !length_map, length_combine, Hw, length_map.
  rewrite HNd. split; [reflexivity|]. split; [lia|]. split; [lia|].
  intros k w ker Nw Nk.
  rewrite nth_error_map in Nk.
  destruct (nth_error (combine S (map (width_of trunc (g1 - g0)) S)) k)
    as [[s w']|] eqn:E; cbn [option_map] in Nk; [|discriminate].
  inversion Nk as [Hker]. cbn [fst snd] in *.
  destruct (nth_error_combine_Some _ _ _ _ _ E) as [Ns Nw2].
  assert (w' = w) by congruence. subst w'.
  assert (Hin : In s S) by (eapply nth_error_In; exact Ns).
  assert (Hsw : w = Qceiling (s * trunc / (g1 - g0))).
  { rewrite nth_error_map, Ns in Nw. cbn [option_map] in Nw.
    rewrite width_of_ceiling in Nw by exact Hdelta. congruence. }
  assert (Hspos : (0 < s)%Q) by (rewrite Forall_forall in Hs; now apply Hs).
  assert (Hwpos : 0 < w).
  { rewrite Hsw. apply Qceiling_positive.
    unfold Qdiv. apply Qmult_lt_0_compat.
    - apply Qmult_lt_0_compat; assumption.
    - apply Qinv_lt_0_compat. lra. }
  specialize (Hfit s Hin). cbn zeta in Hfit. rewrite <- Hsw in Hfit.
  split; [|split].
  - unfold len at 1. rewrite length_gaussian.
    change (Z.of_nat (length (slice G (len G / 2 - w) (len G / 2 + w + 1))))
      with (len (slice G (len G / 2 - w) (len G / 2 + w + 1))).
    rewrite len_slice.
    apply (kernel_slice_length (len G) w); [unfold len; lia|lia|exact Hfit].
  - apply gaussian_positive; assumption.
  - rewrite nth_error_map, nth_error_map, E. reflexivity.
Qed.

Lemma exp_stand_in_positive (q : Q) : (q <= 0)%Q -> (0 < exp_stand_in q)%Q.
Proof.
  intros Hq. unfold exp_stand_in, Qdiv. apply Qmult_lt_0_compat; [lra|].
  apply Qinv_lt_0_compat. lra.
Qed.

Lemma constructor_builds_well_formed_dict_witness :
  exists d,
    PDFDict_init exp_stand_in sqrt_2pi_stand_in
                 ((-5)%Q :: (-4)%Q :: map inject_Z [-3; -2; -1; 0; 1; 2; 3; 4; 5])
                 [1 # 2; 1]%Q 1
    = Ok d /\
    wf_dict d /\
    Ngrid d = 11%nat /\
    sigma_width d
    = map (fun s => Qceiling (s * 1 / (-4 - -5))%Q) [1 # 2; 1]%Q.
Proof.
  apply (constructor_builds_well_formed_dict
           exp_stand_in sqrt_2pi_stand_in (-5)%Q (-4)%Q
           (map inject_Z [-3; -2; -1; 0; 1; 2; 3; 4; 5]) (1 # 2)%Q 1%Q [] 1%Q).
  - exact exp_stand_in_positive.
  - reflexivity.
  - reflexivity.
  - repeat constructor.
  - reflexivity.
  - intros s [<-|[<-|[]]]; vm_compute; split; discriminate.
Defined.

(* ------------------------------------------------------------------ *)
(** ** More on quantization *)

(** [fit] never hands out a dictionary index outside the dictionary: the
    index of every sigma is clamped into [0, Ndict), and both index arrays
    have the lengths of the arrays they come from.  The grid index is not
    clamped. *)
Theorem fit_dict_index_in_range :
  forall (self : PDFDict) (X Xe : list Q),
    grid self <> [] -> sigma_grid self <> [] -> (0 < Ndict self)%nat ->
    exists X_idx Xe_idx,
      fit self X Xe = Ok (X_idx, Xe_idx) /\
      length X_idx = length X /\
      length Xe_idx = length Xe /\
      Forall (fun k => 0 <= k < Z.of_nat (Ndict self)) Xe_idx.
Proof.
  intros self X Xe Hg Hs HN. unfold fit.
  destruct (grid self) as [|g0 g] eqn:Eg; [congruence|].
  destruct (sigma_grid self) as [|s0 s] eqn:Es; [congruence|].
  rewrite (getitem_first (g0 :: g) g0 eq_refl); cbn [bind].
  rewrite (getitem_first (s0 :: s) s0 eq_refl); cbn [bind].
  eexists _, _. split; [reflexivity|].
  rewrite !length_map. split; [reflexivity|]. split; [reflexivity|].
  apply Forall_forall. intros k Hk.
  apply in_map_iff in Hk as (k1 & <- & Hk1).
  apply in_map_iff in Hk1 as (k0 & <- & _).
  destruct (Z.geb_spec k0 (Z.of_nat (Ndict self)));
    match goal with |- context [if ?b then _ else _] => destruct b eqn:E end;
    try apply Z.ltb_lt in E; try apply Z.ltb_ge in E; lia.
Qed.

Lemma fit_dict_index_in_range_witness :
  exists X_idx Xe_idx,
    fit demo_dict [100; -100]%Q [5; -5; 3 # 10]%Q = Ok (X_idx, Xe_idx) /\
    length X_idx = 2%nat /\
    length Xe_idx = 3%nat /\
    Forall (fun k => 0 <= k < Z.of_nat (Ndict demo_dict)) Xe_idx.
Proof.
  apply (fit_dict_index_in_range demo_dict [100; -100]%Q [5; -5; 3 # 10]%Q).
  - discriminate.
  - discriminate.
  - simpl. lia.
Defined.

Lemma Qround_even_nearest (q : Q) (z : Z) :
  (inject_Z z - (1 # 2) < q)%Q -> (q < inject_Z z + (1 # 2))%Q ->
  Qround_even q = z.
Proof.
  intros Hlo Hhi. unfold Qround_even.
  pose proof (Qfloor_le q) as Hf. pose proof (Qlt_floor q) as Hf'.
  set (f := Qfloor q) in *.
  rewrite inject_Z_plus in Hf'.
  assert (Hfz : f = z \/ f = z - 1).
  { assert (H1 : (inject_Z f < inject_Z (z + 1))%Q)
      by (rewrite inject_Z_plus; change (inject_Z 1) with 1%Q; lra).
    assert (H2 : (inject_Z z < inject_Z (f + 2))%Q).
    { rewrite inject_Z_plus. change (inject_Z 2) with 2%Q.
      change (inject_Z 1) with 1%Q in Hf'. lra. }
    rewrite <- Zlt_Qlt in H1, H2. lia. }
  destruct Hfz as [-> | ->].
  - assert (E : (q - inject_Z z ?= 1 # 2)%Q = Lt)
      by (apply (proj1 (Qlt_alt _ _)); lra).
    now rewrite E.
  - assert (Hm : (inject_Z (z - 1) == inject_Z z - 1)%Q).
    { unfold Z.sub. rewrite inject_Z_plus, inject_Z_opp. reflexivity. }
    change (inject_Z 1) with 1%Q in Hf'. rewrite Hm in Hf'.
    assert (E : (q - inject_Z (z - 1) ?= 1 # 2)%Q = Gt).
    { apply (proj1 (Qgt_alt _ _)). rewrite Hm. lra. }
    rewrite E. lia.
Qed.

(** [fit] maps a value to the nearest grid point.  On a grid of positive
    spacing, a value strictly closer than half a spacing to
    [grid[0] + z * delta], for an integer [z] that fits in 64 bits, gets the
    grid index [z], inside the grid or not; the rounded quotient is in the
    range on which the 64-bit cast is the truncation. *)
Theorem fit_nearest_grid_point :
  forall (self : PDFDict) (X Xe : list Q) (g0 : Q) (i : nat) (x : Q) (z : Z),
    nth_error (grid self) 0 = Some g0 ->
    sigma_grid self <> [] ->
    (0 < delta self)%Q ->
    nth_error X i = Some x ->
    int64 z ->
    (g0 + inject_Z z * delta self - delta self / 2 < x)%Q ->
    (x < g0 + inject_Z z * delta self + delta self / 2)%Q ->
    exists X_idx Xe_idx,
      fit self X Xe = Ok (X_idx, Xe_idx) /\
      nth_error X_idx i = Some z /\
      astype_int64 (nround (ndiv (Fin (x - g0)) (Fin (delta self)))) = z.
Proof.
  intros self X Xe g0 i x z Hg0 Hs Hd Hx Hz Hlo Hhi. unfold fit.
  rewrite (getitem_first _ _ Hg0); cbn [bind].
  destruct (sigma_grid self) as [|s0 s] eqn:Es; [congruence|].
  rewrite (getitem_first (s0 :: s) s0 eq_refl); cbn [bind].
  assert (Hq : astype_int (nround (ndiv (Fin (x - g0)) (Fin (delta self))))
               = z).
  { rewrite ndiv_nonzero by lra. simpl.
    rewrite (Qround_even_nearest _ z); [apply Qtrunc_Z| |].
    - apply Qlt_shift_div_l; [exact Hd|].
      setoid_replace ((inject_Z z - (1 # 2)) * delta self)%Q
        with (inject_Z z * delta self - delta self / 2)%Q by field.
      lra.
    - apply Qlt_shift_div_r; [exact Hd|].
      setoid_replace ((inject_Z z + (1 # 2)) * delta self)%Q
        with (inject_Z z * delta self + delta self / 2)%Q by field.
      lra. }
  eexists _, _. split; [reflexivity|]. split.
  - rewrite nth_error_map, Hx. cbn [option_map]. f_equal. exact Hq.
  - rewrite astype_int64_agrees; rewrite Hq; [reflexivity|exact Hz].
Qed.

Lemma fit_nearest_grid_point_witness :
  exists X_idx Xe_idx,
    fit demo_dict [27 # 10; 200]%Q [1 # 5]%Q = Ok (X_idx, Xe_idx) /\
    nth_error X_idx 1 = Some 205 /\
    astype_int64 (nround (ndiv (Fin (200 - (-5))) (Fin (delta demo_dict))))
    = 205.
Proof.
  apply (fit_nearest_grid_point
           demo_dict [27 # 10; 200]%Q [1 # 5]%Q (-5)%Q 1%nat 200%Q 205).
  - reflexivity.
  - discriminate.
  - reflexivity.
  - reflexivity.
  - vm_compute. split; discriminate.
  - reflexivity.
  - reflexivity.
Defined.

(* ------------------------------------------------------------------ *)
(** ** The direct path: one kernel and a whole batch *)

Lemma length_slice_depends_on_length {A B} (l : list A) (l' : list B) (a b : Z) :
  length l = length l' -> length (slice l a b) = length (slice l' a b).
Proof.
  intros H. unfold slice, len. rewrite !length_firstn, !length_skipn, H.
  reflexivity.
Qed.

(** In-place addition of a right-hand side that has the length of the view,
    for arbitrary slice bounds. *)
Lemma iadd_slice_any_bounds (ps r : list Q) (lo hi : Z) :
  length r = length (slice ps lo hi) ->
  exists ps',
    iadd_slice (map Fin ps) lo hi (map Fin r) = Ok (map Fin ps') /\
    length ps' = length ps /\
    (Qsum ps' == Qsum ps + Qsum r)%Q.
Proof.
  intros Hr. unfold iadd_slice.
  assert (Hlen : len (map Fin ps) = len ps) by (unfold len; now rewrite length_map).
  rewrite Hlen.
  pose proof (clip_index_range (len ps) lo) as Ha.
  pose proof (clip_index_range (len ps) hi) as Hb.
  unfold slice in Hr.
  set (a := Z.to_nat (clip_index (len ps) lo)) in *.
  set (n := Z.to_nat (clip_index (len ps) hi - clip_index (len ps) lo)) in *.
  assert (Hv : length (firstn n (skipn a ps)) = n).
  { rewrite length_firstn, length_skipn. unfold len in *. lia. }
  rewrite length_map, Hr, Hv, Nat.eqb_refl.
  exists (firstn a ps ++ zip_with Qplus (firstn n (skipn a ps)) r ++ skipn (a + n) ps).
  assert (Hvr : length (firstn n (skipn a ps)) = length r) by congruence.
  split; [|split].
  - rewrite !map_app, <- zip_with_nadd_Fin, !skipn_map, !firstn_map.
    reflexivity.
  - rewrite !length_app, length_zip_with by exact Hvr.
    rewrite <- !length_app. now rewrite <- three_parts.
  - rewrite !Qsum_app, Qsum_zip_plus by exact Hvr.
    rewrite (three_parts a n ps) at 4. rewrite !Qsum_app. ring.
Qed.

Lemma kde_stack_step e c (y y_std x y_wt : list Q) (lowers uppers : list Z)
      (ps : list Q) (i lo up : Z) (yi si wi : Q) :
  length ps = length x ->
  getitem y i = Ok yi ->
  getitem y_std i = Ok si ->
  getitem lowers i = Ok lo ->
  getitem uppers i = Ok up ->
  getitem y_wt i = Ok wi ->
  let gkde := gaussian e c yi si (slice x lo up) in
  exists ps',
    kde_stack e c y y_std x y_wt lowers uppers (map Fin ps) i
    = Ok (map Fin ps') /\
    length ps' = length ps /\
    ((Qsum gkde == 0)%Q -> ps' = ps) /\
    (~ (Qsum gkde == 0)%Q -> (Qsum ps' == Qsum ps + wi)%Q).
Proof.
  intros Hps Gy Gs Glo Gup Gw gkde.
  unfold kde_stack.
  rewrite Gy; cbn [bind]. rewrite Gs; cbn [bind].
  rewrite Glo; cbn [bind]. rewrite Gup; cbn [bind].
  fold gkde. destruct (Qeq_bool (Qsum gkde) 0) eqn:E.
  - apply Qeq_bool_iff in E. exists ps.
    split; [reflexivity|]. split; [reflexivity|].
    split; [reflexivity|]. intros H. contradiction.
  - assert (Hn : ~ (Qsum gkde == 0)%Q).
    { intros H. apply Qeq_bool_iff in H. congruence. }
    rewrite Gw; cbn [bind].
    rewrite ndiv_nonzero by exact Hn. rewrite scale_by_finite.
    destruct (iadd_slice_any_bounds ps (map (Qmult (wi / Qsum gkde)) gkde) lo up)
      as (ps' & Hrun & Hlen & Hsum).
    { rewrite length_map. subst gkde. rewrite length_gaussian.
      apply length_slice_depends_on_length. congruence. }
    exists ps'. split; [exact Hrun|]. split; [exact Hlen|].
    split; [intros H; contradiction|]. intros _.
    rewrite Hsum, Qsum_scale. field. exact Hn.
Qed.

(** One turn of the loop of [gauss_kde], for an observation of non-zero
    sigma, never raises once its lookups succeed: the observation is left
    out when its evaluated kernel sums to zero, and otherwise the sum of the
    output grows by exactly its weight, wherever its window was clamped. *)
Theorem kde_stack_adds_weight_or_nothing :
  forall (np_exp : Q -> Q) (sqrt_2pi : Q) (y y_std x y_wt : list Q)
         (lowers uppers : list Z) (ps : list Q) (i lo up : Z) (yi si wi : Q),
    (0 < sqrt_2pi)%Q ->
    length ps = length x ->
    getitem y i = Ok yi ->
    getitem y_std i = Ok si ->
    ~ (si == 0)%Q ->
    getitem lowers i = Ok lo ->
    getitem uppers i = Ok up ->
    getitem y_wt i = Ok wi ->
    let gkde := gaussian np_exp sqrt_2pi yi si (slice x lo up) in
    exists ps',
      kde_stack np_exp sqrt_2pi y y_std x y_wt lowers uppers (map Fin ps) i
      = Ok (map Fin ps') /\
      length ps' = length ps /\
      ((Qsum gkde == 0)%Q -> ps' = ps) /\
      (~ (Qsum gkde == 0)%Q -> (Qsum ps' == Qsum ps + wi)%Q).
Proof.
  intros e c y y_std x y_wt lowers uppers ps i lo up yi si wi
         _ Hps Gy Gs _ Glo Gup Gw.
  now apply kde_stack_step.
Qed.

Lemma kde_stack_adds_weight_or_nothing_witness :
  exists ps',
    kde_stack exp_stand_in sqrt_2pi_stand_in [0]%Q [1]%Q spec_grid [3]%Q
              [0] [10] (map Fin (repeat 0%Q 11)) 0
    = Ok (map Fin ps') /\
    length ps' = length (repeat 0%Q 11) /\
    ((Qsum (gaussian exp_stand_in sqrt_2pi_stand_in 0 1 (slice spec_grid 0 10))
      == 0)%Q -> ps' = repeat 0%Q 11) /\
    (~ (Qsum (gaussian exp_stand_in sqrt_2pi_stand_in 0 1 (slice spec_grid 0 10))
        == 0)%Q -> (Qsum ps' == Qsum (repeat 0%Q 11) + 3)%Q).
Proof.
  apply (kde_stack_adds_weight_or_nothing
           exp_stand_in sqrt_2pi_stand_in [0]%Q [1]%Q spec_grid [3]%Q
           [0] [10] (repeat 0%Q 11) 0 0 10 0%Q 1%Q 3%Q).
  - reflexivity.
  - reflexivity.
  - reflexivity.
  - reflexivity.
  - discriminate.
  - reflexivity.
  - reflexivity.
  - reflexivity.
Defined.

Lemma select_cdf_returns (y_wt : list Q) (c : num) :
  y_wt <> [] -> exists sel, select_cdf y_wt c = Ok sel.
Proof.
  intros Hne. unfold select_cdf.
  set (n := length y_wt).
  assert (Hn : (0 < n)%nat) by (subst n; destruct y_wt; simpl; [congruence|lia]).
  assert (Hperm : Permutation (argsort y_wt) (arange n))
    by apply sort_by_Permutation.
  assert (Hlen : length (argsort y_wt) = n).
  { rewrite (Permutation_length Hperm). apply length_arange. }
  assert (Hrange : Forall (fun i => 0 <= i < len y_wt) (argsort y_wt)).
  { apply Forall_forall. intros i Hi.
    apply (Permutation_in _ Hperm), arange_in_range in Hi. exact Hi. }
  destruct (take_in_range y_wt _ Hrange) as (sorted & Htake & Hsl).
  rewrite Htake. cbn [bind].
  assert (Hcl : length (cumsum sorted) = n).
  { unfold cumsum. rewrite length_cumsum_from. congruence. }
  destruct (getitem_negative (cumsum sorted) (-1)) as (total & Gt & _);
    [unfold len; lia|].
  rewrite Gt. cbn [bind].
  unfold bool_index. rewrite !length_map, Hcl, Hlen, Nat.eqb_refl. eauto.
Qed.

Lemma apply_thresholding_returns (y_wt : list Q) wt_thresh cdf_thresh :
  y_wt <> [] ->
  exists sel, apply_thresholding (length y_wt) y_wt wt_thresh cdf_thresh = Ok sel.
Proof.
  intros Hne. destruct (np_max_is_max y_wt Hne) as (m & Hm & _).
  unfold apply_thresholding. destruct wt_thresh as [t|].
  - destruct (select_amplitude_In y_wt t m Hm) as (sel & Hsel & _). eauto.
  - destruct cdf_thresh as [c|].
    + now apply select_cdf_returns.
    + destruct (select_amplitude_In y_wt NInf m Hm) as (sel & Hsel & _). eauto.
Qed.

Lemma kde_windows_returns (y y_std x : list Q) (dx sig_thresh : Q) :
  x <> [] -> length y_std = length y ->
  exists lowers uppers,
    kde_windows y y_std x dx sig_thresh = Ok (lowers, uppers) /\
    length lowers = length y /\ length uppers = length y.
Proof.
  intros Hx Hlen. unfold kde_windows.
  destruct x as [|x0 x]; [congruence|].
  rewrite (getitem_first (x0 :: x) x0 eq_refl); cbn [bind].
  rewrite !broadcast2_same_length by (rewrite !length_map; congruence).
  cbn [bind]. eexists _, _. split; [reflexivity|].
  rewrite !length_map, !length_zip_with by (rewrite !length_map; congruence).
  rewrite !length_map. auto.
Qed.

Lemma kde_loop_returns e c (y y_std x y_wt : list Q) (lowers uppers : list Z) :
  length y_std = length y -> length y_wt = length y ->
  length lowers = length y -> length uppers = length y ->
  forall sel,
    (forall i, In i sel -> 0 <= i < len y) ->
    forall ps,
      length ps = length x ->
      exists ps',
        for_each (kde_stack e c y y_std x y_wt lowers uppers) sel (map Fin ps)
        = Ok (map Fin ps') /\
        length ps' = length x.
Proof.
  intros Hs Hw Hlo Hup. induction sel as [|i t IH]; intros Hsel ps Hps.
  - exists ps. split; [reflexivity|exact Hps].
  - assert (Hi : 0 <= i < len y) by (apply Hsel; now left).
    destruct (getitem_nonneg y i Hi) as (yi & Gy & _).
    destruct (getitem_nonneg y_std i) as (si & Gs & _);
      [unfold len in *; lia|].
    destruct (getitem_nonneg lowers i) as (lo & Glo & _);
      [unfold len in *; lia|].
    destruct (getitem_nonneg uppers i) as (up & Gup & _);
      [unfold len in *; lia|].
    destruct (getitem_nonneg y_wt i) as (wi & Gw & _);
      [unfold len in *; lia|].
    destruct (kde_stack_step e c y y_std x y_wt lowers uppers ps i lo up
                yi si wi Hps Gy Gs Glo Gup Gw)
      as (ps1 & Hrun & Hlen & _).
    destruct (IH (fun j Hj => Hsel j (or_intror Hj)) ps1) as (ps' & Hrest & Hl);
      [congruence|].
    exists ps'. rewrite for_each_cons, Hrun. cbn [bind]. auto.
Qed.

(** [gauss_kde] on a well-shaped batch (a non-empty grid, a non-empty batch,
    one sigma and one weight per observation, a non-zero spacing and
    non-zero sigmas) never raises, whatever the values, the thresholds and
    the positions of the observations are; it returns an array of finite
    values of the length of the grid. *)
Theorem gauss_kde_never_raises :
  forall (np_exp : Q -> Q) (sqrt_2pi : Q) (y y_std x : list Q) (dx : Q)
         (y_wt : list Q) (sig_thresh : Q) (wt_thresh cdf_thresh : option num),
    (0 < sqrt_2pi)%Q ->
    x <> [] -> y <> [] ->
    length y_std = length y -> length y_wt = length y ->
    ~ (dx == 0)%Q ->
    Forall (fun s => ~ (s == 0)%Q) y_std ->
    exists ps,
      gauss_kde np_exp sqrt_2pi y y_std x (Some dx) (Some y_wt) sig_thresh
                wt_thresh cdf_thresh = Ok (map Fin ps) /\
      length ps = length x.
Proof.
  intros e c y y_std x dx y_wt st t cd _ Hx Hy Hs Hw _ _.
  unfold gauss_kde. cbn [bind default_weights].
  destruct (kde_windows_returns y y_std x dx st Hx Hs)
    as (lowers & uppers & Hwin & Hlo & Hup).
  rewrite Hwin. cbn [bind fst snd].
  assert (Hne : y_wt <> []) by (destruct y_wt, y; simpl in *; congruence).
  destruct (apply_thresholding_returns y_wt t cd Hne) as (sel & Hsel).
  rewrite Hw in Hsel. rewrite Hsel. cbn [bind].
  rewrite zeros_finite.
  apply (kde_loop_returns e c y y_std x y_wt lowers uppers Hs Hw Hlo Hup).
  - intros i Hi. rewrite <- Hw in Hsel.
    pose proof (apply_thresholding_in_range y_wt t cd sel Hsel i Hi) as H.
    unfold len in *. lia.
  - apply repeat_length.
Qed.

Lemma gauss_kde_never_raises_witness :
  exists ps,
    gauss_kde exp_stand_in sqrt_2pi_stand_in [-1000005; 0]%Q [1 # 5; 1]%Q
              spec_grid (Some 1%Q) (Some [2; 3]%Q) 5
              default_wt_thresh default_cdf_thresh = Ok (map Fin ps) /\
    length ps = length spec_grid.
Proof.
  apply (gauss_kde_never_raises
           exp_stand_in sqrt_2pi_stand_in [-1000005; 0]%Q [1 # 5; 1]%Q
           spec_grid 1%Q [2; 3]%Q 5 default_wt_thresh default_cdf_thresh).
  - reflexivity.
  - discriminate.
  - discriminate.
  - reflexivity.
  - reflexivity.
  - discriminate.
  - repeat constructor; discriminate.
Defined.

(* ------------------------------------------------------------------ *)
(** ** gaussian_bin *)

Lemma slice_from_1 {A} (l : list A) : slice_from l 1 = tl l.
Proof.
  unfold slice_from, clip_index, len. destruct l as [|x l]; [reflexivity|].
  change (1 <? 0) with false. cbv iota.
  replace (Z.to_nat (Z.max 0 (Z.min 1 (Z.of_nat (length (x :: l))))))
    with 1%nat by (simpl length; lia).
  reflexivity.
Qed.

Lemma slice_to_minus_1 {A} (l : list A) :
  slice_to l (-1) = firstn (length l - 1) l.
Proof.
  unfold slice_to, clip_index, len. f_equal.
  change (-1 <? 0) with true. cbv iota. lia.
Qed.

Lemma last_cons_default {A} (l : list A) : forall (x d d' : A),
  last (x :: l) d = last (x :: l) d'.
Proof.
  induction l as [|y l IH]; intros x d d'; [reflexivity|].
  change (last (y :: l) d = last (y :: l) d'). apply IH.
Qed.

Lemma last_of_map {A B} (f : A -> B) (l : list A) (d : A) :
  last (map f l) (f d) = f (last l d).
Proof.
  induction l as [|x l IH]; [reflexivity|].
  destruct l as [|y l]; [reflexivity|]. exact IH.
Qed.

(** Differences of consecutive entries telescope. *)
Lemma Qsum_differences (c0 : Q) (rest : list Q) :
  (Qsum (zip_with Qminus rest (firstn (length rest) (c0 :: rest)))
   == last rest c0 - c0)%Q.
Proof.
  revert c0. induction rest as [|c1 rest IH]; intros c0.
  - simpl. ring.
  - cbn [length firstn zip_with Qsum]. rewrite IH.
    destruct rest as [|c2 rest].
    + simpl. ring.
    + change (last (c1 :: c2 :: rest) c0) with (last (c2 :: rest) c0).
      rewrite (last_cons_default rest c2 c1 c0).
      ring.
Qed.

Lemma length_differences (c0 : Q) (rest : list Q) :
  length (zip_with Qminus rest (firstn (length rest) (c0 :: rest)))
  = length rest.
Proof.
  rewrite length_zip_with_min, length_firstn. simpl length. lia.
Qed.

Lemma gaussian_bin_unfold erf sqrt_2 (mu std b0 : Q) (rest : list Q) :
  gaussian_bin erf sqrt_2 mu std (b0 :: rest)
  = zip_with Qminus (map (normal_cdf erf sqrt_2 mu std) rest)
             (firstn (length (map (normal_cdf erf sqrt_2 mu std) rest))
                     (map (normal_cdf erf sqrt_2 mu std) (b0 :: rest))).
Proof.
  unfold gaussian_bin. rewrite !map_map, slice_from_1, slice_to_minus_1.
  rewrite !length_map. cbn [map tl length].
  replace (S (length rest) - 1)%nat with (length rest) by lia.
  reflexivity.
Qed.

(** [gaussian_bin] returns one amplitude per bin, and the amplitudes sum to
    the difference of the Normal CDF between the last and the first edge:
    the edges in between cancel. *)
Theorem gaussian_bin_telescopes :
  forall (erf : Q -> Q) (sqrt_2 mu std b0 : Q) (rest : list Q),
    ~ (std == 0)%Q ->
    let bins := b0 :: rest in
    length (gaussian_bin erf sqrt_2 mu std bins) = (length bins - 1)%nat /\
    (Qsum (gaussian_bin erf sqrt_2 mu std bins)
     == normal_cdf erf sqrt_2 mu std (last rest b0)
        - normal_cdf erf sqrt_2 mu std b0)%Q.
Proof.
  intros erf sqrt_2 mu std b0 rest _ bins. subst bins.
  rewrite gaussian_bin_unfold. cbn [map]. split.
  - rewrite length_differences, length_map. simpl. lia.
  - rewrite Qsum_differences, last_of_map. reflexivity.
Qed.

Lemma gaussian_bin_telescopes_witness :
  length (gaussian_bin erf_stand_in sqrt_2_stand_in 0 1 [-2; -1; 0; 3]%Q)
  = (length [-2; -1; 0; 3]%Q - 1)%nat /\
  (Qsum (gaussian_bin erf_stand_in sqrt_2_stand_in 0 1 [-2; -1; 0; 3]%Q)
   == normal_cdf erf_stand_in sqrt_2_stand_in 0 1 (last [-1; 0; 3]%Q (-2)%Q)
      - normal_cdf erf_stand_in sqrt_2_stand_in 0 1 (-2))%Q.
Proof.
  apply (gaussian_bin_telescopes
           erf_stand_in sqrt_2_stand_in 0%Q 1%Q (-2)%Q [-1; 0; 3]%Q).
  discriminate.
Defined.

Lemma Forall_zip_with {A B C} (P : C -> Prop) (f : A -> B -> C) (a : list A) :
  forall (b : list B),
    (forall k u v, nth_error a k = Some u -> nth_error b k = Some v ->
                   P (f u v)) ->
    Forall P (zip_with f a b).
Proof.
  induction a as [|x a IH]; intros [|y b] H; simpl; try constructor.
  - apply (H 0%nat); reflexivity.
  - apply IH. intros k u v Hu Hv. apply (H (S k)); assumption.
Qed.

Lemma normal_cdf_monotone erf sqrt_2 (mu std a b : Q) :
  (forall u v, (u <= v)%Q -> (erf u <= erf v)%Q) ->
  (0 < sqrt_2)%Q -> (0 < std)%Q -> (a <= b)%Q ->
  (normal_cdf erf sqrt_2 mu std a <= normal_cdf erf sqrt_2 mu std b)%Q.
Proof.
  intros Hm H2 Hs Hab. unfold normal_cdf.
  assert (Hpos : (0 < sqrt_2 * std)%Q) by (apply Qmult_lt_0_compat; assumption).
  assert (Harg : ((a - mu) / (sqrt_2 * std) <= (b - mu) / (sqrt_2 * std))%Q).
  { unfold Qdiv. apply Qmult_le_compat_r; [lra|].
    apply Qlt_le_weak, Qinv_lt_0_compat, Hpos. }
  pose proof (Hm _ _ Harg). lra.
Qed.

(** With a non-decreasing error function, a positive sigma and bin edges in
    non-decreasing order, no amplitude returned by [gaussian_bin] is
    negative. *)
Theorem gaussian_bin_nonnegative :
  forall (erf : Q -> Q) (sqrt_2 mu std : Q) (bins : list Q),
    (forall u v, (u <= v)%Q -> (erf u <= erf v)%Q) ->
    (0 < sqrt_2)%Q -> (0 < std)%Q ->
    non_decreasing bins ->
    Forall (fun p => 0 <= p)%Q (gaussian_bin erf sqrt_2 mu std bins).
Proof.
  intros erf sqrt_2 mu std bins Hm H2 Hs Hsorted.
  destruct bins as [|b0 rest]; [constructor|].
  rewrite gaussian_bin_unfold. apply Forall_zip_with.
  intros k u v Hu Hv.
  rewrite nth_error_firstn in Hv.
  destruct (Nat.ltb k _); [|discriminate].
  rewrite nth_error_map in Hu, Hv.
  destruct (nth_error rest k) as [b|] eqn:Eb; [|discriminate].
  destruct (nth_error (b0 :: rest) k) as [a|] eqn:Ea; [|discriminate].
  cbn [option_map] in Hu, Hv. inversion Hu; inversion Hv; subst.
  assert (Hab : (a <= b)%Q) by (apply (Hsorted k a b); assumption).
  pose proof (normal_cdf_monotone erf sqrt_2 mu std a b Hm H2 Hs Hab).
  unfold Qminus. lra.
Qed.

Lemma erf_stand_in_monotone (u v : Q) :
  (u <= v)%Q -> (erf_stand_in u <= erf_stand_in v)%Q.
Proof.
  intros H. unfold erf_stand_in.
  apply Q.max_le_compat_l, Q.min_le_compat_l, H.
Qed.

Lemma gaussian_bin_nonnegative_witness :
  Forall (fun p => 0 <= p)%Q
         (gaussian_bin erf_stand_in sqrt_2_stand_in 0 1 [-2; -1; 0; 3]%Q).
Proof.
  apply (gaussian_bin_nonnegative
           erf_stand_in sqrt_2_stand_in 0%Q 1%Q [-2; -1; 0; 3]%Q).
  - exact erf_stand_in_monotone.
  - reflexivity.
  - reflexivity.
  - intros k a b Ha Hb.
    do 3 (destruct k as [|k];
          [inversion Ha; inversion Hb; subst; discriminate|]).
    destruct k; discriminate.
Defined.

(* ------------------------------------------------------------------ *)
(** ** magnitude and inv_magnitude *)

Module PhotometryFacts.
Import Reals Lra.
Import Photometry.
Local Open Scope R_scope.

Lemma ln_10_nonzero : ln 10 <> 0.
Proof. apply ln_neq_0; lra. Qed.

Lemma power_of_log10 (x : R) : 0 < x -> Rpower 10 (np_log10 x) = x.
Proof.
  intros Hx. unfold Rpower, np_log10.
  replace (ln x / ln 10 * ln 10) with (ln x)
    by (field; exact ln_10_nonzero).
  now apply exp_ln.
Qed.

Lemma log10_of_power (y : R) : np_log10 (Rpower 10 y) = y.
Proof.
  unfold Rpower, np_log10. rewrite ln_exp. field. exact ln_10_nonzero.
Qed.

(** Converting a positive flux and its error to a magnitude and back, with
    the same positive zero-point, gives the flux and the error back. *)
Theorem flux_magnitude_round_trip :
  forall phot err zeropoints : R,
    0 < phot -> 0 < zeropoints ->
    inv_magnitude (fst (magnitude phot err zeropoints))
                  (snd (magnitude phot err zeropoints)) zeropoints
    = (phot, err).
Proof.
  intros phot err zp Hp Hz. unfold magnitude, inv_magnitude. cbn [fst snd].
  assert (Hq : 0 < phot / zp) by (apply Rdiv_lt_0_compat; assumption).
  assert (E : Rpower 10 (- (2 / 5) * (- (5 / 2) * np_log10 (phot / zp))) * zp
              = phot).
  { replace (- (2 / 5) * (- (5 / 2) * np_log10 (phot / zp)))
      with (np_log10 (phot / zp)) by field.
    rewrite power_of_log10 by exact Hq. field. now apply Rgt_not_eq. }
  rewrite E. f_equal. field.
  split; [exact ln_10_nonzero|now apply Rgt_not_eq].
Qed.

Lemma flux_magnitude_round_trip_witness :
  inv_magnitude (fst (magnitude 3 (1 / 10) 2))
                (snd (magnitude 3 (1 / 10) 2)) 2
  = (3, 1 / 10).
Proof.
  apply (flux_magnitude_round_trip 3 (1 / 10) 2); lra.
Defined.

(** Converting a magnitude and its error to a flux and back, with the same
    positive zero-point, gives the magnitude and the error back. *)
Theorem magnitude_flux_round_trip :
  forall mag err zeropoints : R,
    0 < zeropoints ->
    magnitude (fst (inv_magnitude mag err zeropoints))
              (snd (inv_magnitude mag err zeropoints)) zeropoints
    = (mag, err).
Proof.
  intros mag err zp Hz. unfold magnitude, inv_magnitude. cbn [fst snd].
  assert (Hpow : 0 < Rpower 10 (- (2 / 5) * mag))
    by (unfold Rpower; apply exp_pos).
  f_equal.
  - replace (Rpower 10 (- (2 / 5) * mag) * zp / zp)
      with (Rpower 10 (- (2 / 5) * mag)) by (field; now apply Rgt_not_eq).
    rewrite log10_of_power. field.
  - field. repeat split; try (now apply Rgt_not_eq). exact ln_10_nonzero.
Qed.

Lemma magnitude_flux_round_trip_witness :
  magnitude (fst (inv_magnitude 20 (1 / 10) 2))
            (snd (inv_magnitude 20 (1 / 10) 2)) 2
  = (20, 1 / 10).
Proof.
  apply (magnitude_flux_round_trip 20 (1 / 10) 2); lra.
Defined.

End PhotometryFacts.

(* ------------------------------------------------------------------ *)
(** ** Broadcasting on arrays of finite values *)

Lemma bdim_same (n : nat) : bdim n n = Ok n.
Proof. unfold bdim. now rewrite Nat.eqb_refl. Qed.

Lemma bdim_one_left (n : nat) : bdim 1 n = Ok n.
Proof. unfold bdim. destruct n as [|[|n]]; reflexivity. Qed.

Lemma mapM_In_Ok {A B} (f : A -> result B) (g : A -> B) (l : list A) :
  (forall x, In x l -> f x = Ok (g x)) -> mapM f l = Ok (map g l).
Proof.
  induction l as [|x l IH]; intros H; simpl; [reflexivity|].
  rewrite (H x (or_introl eq_refl)). cbn [bind].
  rewrite IH by (intros y Hy; apply H; now right). reflexivity.
Qed.

Lemma broadcast_rows_single {A B C} (g : A -> B -> result C) (v : A) (b : list B) :
  broadcast_rows g [v] b = mapM (g v) b.
Proof.
  unfold broadcast_rows. destruct b as [|r [|r' b]]; reflexivity.
Qed.

Lemma broadcast2_single_left {A B C} (f : A -> B -> C) (x : A) (b : list B) :
  broadcast2 f [x] b = Ok (map (f x) b).
Proof.
  unfold broadcast2. destruct b as [|y [|y' b]]; reflexivity.
Qed.

Lemma map_combine_zip_with {A B C} (f : A -> B -> C) (a : list A) : forall b,
  map (fun p => f (fst p) (snd p)) (combine a b) = zip_with f a b.
Proof.
  induction a as [|x a IH]; intros [|y b]; simpl; try reflexivity.
  now rewrite IH.
Qed.

Lemma nth_error_zip_with_inv {A B C} (f : A -> B -> C) (a : list A) :
  forall (b : list B) k v,
    nth_error (zip_with f a b) k = Some v ->
    exists x y, nth_error a k = Some x /\ nth_error b k = Some y /\ v = f x y.
Proof.
  induction a as [|x a IH]; intros [|y b] [|k] v H; simpl in *;
    try discriminate.
  - inversion H. eauto.
  - eauto.
Qed.

Lemma nth_error_map_inv {A B} (f : A -> B) (l : list A) k v :
  nth_error (map f l) k = Some v ->
  exists x, nth_error l k = Some x /\ v = f x.
Proof.
  rewrite nth_error_map. destruct (nth_error l k); simpl; [|discriminate].
  intros H. inversion H. eauto.
Qed.

Lemma zip_with_finite P f g (a b : list Q) :
  finite_on P f g -> Forall P b ->
  zip_with f (from_Q a) (from_Q b) = from_Q (zip_with g a b).
Proof.
  intros Hf. revert b. unfold from_Q.
  induction a as [|x a IH]; intros [|y b] Hb; simpl; try reflexivity.
  inversion Hb; subst. rewrite Hf by assumption. f_equal. now apply IH.
Qed.

Lemma finite_nadd : finite_on (fun _ => True) nadd Qplus.
Proof. intros a b _. reflexivity. Qed.

Lemma finite_nsub : finite_on (fun _ => True) nsub Qminus.
Proof. intros a b _. reflexivity. Qed.

Lemma finite_nmul : finite_on (fun _ => True) nmul Qmult.
Proof. intros a b _. reflexivity. Qed.

Lemma finite_ndiv : finite_on (fun b => ~ (b == 0)%Q) ndiv Qdiv.
Proof. intros a b Hb. now apply ndiv_nonzero. Qed.

Lemma Forall_True {A} (l : list A) : Forall (fun _ => True) l.
Proof. induction l; constructor; auto. Qed.

Lemma length_from_Q (v : list Q) : length (from_Q v) = length v.
Proof. apply length_map. Qed.

(** A row against a matrix. *)
Lemma bop2_row_matrix P f g (F : nat) (v : list Q) (B : list (list Q)) :
  finite_on P f g ->
  length v = F -> rectangular F B -> Forall (Forall P) B ->
  bop2 f {| ncols := F; rows := [from_Q v] |} (matrix F B)
  = Ok (matrix F (map (zip_with g v) B)).
Proof.
  intros Hf Hv HB HP. unfold bop2, matrix. cbn [ncols rows].
  rewrite bdim_same. cbn [bind]. rewrite broadcast_rows_single.
  rewrite (mapM_In_Ok _ (fun r => zip_with f (from_Q v) r)).
  - cbn [bind]. rewrite !map_map. f_equal. f_equal.
    apply map_ext_in. intros r Hr.
    apply (zip_with_finite P); [exact Hf|].
    rewrite Forall_forall in HP. now apply HP.
  - intros r Hr. apply in_map_iff in Hr as (q & <- & Hq).
    apply broadcast2_same_length. rewrite !length_from_Q.
    unfold rectangular in HB. rewrite Forall_forall in HB.
    rewrite (HB q Hq). exact Hv.
Qed.

(** Two matrices of the same shape. *)
Lemma bop2_matrices P f g (F : nat) (A B : list (list Q)) :
  finite_on P f g ->
  rectangular F A -> rectangular F B -> length A = length B ->
  Forall (Forall P) B ->
  bop2 f (matrix F A) (matrix F B)
  = Ok (matrix F (zip_with (zip_with g) A B)).
Proof.
  intros Hf HA HB Hlen HP. unfold bop2, matrix. cbn [ncols rows].
  rewrite bdim_same. cbn [bind]. unfold broadcast_rows.
  rewrite !length_map, Hlen, Nat.eqb_refl.
  rewrite (mapM_In_Ok _ (fun p => zip_with f (fst p) (snd p))).
  - cbn [bind]. f_equal. f_equal.
    rewrite map_combine_zip_with.
    clear HA HB. revert B Hlen HP.
    induction A as [|a A IH]; intros [|b B] Hlen HP; simpl in *;
      try discriminate; [reflexivity|].
    inversion HP; subst.
    rewrite (zip_with_finite P f g a b Hf) by assumption.
    f_equal. apply IH; [congruence|assumption].
  - intros [x y] Hxy. cbn [fst snd].
    pose proof (in_combine_l _ _ _ _ Hxy) as Hx.
    pose proof (in_combine_r _ _ _ _ Hxy) as Hy.
    apply in_map_iff in Hx as (a & <- & Ha).
    apply in_map_iff in Hy as (b & <- & Hb).
    apply broadcast2_same_length. rewrite !length_from_Q.
    unfold rectangular in *. rewrite Forall_forall in HA, HB.
    rewrite (HA a Ha), (HB b Hb). reflexivity.
Qed.

Lemma map2d_matrix (f : num -> num) (g : Q -> Q) (F : nat) (A : list (list Q)) :
  (forall a, f (Fin a) = Fin (g a)) ->
  map2d f (matrix F A) = matrix F (map (map g) A).
Proof.
  intros H. unfold map2d, matrix. cbn [ncols rows]. f_equal.
  rewrite !map_map. apply map_ext. intros r. unfold from_Q.
  rewrite !map_map. apply map_ext. intros a. apply H.
Qed.

Lemma map2d_row (f : num -> num) (g : Q -> Q) (v : list Q) :
  (forall a, f (Fin a) = Fin (g a)) ->
  map2d f (as_row (from_Q v))
  = {| ncols := length v; rows := [from_Q (map g v)] |}.
Proof.
  intros H. unfold map2d, as_row. cbn [ncols rows map].
  rewrite length_from_Q. f_equal. f_equal. unfold from_Q.
  rewrite !map_map. apply map_ext. intros a. apply H.
Qed.

Lemma nsum_from_Q (l : list Q) : nsum (from_Q l) = Fin (Qsum l).
Proof.
  induction l as [|x l IH]; [reflexivity|]. simpl. now rewrite IH.
Qed.

Lemma sum_axis1_matrix (F : nat) (A : list (list Q)) :
  sum_axis1 (matrix F A) = from_Q (map Qsum A).
Proof.
  unfold sum_axis1, matrix, from_Q. cbn [rows]. rewrite !map_map.
  apply map_ext. intros r. apply nsum_from_Q.
Qed.

Lemma rectangular_map_zip (F : nat) (g : Q -> Q -> Q) (v : list Q)
      (B : list (list Q)) :
  length v = F -> rectangular F B -> rectangular F (map (zip_with g v) B).
Proof.
  intros Hv HB. unfold rectangular in *. rewrite Forall_forall in *.
  intros r Hr. apply in_map_iff in Hr as (b & <- & Hb).
  rewrite length_zip_with; [exact Hv|]. rewrite (HB b Hb). exact Hv.
Qed.

Lemma rectangular_map_map (F : nat) (g : Q -> Q) (B : list (list Q)) :
  rectangular F B -> rectangular F (map (map g) B).
Proof.
  intros HB. unfold rectangular in *. rewrite Forall_forall in *.
  intros r Hr. apply in_map_iff in Hr as (b & <- & Hb).
  rewrite length_map. now apply HB.
Qed.

Lemma rectangular_zip_zip (F : nat) (g : Q -> Q -> Q) (A : list (list Q)) :
  forall B, rectangular F A -> rectangular F B ->
            rectangular F (zip_with (zip_with g) A B).
Proof.
  unfold rectangular.
  induction A as [|a A IH]; intros [|b B] HA HB; simpl; try constructor.
  - inversion HA; inversion HB; subst. rewrite length_zip_with; congruence.
  - inversion HA; inversion HB; subst. now apply IH.
Qed.

(* ------------------------------------------------------------------ *)
(** ** _loglike and _loglike_s *)

Lemma as_row_from_Q (F : nat) (v : list Q) :
  length v = F -> as_row (from_Q v) = {| ncols := F; rows := [from_Q v] |}.
Proof. intros H. unfold as_row. now rewrite length_from_Q, H. Qed.

Lemma square_row (F : nat) (v : list Q) :
  length v = F ->
  map2d nsquare (as_row (from_Q v))
  = {| ncols := F; rows := [from_Q (map Qsquare v)] |}.
Proof.
  intros H. rewrite (map2d_row nsquare Qsquare) by reflexivity. now rewrite H.
Qed.

Lemma Qsum_nonneg (l : list Q) : Forall (fun v => 0 <= v)%Q l -> (0 <= Qsum l)%Q.
Proof.
  induction 1 as [|x l Hx Hl IH]; simpl; [apply Qle_refl|]. lra.
Qed.

Lemma Qsum_all_zero (l : list Q) : Forall (fun v => v == 0)%Q l -> (Qsum l == 0)%Q.
Proof.
  induction 1 as [|x l Hx Hl IH]; simpl; [reflexivity|]. rewrite Hx, IH. ring.
Qed.

Lemma Forall_nth_error {A} (P : A -> Prop) (l : list A) :
  (forall k v, nth_error l k = Some v -> P v) -> Forall P l.
Proof.
  intros H. apply Forall_forall. intros x Hx.
  apply In_nth_error in Hx as [k Hk]. eapply H; exact Hk.
Qed.

Lemma Forall_nth_error_inv {A} (P : A -> Prop) (l : list A) k v :
  Forall P l -> nth_error l k = Some v -> P v.
Proof.
  intros H Hk. rewrite Forall_forall in H. apply H.
  eapply nth_error_In; exact Hk.
Qed.

Lemma Qsquare_nonneg (q : Q) : (0 <= Qsquare q)%Q.
Proof.
  unfold Qsquare. destruct (Qlt_le_dec q 0).
  - setoid_replace (q * q)%Q with ((- q) * (- q))%Q by ring.
    apply Qmult_le_0_compat; lra.
  - apply Qmult_le_0_compat; assumption.
Qed.

Lemma Qsquare_positive (q : Q) : ~ (q == 0)%Q -> (0 < Qsquare q)%Q.
Proof.
  intros Hq. unfold Qsquare. destruct (Qlt_le_dec q 0).
  - setoid_replace (q * q)%Q with ((- q) * (- q))%Q by ring.
    apply Qmult_lt_0_compat; lra.
  - assert (0 < q)%Q by (apply Qle_lteq in q0 as [H|H]; [exact H|];
                         exfalso; apply Hq; symmetry; exact H).
    apply Qmult_lt_0_compat; assumption.
Qed.

Lemma total_variance_matrix ignore (F : nat) (data_err : list Q)
      (es : list (list Q)) :
  length data_err = F -> rectangular F es ->
  total_variance ignore data_err (matrix F es)
  = Ok (matrix F (variance_rows ignore data_err es)).
Proof.
  intros Hd He. unfold total_variance, variance_rows.
  rewrite (square_row F) by exact Hd.
  destruct ignore.
  - rewrite (map2d_matrix _ (fun _ => 0%Q)) by reflexivity.
    apply (bop2_row_matrix (fun _ => True) nadd Qplus).
    + exact finite_nadd.
    + now rewrite length_map.
    + now apply rectangular_map_map.
    + apply Forall_forall. intros r _. apply Forall_True.
  - rewrite (map2d_matrix _ Qsquare) by reflexivity.
    apply (bop2_row_matrix (fun _ => True) nadd Qplus).
    + exact finite_nadd.
    + now rewrite length_map.
    + now apply rectangular_map_map.
    + apply Forall_forall. intros r _. apply Forall_True.
Qed.

Lemma variance_rows_positive ignore (data_err : list Q) (es : list (list Q)) :
  Forall (fun e => ~ (e == 0)%Q) data_err ->
  Forall (Forall (fun v => 0 < v)%Q) (variance_rows ignore data_err es).
Proof.
  intros Hd. unfold variance_rows. apply Forall_nth_error. intros j r Hr.
  apply nth_error_map_inv in Hr as (e' & He' & ->).
  apply nth_error_map_inv in He' as (e & He & ->).
  apply Forall_nth_error. intros f v Hv.
  apply nth_error_zip_with_inv in Hv as (a & b & Ha & Hb & ->).
  apply nth_error_map_inv in Ha as (de & Hde & ->).
  apply nth_error_map_inv in Hb as (x & Hx & ->).
  pose proof (Qsquare_positive de (Forall_nth_error_inv _ _ _ _ Hd Hde)).
  destruct ignore; [lra|]. pose proof (Qsquare_nonneg x). lra.
Qed.

Lemma variance_rows_shape ignore (F : nat) (data_err : list Q)
      (es : list (list Q)) :
  length data_err = F -> rectangular F es ->
  rectangular F (variance_rows ignore data_err es) /\
  length (variance_rows ignore data_err es) = length es.
Proof.
  intros Hd He. unfold variance_rows. split.
  - apply rectangular_map_zip; [now rewrite length_map|].
    now apply rectangular_map_map.
  - now rewrite !length_map.
Qed.

Lemma chi_square_matrix (F : nat) (data data_mask : list Q)
      (ms ks V : list (list Q)) :
  length data = F -> length data_mask = F ->
  rectangular F ms -> rectangular F ks -> rectangular F V ->
  length ks = length ms -> length V = length ms ->
  Forall (Forall (fun v => 0 < v)%Q) V ->
  chi_square (matrix F (map (zip_with Qmult data_mask) ks))
             (matrix F (map (zip_with Qminus data) ms)) (matrix F V)
  = Ok (from_Q (map Qsum (chi2_rows data data_mask ms ks V))).
Proof.
  intros Hd Hm Hms Hks HV Hlk HlV Hpos. unfold chi_square, chi2_rows.
  rewrite (map2d_matrix _ Qsquare) by reflexivity.
  rewrite (bop2_matrices (fun _ => True) nmul Qmult F).
  - cbn [bind].
    rewrite (bop2_matrices (fun b => ~ (b == 0)%Q) ndiv Qdiv F).
    + cbn [bind]. now rewrite sum_axis1_matrix.
    + exact finite_ndiv.
    + apply rectangular_zip_zip.
      * now apply rectangular_map_zip.
      * apply rectangular_map_map. now apply rectangular_map_zip.
    + exact HV.
    + rewrite length_zip_with_min, !length_map. lia.
    + eapply Forall_impl; [|exact Hpos]. intros r Hr.
      eapply Forall_impl; [|exact Hr]. intros v Hv. simpl in Hv. lra.
  - exact finite_nmul.
  - now apply rectangular_map_zip.
  - apply rectangular_map_map. now apply rectangular_map_zip.
  - rewrite !length_map. exact Hlk.
  - apply Forall_forall. intros r _. apply Forall_True.
Qed.

Lemma length_chi2_rows (data data_mask : list Q) (ms ks V : list (list Q)) :
  length ks = length ms -> length V = length ms ->
  length (chi2_rows data data_mask ms ks V) = length ms.
Proof.
  intros Hk HV. unfold chi2_rows.
  rewrite !length_zip_with_min, !length_map. lia.
Qed.

Ltac list_len :=
  repeat first [rewrite length_zip_with_min | rewrite length_map]; lia.

Section LogPdfs.

Variable xlogy : num -> num -> num.
Variable gammaln : num -> num.
Variable np_log : num -> num.
Variable log_2 : num.
Variable log_2pi : num.

Lemma chi2_logpdf_returns (a chi2 : list num) :
  length a = length chi2 ->
  exists lnl, chi2_logpdf xlogy gammaln log_2 a chi2 = Ok lnl /\
              length lnl = length chi2.
Proof.
  intros H. unfold chi2_logpdf.
  rewrite broadcast2_same_length by list_len. cbn [bind].
  rewrite broadcast2_same_length by list_len. cbn [bind].
  rewrite broadcast2_same_length by list_len. cbn [bind].
  rewrite broadcast2_same_length by list_len.
  eexists. split; [reflexivity|]. list_len.
Qed.

Lemma normal_logpdf_returns (Ndim chi2 : list num) (tot_var : array2) :
  length Ndim = length chi2 -> length (rows tot_var) = length chi2 ->
  exists lnl, normal_logpdf np_log log_2pi Ndim chi2 tot_var = Ok lnl /\
              length lnl = length chi2.
Proof.
  intros HN HV. unfold normal_logpdf, sum_axis1, map2d. cbn [rows].
  rewrite broadcast2_same_length by list_len.
  cbn [bind]. unfold iadd_1d.
  match goal with
  | |- context [Nat.eqb ?a ?b] => replace b with a by list_len
  end.
  rewrite Nat.eqb_refl. eexists. split; [reflexivity|]. list_len.
Qed.

End LogPdfs.

(** [_loglike] on a well-shaped problem with non-zero data errors and
    non-negative masks: it returns; [Ndim] is, model by model, the sum of the
    products of the two masks (the number of bands observed in both, for
    binary masks); no chi-square is negative; and a model that equals the
    data on every band where both masks are non-zero has a chi-square of
    zero, whatever it holds on the other bands. *)
Theorem loglike_chi2_properties :
  forall (xlogy : num -> num -> num) (gammaln np_log : num -> num)
         (log_2 log_2pi : num) (F : nat)
         (data data_err data_mask : list Q) (ms es ks : list (list Q))
         (ignore_model_err dim_prior : bool),
    length data = F -> length data_err = F -> length data_mask = F ->
    rectangular F ms -> rectangular F es -> rectangular F ks ->
    length es = length ms -> length ks = length ms ->
    Forall (fun e => ~ (e == 0)%Q) data_err ->
    Forall (fun v => 0 <= v)%Q data_mask ->
    Forall (Forall (fun v => 0 <= v)%Q) ks ->
    exists lnl chi2,
      _loglike xlogy gammaln np_log log_2 log_2pi data data_err data_mask
               (matrix F ms) (matrix F es) (matrix F ks)
               ignore_model_err dim_prior
      = Ok (lnl,
            from_Q (map (fun k => Qsum (zip_with Qmult data_mask k)) ks),
            from_Q chi2) /\
      length lnl = length ms /\
      length chi2 = length ms /\
      Forall (fun c => 0 <= c)%Q chi2 /\
      forall j m k c,
        nth_error ms j = Some m -> nth_error ks j = Some k ->
        nth_error chi2 j = Some c ->
        (forall f d mf dm kf,
            nth_error data f = Some d -> nth_error m f = Some mf ->
            nth_error data_mask f = Some dm -> nth_error k f = Some kf ->
            ~ (dm * kf == 0)%Q -> (d == mf)%Q) ->
        (c == 0)%Q.
Proof.
  intros xlogy gammaln np_log log_2 log_2pi F data data_err data_mask ms es ks
         ignore dim_prior Hd Hde Hdm Hms Hes Hks Hle Hlk Hnz Hmask Hkmask.
  set (V := variance_rows ignore data_err es).
  destruct (variance_rows_shape ignore F data_err es Hde Hes) as [HVr HVl].
  pose proof (variance_rows_positive ignore data_err es Hnz) as HVp.
  fold V in HVr, HVl, HVp.
  set (chi2 := map Qsum (chi2_rows data data_mask ms ks V)).
  assert (Hlc : length chi2 = length ms).
  { subst chi2. rewrite length_map. apply length_chi2_rows; congruence. }
  assert (Hrun : forall lnl_of : list num -> list num -> array2 -> result (list num),
            (exists lnl,
                lnl_of (from_Q (map Qsum (map (zip_with Qmult data_mask) ks)))
                       (from_Q chi2) (matrix F V) = Ok lnl /\
                length lnl = length ms) ->
            exists lnl,
              (tot_var <- total_variance ignore data_err (matrix F es) ;;
               tot_mask <- bop2 nmul (as_row (from_Q data_mask)) (matrix F ks) ;;
               let Ndim := sum_axis1 tot_mask in
               resid <- bop2 nsub (as_row (from_Q data)) (matrix F ms) ;;
               chi2 <- chi_square tot_mask resid tot_var ;;
               lnl <- lnl_of Ndim chi2 tot_var ;;
               Ok (lnl, Ndim, chi2))
              = Ok (lnl, from_Q (map Qsum (map (zip_with Qmult data_mask) ks)),
                    from_Q chi2) /\
              length lnl = length ms).
  { intros lnl_of (lnl & Hlnl & Hll).
    rewrite (total_variance_matrix ignore F) by assumption. cbn [bind].
    rewrite (as_row_from_Q F data_mask Hdm), (as_row_from_Q F data Hd).
    rewrite (bop2_row_matrix (fun _ => True) nmul Qmult F data_mask ks);
      [|exact finite_nmul|exact Hdm|exact Hks
       |apply Forall_forall; intros r _; apply Forall_True].
    cbn [bind].
    rewrite (bop2_row_matrix (fun _ => True) nsub Qminus F data ms);
      [|exact finite_nsub|exact Hd|exact Hms
       |apply Forall_forall; intros r _; apply Forall_True].
    cbn [bind]. fold V.
    rewrite (chi_square_matrix F data data_mask ms ks V)
      by (assumption || congruence).
    cbn [bind]. fold chi2. rewrite sum_axis1_matrix, Hlnl. cbn [bind].
    exists lnl. split; [reflexivity|exact Hll]. }
  assert (HlN : length (from_Q (map Qsum (map (zip_with Qmult data_mask) ks)))
                = length (from_Q chi2)).
  { rewrite !length_from_Q, !length_map. congruence. }
  assert (Hlnl : exists lnl,
             _loglike xlogy gammaln np_log log_2 log_2pi data data_err data_mask
                      (matrix F ms) (matrix F es) (matrix F ks) ignore dim_prior
             = Ok (lnl, from_Q (map Qsum (map (zip_with Qmult data_mask) ks)),
                   from_Q chi2) /\
             length lnl = length ms).
  { unfold _loglike. destruct dim_prior.
    - apply (Hrun (fun Ndim chi2 _ =>
                     chi2_logpdf xlogy gammaln log_2
                                 (map (nmul (Fin (1 # 2))) Ndim) chi2)).
      destruct (chi2_logpdf_returns xlogy gammaln log_2
                  (map (nmul (Fin (1 # 2)))
                       (from_Q (map Qsum (map (zip_with Qmult data_mask) ks))))
                  (from_Q chi2)) as (lnl & Hl & Hll).
      { rewrite length_map. exact HlN. }
      exists lnl. split; [exact Hl|].
      rewrite Hll, length_from_Q. exact Hlc.
    - apply (Hrun (fun Ndim chi2 tot_var =>
                     normal_logpdf np_log log_2pi Ndim chi2 tot_var)).
      destruct (normal_logpdf_returns np_log log_2pi
                  (from_Q (map Qsum (map (zip_with Qmult data_mask) ks)))
                  (from_Q chi2) (matrix F V)) as (lnl & Hl & Hll).
      { exact HlN. }
      { unfold matrix. cbn [rows]. rewrite length_map, length_from_Q. congruence. }
      exists lnl. split; [exact Hl|].
      rewrite Hll, length_from_Q. exact Hlc. }
  destruct Hlnl as (lnl & Hrun' & Hll).
  rewrite map_map in Hrun'.
  exists lnl, chi2. split; [exact Hrun'|]. split; [exact Hll|].
  split; [exact Hlc|].
  (* every entry of every row of the chi-square *)
  assert (Hentry : forall j row f v,
             nth_error (chi2_rows data data_mask ms ks V) j = Some row ->
             nth_error row f = Some v ->
             exists m k dm kf d mf var,
               nth_error ms j = Some m /\ nth_error ks j = Some k /\
               nth_error data_mask f = Some dm /\ nth_error k f = Some kf /\
               nth_error data f = Some d /\ nth_error m f = Some mf /\
               (0 < var)%Q /\
               v = (dm * kf * Qsquare (d - mf) / var)%Q).
  { intros j row f v Hrow Hv. unfold chi2_rows in Hrow.
    apply nth_error_zip_with_inv in Hrow as (t & vr & Ht & Hvr & ->).
    apply nth_error_zip_with_inv in Ht as (kr & sr & Hkr & Hsr & ->).
    apply nth_error_map_inv in Hkr as (k & Hk & ->).
    apply nth_error_map_inv in Hsr as (rr & Hrr & ->).
    apply nth_error_map_inv in Hrr as (m & Hm & ->).
    apply nth_error_zip_with_inv in Hv as (tv & var & Htv & Hvar & ->).
    apply nth_error_zip_with_inv in Htv as (kv & sv & Hkv & Hsv & ->).
    apply nth_error_zip_with_inv in Hkv as (dm & kf & Hdm' & Hkf & ->).
    apply nth_error_map_inv in Hsv as (rv & Hrv & ->).
    apply nth_error_zip_with_inv in Hrv as (d & mf & Hd' & Hmf & ->).
    exists m, k, dm, kf, d, mf, var. repeat (split; [assumption|]).
    split; [|reflexivity].
    apply (Forall_nth_error_inv _ _ _ _
             (Forall_nth_error_inv _ _ _ _ HVp Hvr) Hvar). }
  split.
  - apply Forall_nth_error. intros j c Hc. subst chi2.
    apply nth_error_map_inv in Hc as (row & Hrow & ->).
    apply Qsum_nonneg, Forall_nth_error. intros f v Hv.
    destruct (Hentry j row f v Hrow Hv)
      as (m & k & dm & kf & d & mf & var & Hm & Hk & Hdm' & Hkf & _ & _
          & Hvar & ->).
    assert (0 <= dm)%Q by (eapply Forall_nth_error_inv; eassumption).
    assert (0 <= kf)%Q.
    { eapply Forall_nth_error_inv; [|exact Hkf].
      eapply Forall_nth_error_inv; eassumption. }
    unfold Qdiv. apply Qmult_le_0_compat.
    + apply Qmult_le_0_compat; [apply Qmult_le_0_compat; assumption|].
      apply Qsquare_nonneg.
    + apply Qlt_le_weak, Qinv_lt_0_compat, Hvar.
  - intros j m k c Hm Hk Hc Hmatch. subst chi2.
    apply nth_error_map_inv in Hc as (row & Hrow & ->).
    apply Qsum_all_zero, Forall_nth_error. intros f v Hv.
    destruct (Hentry j row f v Hrow Hv)
      as (m' & k' & dm & kf & d & mf & var & Hm' & Hk' & Hdm' & Hkf & Hd' & Hmf
          & Hvar & ->).
    assert (m' = m) by congruence. assert (k' = k) by congruence. subst m' k'.
    destruct (Qeq_dec (dm * kf) 0) as [Hz|Hz].
    + rewrite Hz. unfold Qdiv. ring.
    + assert (E : (d == mf)%Q) by (eapply Hmatch; eassumption).
      unfold Qsquare. rewrite E. unfold Qdiv. ring.
Qed.

Lemma loglike_chi2_properties_witness :
  exists lnl chi2,
    _loglike special2_stand_in special1_stand_in special1_stand_in
             (Fin 1) (Fin 2) [2; 4; 6]%Q [1; 1; 1]%Q [1; 1; 1]%Q
             (matrix 3 [[1; 2; 3]; [2; 4; 7]]%Q)
             (matrix 3 [[1; 1; 1]; [0; 0; 0]]%Q)
             (matrix 3 [[1; 1; 0]; [1; 1; 1]]%Q) false false
    = Ok (lnl,
          from_Q (map (fun k => Qsum (zip_with Qmult [1; 1; 1]%Q k))
                      [[1; 1; 0]; [1; 1; 1]]%Q),
          from_Q chi2) /\
    length lnl = length [[1; 2; 3]; [2; 4; 7]]%Q /\
    length chi2 = length [[1; 2; 3]; [2; 4; 7]]%Q /\
    Forall (fun c => 0 <= c)%Q chi2 /\
    forall j m k c,
      nth_error [[1; 2; 3]; [2; 4; 7]]%Q j = Some m ->
      nth_error [[1; 1; 0]; [1; 1; 1]]%Q j = Some k ->
      nth_error chi2 j = Some c ->
      (forall f d mf dm kf,
          nth_error [2; 4; 6]%Q f = Some d -> nth_error m f = Some mf ->
          nth_error [1; 1; 1]%Q f = Some dm -> nth_error k f = Some kf ->
          ~ (dm * kf == 0)%Q -> (d == mf)%Q) ->
      (c == 0)%Q.
Proof.
  apply (loglike_chi2_properties
           special2_stand_in special1_stand_in special1_stand_in
           (Fin 1) (Fin 2) 3 [2; 4; 6]%Q [1; 1; 1]%Q [1; 1; 1]%Q
           [[1; 2; 3]; [2; 4; 7]]%Q [[1; 1; 1]; [0; 0; 0]]%Q
           [[1; 1; 0]; [1; 1; 1]]%Q false false).
  - reflexivity.
  - reflexivity.
  - reflexivity.
  - repeat constructor.
  - repeat constructor.
  - repeat constructor.
  - reflexivity.
  - reflexivity.
  - repeat constructor; discriminate.
  - repeat constructor; discriminate.
  - repeat constructor; discriminate.
Defined.

Lemma broadcast_rows_single_right {A B C} (g : A -> B -> result C)
      (a : list A) (y : B) :
  broadcast_rows g a [y] = mapM (fun x => g x y) a.
Proof.
  unfold broadcast_rows. destruct a as [|x [|x' a]]; reflexivity.
Qed.

(** A matrix against a row. *)
Lemma bop2_matrix_row P f g (F : nat) (A : list (list Q)) (v : list Q) :
  finite_on P f g ->
  length v = F -> rectangular F A -> Forall P v ->
  bop2 f (matrix F A) {| ncols := F; rows := [from_Q v] |}
  = Ok (matrix F (map (fun a => zip_with g a v) A)).
Proof.
  intros Hf Hv HA HP. unfold bop2, matrix. cbn [ncols rows].
  rewrite bdim_same. cbn [bind]. rewrite broadcast_rows_single_right.
  rewrite (mapM_In_Ok _ (fun r => zip_with f r (from_Q v))).
  - cbn [bind]. rewrite !map_map. f_equal. f_equal.
    apply map_ext. intros r. now apply (zip_with_finite P).
  - intros r Hr. apply in_map_iff in Hr as (q & <- & Hq).
    apply broadcast2_same_length. rewrite !length_from_Q.
    unfold rectangular in HA. rewrite Forall_forall in HA.
    rewrite (HA q Hq). congruence.
Qed.

(** A column against a matrix. *)
Lemma bop2_column_matrix f g (F : nat) (s : list Q) (A : list (list Q)) :
  (forall a b, f (Fin a) (Fin b) = Fin (g a b)) ->
  length s = length A -> rectangular F A ->
  bop2 f (as_column (from_Q s)) (matrix F A)
  = Ok (matrix F (zip_with (fun sj a => map (g sj) a) s A)).
Proof.
  intros Hf Hlen HA. unfold bop2, matrix, as_column. cbn [ncols rows].
  rewrite bdim_one_left. cbn [bind]. unfold broadcast_rows.
  rewrite !length_map. unfold from_Q at 1. rewrite length_map, Hlen, Nat.eqb_refl.
  rewrite (mapM_In_Ok _ (fun p => map (f (hd NaN (fst p))) (snd p))).
  - cbn [bind]. f_equal. f_equal. clear HA. revert A Hlen.
    induction s as [|x s IH]; intros [|a A] Hlen; simpl in *;
      try discriminate; [reflexivity|].
    f_equal; [|apply IH; congruence].
    unfold from_Q. rewrite !map_map. apply map_ext. intros b. apply Hf.
  - intros [x y] Hxy. cbn [fst snd].
    apply in_combine_l in Hxy.
    apply in_map_iff in Hxy as (z & <- & _). cbn [hd].
    apply broadcast2_single_left.
Qed.

Lemma rectangular_scaled_models (F : nat) (scale : list Q) (ms : list (list Q)) :
  rectangular F ms -> rectangular F (scaled_models scale ms).
Proof.
  unfold rectangular, scaled_models. revert scale.
  induction ms as [|m ms IH]; intros [|s scale] H; simpl; try constructor.
  - inversion H; subst. now rewrite length_map.
  - inversion H; subst. now apply IH.
Qed.

Lemma length_scaled_models (scale : list Q) (ms : list (list Q)) :
  length scale = length ms -> length (scaled_models scale ms) = length ms.
Proof.
  intros H. unfold scaled_models. rewrite length_zip_with_min. lia.
Qed.

(** The scale factors and their chi-square on a well-shaped problem whose
    shape terms do not vanish. *)
Lemma scale_and_chi2_matrix (F : nat) (data data_mask : list Q)
      (ms ks V : list (list Q)) :
  length data = F -> length data_mask = F ->
  rectangular F ms -> rectangular F ks -> rectangular F V ->
  length ks = length ms -> length V = length ms ->
  Forall (Forall (fun v => 0 < v)%Q) V ->
  Forall (fun sv => ~ (sv == 0)%Q) (map Qsum (shape_rows data_mask ms ks V)) ->
  let K := map (zip_with Qmult data_mask) ks in
  let scale := scale_values data data_mask ms ks V in
  scale_and_chi2 data (matrix F ms) (matrix F K)
                 (matrix F (map (fun a => zip_with Qmult a data)
                                (zip_with (zip_with Qmult) K ms)))
                 (matrix F (zip_with (zip_with Qmult) K (map (map Qsquare) ms)))
                 (matrix F V)
  = Ok (from_Q scale,
        from_Q (map Qsum (chi2_rows data data_mask
                                    (scaled_models scale ms) ks V))).
Proof.
  intros Hd Hm Hms Hks HV Hlk HlV Hpos Hsv K scale.
  assert (HK : rectangular F K) by (subst K; now apply rectangular_map_zip).
  assert (HlK : length K = length ms) by (subst K; now rewrite length_map).
  assert (Hnz : Forall (Forall (fun b => ~ (b == 0)%Q)) V).
  { eapply Forall_impl; [|exact Hpos]. intros r Hr.
    eapply Forall_impl; [|exact Hr]. intros v Hv. simpl in Hv. lra. }
  unfold scale_and_chi2.
  rewrite (bop2_matrices (fun b => ~ (b == 0)%Q) ndiv Qdiv F);
    [|exact finite_ndiv| | exact HV | | exact Hnz].
  2:{ unfold rectangular. apply Forall_forall. intros r Hr.
      apply in_map_iff in Hr as (a & <- & Ha).
      pose proof (rectangular_zip_zip F Qmult K ms HK Hms) as Hz.
      unfold rectangular in Hz. rewrite Forall_forall in Hz.
      rewrite length_zip_with; [now apply Hz|]. rewrite (Hz a Ha). congruence. }
  2:{ list_len. }
  cbn [bind].
  rewrite (bop2_matrices (fun b => ~ (b == 0)%Q) ndiv Qdiv F);
    [|exact finite_ndiv| | exact HV | | exact Hnz].
  2:{ apply rectangular_zip_zip; [exact HK|now apply rectangular_map_map]. }
  2:{ list_len. }
  cbn [bind]. rewrite !sum_axis1_matrix.
  rewrite broadcast2_same_length by (rewrite !length_from_Q; list_len).
  cbn [bind].
  rewrite (zip_with_finite (fun b => ~ (b == 0)%Q) ndiv Qdiv)
    by (exact finite_ndiv || exact Hsv).
  change (zip_with Qdiv (map Qsum _) (map Qsum _)) with scale.
  assert (Hls : length scale = length ms).
  { subst scale. unfold scale_values, inter_rows, shape_rows. list_len. }
  rewrite (bop2_column_matrix nmul Qmult F scale ms)
    by (reflexivity || assumption).
  cbn [bind]. fold (scaled_models scale ms).
  rewrite (as_row_from_Q F data Hd).
  rewrite (bop2_row_matrix (fun _ => True) nsub Qminus F data
                           (scaled_models scale ms));
    [|exact finite_nsub|exact Hd|now apply rectangular_scaled_models
     |apply Forall_forall; intros r _; apply Forall_True].
  cbn [bind]. unfold K.
  rewrite (chi_square_matrix F data data_mask (scaled_models scale ms) ks V);
    try assumption.
  - reflexivity.
  - now apply rectangular_scaled_models.
  - rewrite length_scaled_models; assumption.
  - rewrite length_scaled_models; assumption.
Qed.

Lemma nth_error_zip_with_Some {A B C} (f : A -> B -> C) (a : list A) :
  forall (b : list B) k x y,
    nth_error a k = Some x -> nth_error b k = Some y ->
    nth_error (zip_with f a b) k = Some (f x y).
Proof.
  induction a as [|x' a IH]; intros [|y' b] [|k] x y Ha Hb; simpl in *;
    try discriminate.
  - congruence.
  - now apply IH.
Qed.

Lemma Qsum_pointwise_scale (c : Q) (a : list Q) : forall b,
  length a = length b ->
  (forall f x y, nth_error a f = Some x -> nth_error b f = Some y ->
                 (x == c * y)%Q) ->
  (Qsum a == c * Qsum b)%Q.
Proof.
  induction a as [|x a IH]; intros [|y b] Hl H; simpl in *; try discriminate.
  - ring.
  - rewrite (H 0%nat x y eq_refl eq_refl).
    rewrite (IH b) by (congruence || (intros f; apply (H (S f)))).
    ring.
Qed.

Lemma Qsum_positive_term (l : list Q) :
  Forall (fun v => 0 <= v)%Q l ->
  (exists f v, nth_error l f = Some v /\ (0 < v)%Q) ->
  (0 < Qsum l)%Q.
Proof.
  induction 1 as [|x l Hx Hl IH]; intros (f & v & Hf & Hv).
  - destruct f; discriminate.
  - simpl. pose proof (Qsum_nonneg l Hl). destruct f as [|f]; simpl in Hf.
    + inversion Hf; subst. lra.
    + assert (0 < Qsum l)%Q by (apply IH; eauto). lra.
Qed.

(** The entries of the "interaction" and "shape" terms. *)
Lemma inter_rows_entry (data data_mask : list Q) (ms ks V : list (list Q))
      j row f v :
  nth_error (inter_rows data data_mask ms ks V) j = Some row ->
  nth_error row f = Some v ->
  exists m k r dm kf d mf var,
    nth_error ms j = Some m /\ nth_error ks j = Some k /\
    nth_error V j = Some r /\
    nth_error data_mask f = Some dm /\ nth_error k f = Some kf /\
    nth_error data f = Some d /\ nth_error m f = Some mf /\
    nth_error r f = Some var /\
    v = (dm * kf * mf * d / var)%Q.
Proof.
  intros Hrow Hv. unfold inter_rows in Hrow.
  apply nth_error_zip_with_inv in Hrow as (t & r & Ht & Hr & ->).
  apply nth_error_map_inv in Ht as (t' & Ht' & ->).
  apply nth_error_zip_with_inv in Ht' as (kr & m & Hkr & Hm & ->).
  apply nth_error_map_inv in Hkr as (k & Hk & ->).
  apply nth_error_zip_with_inv in Hv as (tv & var & Htv & Hvar & ->).
  apply nth_error_zip_with_inv in Htv as (kv & d & Hkv & Hd & ->).
  apply nth_error_zip_with_inv in Hkv as (km & mf & Hkm & Hmf & ->).
  apply nth_error_zip_with_inv in Hkm as (dm & kf & Hdm & Hkf & ->).
  exists m, k, r, dm, kf, d, mf, var. repeat (split; [assumption|]).
  reflexivity.
Qed.

Lemma shape_rows_entry (data_mask : list Q) (ms ks V : list (list Q))
      j row f v :
  nth_error (shape_rows data_mask ms ks V) j = Some row ->
  nth_error row f = Some v ->
  exists m k r dm kf mf var,
    nth_error ms j = Some m /\ nth_error ks j = Some k /\
    nth_error V j = Some r /\
    nth_error data_mask f = Some dm /\ nth_error k f = Some kf /\
    nth_error m f = Some mf /\ nth_error r f = Some var /\
    v = (dm * kf * Qsquare mf / var)%Q.
Proof.
  intros Hrow Hv. unfold shape_rows in Hrow.
  apply nth_error_zip_with_inv in Hrow as (t & r & Ht & Hr & ->).
  apply nth_error_zip_with_inv in Ht as (kr & sq & Hkr & Hsq & ->).
  apply nth_error_map_inv in Hkr as (k & Hk & ->).
  apply nth_error_map_inv in Hsq as (m & Hm & ->).
  apply nth_error_zip_with_inv in Hv as (tv & var & Htv & Hvar & ->).
  apply nth_error_zip_with_inv in Htv as (km & sv & Hkm & Hsv & ->).
  apply nth_error_zip_with_inv in Hkm as (dm & kf & Hdm & Hkf & ->).
  apply nth_error_map_inv in Hsv as (mf & Hmf & ->).
  exists m, k, r, dm, kf, mf, var. repeat (split; [assumption|]).
  reflexivity.
Qed.

Lemma shape_rows_entry_Some (data_mask : list Q) (ms ks V : list (list Q))
      j m k r f dm kf mf var :
  nth_error ms j = Some m -> nth_error ks j = Some k ->
  nth_error V j = Some r ->
  nth_error data_mask f = Some dm -> nth_error k f = Some kf ->
  nth_error m f = Some mf -> nth_error r f = Some var ->
  exists row,
    nth_error (shape_rows data_mask ms ks V) j = Some row /\
    nth_error row f = Some (dm * kf * Qsquare mf / var)%Q.
Proof.
  intros Hm Hk Hr Hdm Hkf Hmf Hvar. unfold shape_rows.
  eexists. split.
  - apply nth_error_zip_with_Some; [|exact Hr].
    apply nth_error_zip_with_Some.
    + apply map_nth_error. exact Hk.
    + apply map_nth_error. exact Hm.
  - apply nth_error_zip_with_Some; [|exact Hvar].
    apply nth_error_zip_with_Some.
    + apply nth_error_zip_with_Some; eassumption.
    + apply map_nth_error. exact Hmf.
Qed.

Lemma nth_error_Some_lt {A} (l : list A) (k : nat) :
  (k < length l)%nat -> exists v, nth_error l k = Some v.
Proof.
  intros H. destruct (nth_error l k) eqn:E; [eauto|].
  apply nth_error_None in E. lia.
Qed.

Lemma nth_error_lt {A} (l : list A) (k : nat) v :
  nth_error l k = Some v -> (k < length l)%nat.
Proof. intros H. apply nth_error_Some. congruence. Qed.

Lemma Forall2_nth_error {A B} (R : A -> B -> Prop) (a : list A) :
  forall b,
    length a = length b ->
    (forall k x y, nth_error a k = Some x -> nth_error b k = Some y -> R x y) ->
    Forall2 R a b.
Proof.
  induction a as [|x a IH]; intros [|y b] Hl H; simpl in *; try discriminate.
  - constructor.
  - constructor.
    + apply (H 0%nat); reflexivity.
    + apply IH; [congruence|]. intros k. apply (H (S k)).
Qed.

Lemma Forall2_nth_error_inv {A B} (R : A -> B -> Prop) (a : list A) (b : list B)
      k x y :
  Forall2 R a b -> nth_error a k = Some x -> nth_error b k = Some y -> R x y.
Proof.
  intros H. revert k. induction H as [|x' y' a b Hxy _ IH]; intros k Ha Hb.
  - destruct k; discriminate.
  - destruct k as [|k]; simpl in *.
    + congruence.
    + now apply (IH k).
Qed.

Lemma chi2_rows_entry (data data_mask : list Q) (ms ks V : list (list Q))
      j row f v :
  nth_error (chi2_rows data data_mask ms ks V) j = Some row ->
  nth_error row f = Some v ->
  exists m k r dm kf d mf var,
    nth_error ms j = Some m /\ nth_error ks j = Some k /\
    nth_error V j = Some r /\
    nth_error data_mask f = Some dm /\ nth_error k f = Some kf /\
    nth_error data f = Some d /\ nth_error m f = Some mf /\
    nth_error r f = Some var /\
    v = (dm * kf * Qsquare (d - mf) / var)%Q.
Proof.
  intros Hrow Hv. unfold chi2_rows in Hrow.
  apply nth_error_zip_with_inv in Hrow as (t & vr & Ht & Hvr & ->).
  apply nth_error_zip_with_inv in Ht as (kr & sr & Hkr & Hsr & ->).
  apply nth_error_map_inv in Hkr as (k & Hk & ->).
  apply nth_error_map_inv in Hsr as (rr & Hrr & ->).
  apply nth_error_map_inv in Hrr as (m & Hm & ->).
  apply nth_error_zip_with_inv in Hv as (tv & var & Htv & Hvar & ->).
  apply nth_error_zip_with_inv in Htv as (kv & sv & Hkv & Hsv & ->).
  apply nth_error_zip_with_inv in Hkv as (dm & kf & Hdm' & Hkf & ->).
  apply nth_error_map_inv in Hsv as (rv & Hrv & ->).
  apply nth_error_zip_with_inv in Hrv as (d & mf & Hd' & Hmf & ->).
  exists m, k, vr, dm, kf, d, mf, var. repeat (split; [assumption|]).
  reflexivity.
Qed.

(** The rows of the two terms have the lengths of the rows they are built
    from. *)
Lemma scale_rows_lengths (F : nat) (data data_mask : list Q)
      (ms ks V : list (list Q)) j irow srow :
  length data = F -> length data_mask = F ->
  rectangular F ms -> rectangular F ks -> rectangular F V ->
  nth_error (inter_rows data data_mask ms ks V) j = Some irow ->
  nth_error (shape_rows data_mask ms ks V) j = Some srow ->
  length irow = F /\ length srow = F.
Proof.
  intros Hd Hdm Hms Hks HV Hi Hs.
  unfold inter_rows in Hi. unfold shape_rows in Hs.
  apply nth_error_zip_with_inv in Hi as (t & r & Ht & Hr & ->).
  apply nth_error_map_inv in Ht as (t' & Ht' & ->).
  apply nth_error_zip_with_inv in Ht' as (kr & m & Hkr & Hm & ->).
  apply nth_error_map_inv in Hkr as (k & Hk & ->).
  apply nth_error_zip_with_inv in Hs as (t & r' & Ht & Hr' & ->).
  apply nth_error_zip_with_inv in Ht as (kr & sq & Hkr & Hsq & ->).
  apply nth_error_map_inv in Hkr as (k' & Hk' & ->).
  apply nth_error_map_inv in Hsq as (m' & Hm' & ->).
  assert (r' = r) by congruence. assert (k' = k) by congruence.
  assert (m' = m) by congruence. subst r' k' m'.
  pose proof (Forall_nth_error_inv _ _ _ _ Hms Hm) as Lm.
  pose proof (Forall_nth_error_inv _ _ _ _ Hks Hk) as Lk.
  pose proof (Forall_nth_error_inv _ _ _ _ HV Hr) as Lr.
  simpl in Lm, Lk, Lr. split; list_len.
Qed.

Lemma Qmult_nonzero_positive (a b : Q) :
  (0 <= a)%Q -> (0 <= b)%Q -> ~ (a * b == 0)%Q -> (0 < a * b)%Q.
Proof.
  intros Ha Hb Hab. pose proof (Qmult_le_0_compat a b Ha Hb) as H.
  apply Qle_lteq in H as [H|H]; [exact H|]. exfalso. apply Hab. now symmetry.
Qed.

(** Every shape term is positive when the masks are non-negative and each
    model has a jointly observed band on which it is not zero. *)
Lemma shape_sums_positive (F : nat) (data_mask : list Q)
      (ms ks V : list (list Q)) :
  length data_mask = F ->
  rectangular F ms -> rectangular F ks -> rectangular F V ->
  Forall (fun v => 0 <= v)%Q data_mask ->
  Forall (Forall (fun v => 0 <= v)%Q) ks ->
  Forall (Forall (fun v => 0 < v)%Q) V ->
  (forall j m k,
      nth_error ms j = Some m -> nth_error ks j = Some k ->
      exists f mf dm kf,
        nth_error m f = Some mf /\ nth_error data_mask f = Some dm /\
        nth_error k f = Some kf /\ ~ (dm * kf == 0)%Q /\ ~ (mf == 0)%Q) ->
  Forall (fun sv => 0 < sv)%Q (map Qsum (shape_rows data_mask ms ks V)).
Proof.
  intros Hdm Hms Hks HV Hmask Hkmask HVp Hband.
  apply Forall_nth_error. intros j sv Hsv.
  apply nth_error_map_inv in Hsv as (row & Hrow & ->).
  apply Qsum_positive_term.
  - apply Forall_nth_error. intros f v Hv.
    destruct (shape_rows_entry _ _ _ _ _ _ _ _ Hrow Hv)
      as (m & k & r & dm & kf & mf & var & Hm & Hk & Hr & Hdm' & Hkf & Hmf
          & Hvar & ->).
    assert (0 <= dm)%Q by (eapply Forall_nth_error_inv; eassumption).
    assert (0 <= kf)%Q.
    { eapply Forall_nth_error_inv; [|exact Hkf].
      eapply Forall_nth_error_inv; eassumption. }
    assert (0 < var)%Q.
    { eapply Forall_nth_error_inv; [|exact Hvar].
      eapply Forall_nth_error_inv; eassumption. }
    unfold Qdiv. apply Qmult_le_0_compat.
    + apply Qmult_le_0_compat; [apply Qmult_le_0_compat; assumption|].
      apply Qsquare_nonneg.
    + now apply Qlt_le_weak, Qinv_lt_0_compat.
  - pose proof Hrow as Hrow'. unfold shape_rows in Hrow'.
    apply nth_error_zip_with_inv in Hrow' as (t & r & Ht & Hr & _).
    apply nth_error_zip_with_inv in Ht as (kr & sq & Hkr & Hsq & _).
    apply nth_error_map_inv in Hkr as (k & Hk & _).
    apply nth_error_map_inv in Hsq as (m & Hm & _).
    destruct (Hband j m k Hm Hk) as (f & mf & dm & kf & Hmf & Hdm' & Hkf
                                     & Hnz & Hmnz).
    pose proof (Forall_nth_error_inv _ _ _ _ Hms Hm) as Lm.
    pose proof (Forall_nth_error_inv _ _ _ _ HV Hr) as Lr.
    simpl in Lm, Lr.
    destruct (nth_error_Some_lt r f) as (var & Hvar).
    { apply nth_error_lt in Hmf. lia. }
    destruct (shape_rows_entry_Some data_mask ms ks V j m k r f dm kf mf var
                Hm Hk Hr Hdm' Hkf Hmf Hvar) as (row' & Hrow'' & Hentry).
    assert (row' = row) by congruence. subst row'.
    exists f. eexists. split; [exact Hentry|].
    assert (0 <= dm)%Q by (eapply Forall_nth_error_inv; eassumption).
    assert (0 <= kf)%Q.
    { eapply Forall_nth_error_inv; [|exact Hkf].
      eapply Forall_nth_error_inv; eassumption. }
    assert (0 < var)%Q.
    { eapply Forall_nth_error_inv; [|exact Hvar].
      eapply Forall_nth_error_inv; eassumption. }
    unfold Qdiv. apply Qmult_lt_0_compat.
    + apply Qmult_lt_0_compat; [now apply Qmult_nonzero_positive|].
      now apply Qsquare_positive.
    + now apply Qinv_lt_0_compat.
Qed.

(** The scale factors of data that are, model by model, a multiple of the
    model on the jointly observed bands. *)
Lemma scale_values_recover (F : nat) (data data_mask : list Q)
      (ms ks V : list (list Q)) (s : list Q) :
  length data = F -> length data_mask = F ->
  rectangular F ms -> rectangular F ks -> rectangular F V ->
  length ks = length ms -> length V = length ms -> length s = length ms ->
  Forall (fun sv => 0 < sv)%Q (map Qsum (shape_rows data_mask ms ks V)) ->
  (forall j m k sj,
      nth_error ms j = Some m -> nth_error ks j = Some k ->
      nth_error s j = Some sj ->
      forall f d mf dm kf,
        nth_error data f = Some d -> nth_error m f = Some mf ->
        nth_error data_mask f = Some dm -> nth_error k f = Some kf ->
        ~ (dm * kf == 0)%Q -> (d == sj * mf)%Q) ->
  Forall2 Qeq (scale_values data data_mask ms ks V) s.
Proof.
  intros Hd Hdm Hms Hks HV Hlk HlV Hls Hshape Hmatch.
  apply Forall2_nth_error.
  { unfold scale_values, inter_rows, shape_rows. list_len. }
  intros j sc sj Hsc Hsj. unfold scale_values in Hsc.
  apply nth_error_zip_with_inv in Hsc as (iv & sv & Hiv & Hsv & ->).
  pose proof (Forall_nth_error_inv _ _ _ _ Hshape Hsv) as Hpos.
  simpl in Hpos.
  apply nth_error_map_inv in Hiv as (irow & Hirow & ->).
  apply nth_error_map_inv in Hsv as (srow & Hsrow & ->).
  destruct (scale_rows_lengths F data data_mask ms ks V j irow srow
              Hd Hdm Hms Hks HV Hirow Hsrow) as [Li Ls].
  assert (E : (Qsum irow == sj * Qsum srow)%Q).
  { apply Qsum_pointwise_scale; [congruence|].
    intros f x y Hx Hy.
    destruct (inter_rows_entry _ _ _ _ _ _ _ _ _ Hirow Hx)
      as (m & k & r & dm & kf & d & mf & var & Hm & Hk & Hr & Hdm' & Hkf
          & Hd' & Hmf & Hvar & ->).
    destruct (shape_rows_entry _ _ _ _ _ _ _ _ Hsrow Hy)
      as (m' & k' & r' & dm' & kf' & mf' & var' & Hm' & Hk' & Hr' & Hdm''
          & Hkf' & Hmf' & Hvar' & ->).
    assert (m' = m) by congruence. assert (k' = k) by congruence.
    assert (r' = r) by congruence. subst m' k' r'.
    assert (dm' = dm) by congruence. assert (kf' = kf) by congruence.
    assert (mf' = mf) by congruence. assert (var' = var) by congruence.
    subst dm' kf' mf' var'.
    destruct (Qeq_dec (dm * kf) 0) as [Hz|Hz].
    - rewrite Hz. unfold Qdiv. ring.
    - rewrite (Hmatch j m k sj Hm Hk Hsj f d mf dm kf Hd' Hmf Hdm' Hkf Hz).
      unfold Qsquare, Qdiv. ring. }
  rewrite E. field. intros Hz. rewrite Hz in Hpos. now apply (Qlt_irrefl 0).
Qed.

(** The chi-square of the rescaled models is zero under the same
    assumption. *)
Lemma scaled_chi2_zero (data data_mask : list Q) (ms ks V : list (list Q))
      (scale s : list Q) :
  Forall2 Qeq scale s ->
  (forall j m k sj,
      nth_error ms j = Some m -> nth_error ks j = Some k ->
      nth_error s j = Some sj ->
      forall f d mf dm kf,
        nth_error data f = Some d -> nth_error m f = Some mf ->
        nth_error data_mask f = Some dm -> nth_error k f = Some kf ->
        ~ (dm * kf == 0)%Q -> (d == sj * mf)%Q) ->
  Forall (fun c => c == 0)%Q
         (map Qsum (chi2_rows data data_mask (scaled_models scale ms) ks V)).
Proof.
  intros Hscale Hmatch. apply Forall_nth_error. intros j c Hc.
  apply nth_error_map_inv in Hc as (row & Hrow & ->).
  apply Qsum_all_zero, Forall_nth_error. intros f v Hv.
  destruct (chi2_rows_entry _ _ _ _ _ _ _ _ _ Hrow Hv)
    as (m' & k & r & dm & kf & d & mf' & var & Hm' & Hk & Hr & Hdm' & Hkf
        & Hd' & Hmf' & Hvar & ->).
  unfold scaled_models in Hm'.
  apply nth_error_zip_with_inv in Hm' as (sc & m & Hsc & Hm & ->).
  apply nth_error_map_inv in Hmf' as (mf & Hmf & ->).
  assert (Hlen : (j < length s)%nat).
  { rewrite <- (Forall2_length Hscale). now apply nth_error_lt in Hsc. }
  destruct (nth_error_Some_lt s j Hlen) as (sj & Hsj).
  pose proof (Forall2_nth_error_inv _ _ _ _ _ _ Hscale Hsc Hsj) as Esc.
  simpl in Esc.
  destruct (Qeq_dec (dm * kf) 0) as [Hz|Hz].
  - rewrite Hz. unfold Qdiv. ring.
  - unfold Qsquare.
    rewrite (Hmatch j m k sj Hm Hk Hsj f d mf dm kf Hd' Hmf Hdm' Hkf Hz).
    rewrite Esc. unfold Qdiv. ring.
Qed.

(** [_loglike_s] with [ignore_model_err = True] and [return_scale = True]
    on a well-shaped problem with non-zero data errors and non-negative
    masks: when the data are, model by model, [s_j] times the model on every
    band where both masks are non-zero, and each model has such a band on
    which it is not zero, the call returns without entering the loop (for
    every [fuel] and [ltol]), the scale it returns is [s_j] for each model,
    and every chi-square is zero. *)
Theorem loglike_s_recovers_scale :
  forall (xlogy : num -> num -> num) (gammaln np_log : num -> num)
         (log_2 log_2pi : num) (fuel F : nat)
         (data data_err data_mask : list Q) (ms es ks : list (list Q))
         (s : list Q) (dim_prior : bool) (ltol : num),
    length data = F -> length data_err = F -> length data_mask = F ->
    rectangular F ms -> rectangular F es -> rectangular F ks ->
    length es = length ms -> length ks = length ms -> length s = length ms ->
    Forall (fun e => ~ (e == 0)%Q) data_err ->
    Forall (fun v => 0 <= v)%Q data_mask ->
    Forall (Forall (fun v => 0 <= v)%Q) ks ->
    (forall j m k sj,
        nth_error ms j = Some m -> nth_error ks j = Some k ->
        nth_error s j = Some sj ->
        forall f d mf dm kf,
          nth_error data f = Some d -> nth_error m f = Some mf ->
          nth_error data_mask f = Some dm -> nth_error k f = Some kf ->
          ~ (dm * kf == 0)%Q -> (d == sj * mf)%Q) ->
    (forall j m k,
        nth_error ms j = Some m -> nth_error ks j = Some k ->
        exists f mf dm kf,
          nth_error m f = Some mf /\ nth_error data_mask f = Some dm /\
          nth_error k f = Some kf /\ ~ (dm * kf == 0)%Q /\ ~ (mf == 0)%Q) ->
    exists lnl scale chi2,
      _loglike_s xlogy gammaln np_log log_2 log_2pi fuel
                 data data_err data_mask
                 (matrix F ms) (matrix F es) (matrix F ks)
                 true dim_prior ltol true
      = Some (Ok (lnl,
                  from_Q (map (fun k => Qsum (zip_with Qmult data_mask k)) ks),
                  from_Q chi2, Some (from_Q scale))) /\
      length lnl = length ms /\
      Forall2 Qeq scale s /\
      Forall (fun c => c == 0)%Q chi2.
Proof.
  intros xlogy gammaln np_log log_2 log_2pi fuel F data data_err data_mask
         ms es ks s dim_prior ltol Hd Hde Hdm Hms Hes Hks Hle Hlk Hls Hnz
         Hmask Hkmask Hmatch Hband.
  set (V := variance_rows true data_err es).
  destruct (variance_rows_shape true F data_err es Hde Hes) as [HVr HVl].
  pose proof (variance_rows_positive true data_err es Hnz) as HVp.
  fold V in HVr, HVl, HVp.
  assert (HlV : length V = length ms) by congruence.
  pose proof (shape_sums_positive F data_mask ms ks V Hdm Hms Hks HVr
                                  Hmask Hkmask HVp Hband) as Hshape.
  pose proof (scale_values_recover F data data_mask ms ks V s Hd Hdm Hms Hks
                                   HVr Hlk HlV Hls Hshape Hmatch) as Hscale.
  set (scale := scale_values data data_mask ms ks V) in *.
  pose proof (scaled_chi2_zero data data_mask ms ks V scale s Hscale Hmatch)
    as Hchi.
  set (chi2 := map Qsum (chi2_rows data data_mask (scaled_models scale ms)
                                   ks V)) in *.
  set (Ndim := from_Q (map Qsum (map (zip_with Qmult data_mask) ks))).
  assert (Hlc : length chi2 = length ms).
  { assert (Hlsm : length (scaled_models scale ms) = length ms).
    { apply length_scaled_models. rewrite <- Hls.
      exact (Forall2_length Hscale). }
    subst chi2. rewrite length_map, length_chi2_rows; congruence. }
  assert (HlN : length Ndim = length (from_Q chi2)).
  { subst Ndim. rewrite !length_from_Q, !length_map. congruence. }
  assert (Hsv : Forall (fun sv => ~ (sv == 0)%Q)
                       (map Qsum (shape_rows data_mask ms ks V))).
  { eapply Forall_impl; [|exact Hshape]. intros sv Hp Hz. simpl in Hp.
    rewrite Hz in Hp. now apply (Qlt_irrefl 0). }
  unfold _loglike_s.
  rewrite (total_variance_matrix true F) by assumption. cbn [bind]. fold V.
  rewrite (as_row_from_Q F data_mask Hdm), (as_row_from_Q F data Hd).
  rewrite (bop2_row_matrix (fun _ => True) nmul Qmult F data_mask ks);
    [|exact finite_nmul|exact Hdm|exact Hks
     |apply Forall_forall; intros r _; apply Forall_True].
  cbn [bind].
  assert (HK : rectangular F (map (zip_with Qmult data_mask) ks))
    by now apply rectangular_map_zip.
  rewrite (bop2_matrices (fun _ => True) nmul Qmult F
                         (map (zip_with Qmult data_mask) ks) ms);
    [|exact finite_nmul|exact HK|exact Hms|list_len
     |apply Forall_forall; intros r _; apply Forall_True].
  cbn [bind].
  rewrite (bop2_matrix_row (fun _ => True) nmul Qmult F _ data);
    [|exact finite_nmul|exact Hd|now apply rectangular_zip_zip
     |apply Forall_True].
  cbn [bind].
  rewrite (map2d_matrix nsquare Qsquare) by reflexivity.
  rewrite (bop2_matrices (fun _ => True) nmul Qmult F
                         (map (zip_with Qmult data_mask) ks)
                         (map (map Qsquare) ms));
    [|exact finite_nmul|exact HK|now apply rectangular_map_map|list_len
     |apply Forall_forall; intros r _; apply Forall_True].
  cbn [bind].
  rewrite (scale_and_chi2_matrix F data data_mask ms ks V)
    by assumption.
  cbn [bind fst snd]. fold scale. fold chi2. rewrite sum_axis1_matrix.
  fold Ndim.
  destruct (normal_logpdf_returns np_log log_2pi Ndim (from_Q chi2)
                                  (matrix F V)) as (lnl0 & Hl0 & Hll0).
  { exact HlN. }
  { unfold matrix. cbn [rows]. rewrite length_map, length_from_Q. congruence. }
  rewrite Hl0. cbn [bind].
  subst Ndim. rewrite map_map in *.
  destruct dim_prior.
  - destruct (chi2_logpdf_returns xlogy gammaln log_2
                (map (fun n => nmul (Fin (1 # 2)) (nsub n (Fin 1)))
                     (from_Q (map (fun k => Qsum (zip_with Qmult data_mask k))
                                  ks)))
                (from_Q chi2)) as (lnl & Hl & Hll).
    { rewrite length_map. exact HlN. }
    rewrite Hl. cbn [bind].
    exists lnl, scale, chi2. split; [reflexivity|].
    split; [rewrite Hll, length_from_Q; exact Hlc|].
    split; [exact Hscale|exact Hchi].
  - exists lnl0, scale, chi2. split; [reflexivity|].
    split; [rewrite Hll0, length_from_Q; exact Hlc|].
    split; [exact Hscale|exact Hchi].
Qed.

Ltac some_eqs :=
  repeat match goal with
         | H : Some _ = Some _ |- _ => inversion H; clear H; subst
         | H : nth_error [] ?f = Some _ |- _ => destruct f; discriminate H
         end.

Lemma loglike_s_recovers_scale_witness :
  exists lnl scale chi2,
    _loglike_s special2_stand_in special1_stand_in special1_stand_in
               (Fin 1) (Fin 2) 0
               [2; 4; 6]%Q [1; 1; 1]%Q [1; 1; 1]%Q
               (matrix 3 [[1; 2; 3]; [2; 4; 7]]%Q)
               (matrix 3 [[1; 1; 1]; [0; 0; 0]]%Q)
               (matrix 3 [[1; 1; 1]; [1; 1; 0]]%Q)
               true false (Fin (1 # 10000)) true
    = Some (Ok (lnl,
                from_Q (map (fun k => Qsum (zip_with Qmult [1; 1; 1]%Q k))
                            [[1; 1; 1]; [1; 1; 0]]%Q),
                from_Q chi2, Some (from_Q scale))) /\
    length lnl = length [[1; 2; 3]; [2; 4; 7]]%Q /\
    Forall2 Qeq scale [2; 1]%Q /\
    Forall (fun c => c == 0)%Q chi2.
Proof.
  apply (loglike_s_recovers_scale
           special2_stand_in special1_stand_in special1_stand_in
           (Fin 1) (Fin 2) 0 3 [2; 4; 6]%Q [1; 1; 1]%Q [1; 1; 1]%Q
           [[1; 2; 3]; [2; 4; 7]]%Q [[1; 1; 1]; [0; 0; 0]]%Q
           [[1; 1; 1]; [1; 1; 0]]%Q [2; 1]%Q false (Fin (1 # 10000))).
  - reflexivity.
  - reflexivity.
  - reflexivity.
  - repeat constructor.
  - repeat constructor.
  - repeat constructor.
  - reflexivity.
  - reflexivity.
  - reflexivity.
  - repeat constructor; discriminate.
  - repeat constructor; discriminate.
  - repeat constructor; discriminate.
  - intros j m k sj Hm Hk Hs f d mf dm kf Hd Hmf Hdm Hkf Hnz.
    destruct j as [|[|j]]; simpl in Hm, Hk, Hs; some_eqs;
      destruct f as [|[|[|f]]]; simpl in Hd, Hmf, Hdm, Hkf; some_eqs;
      try reflexivity.
    exfalso. apply Hnz. reflexivity.
  - intros j m k Hm Hk.
    destruct j as [|[|j]]; simpl in Hm, Hk; some_eqs;
      exists 0%nat; eexists; eexists; eexists;
      (split; [reflexivity|]); (split; [reflexivity|]);
      (split; [reflexivity|]); split; intros H; vm_compute in H;
      discriminate H.
Defined.

(* ------------------------------------------------------------------ *)
(** ** Asinh magnitudes *)

Module LuptitudeFacts.
Import Reals Lra.
Import Photometry.
Local Open Scope R_scope.

Lemma ln_10_positive : 0 < ln 10.
Proof. rewrite <- ln_1. apply ln_increasing; lra. Qed.

Lemma log10_e : np_log10 (exp 1) = 1 / ln 10.
Proof. unfold np_log10. now rewrite ln_exp. Qed.

(** The flux is recovered from its asinh magnitude by the hyperbolic sine:
    [2 * skynoise * sinh(log(10) / -2.5 * mag - log(skynoise / zeropoints))]
    is the flux the magnitude was computed from. *)
Theorem luptitude_determines_flux :
  forall phot err skynoise zeropoints : R,
    0 < skynoise -> 0 < zeropoints ->
    2 * skynoise
    * sinh (ln 10 / - (5 / 2) * fst (luptitude phot err skynoise zeropoints)
            - ln (skynoise / zeropoints))
    = phot.
Proof.
  intros phot err b zp Hb Hz. unfold luptitude. cbn [fst].
  pose proof ln_10_positive as H10.
  replace (ln 10 / - (5 / 2)
           * (- (5 / 2) / ln 10 * (arcsinh (phot / (2 * b)) + ln (b / zp)))
           - ln (b / zp))
    with (arcsinh (phot / (2 * b))) by (field; lra).
  rewrite sinh_arcsinh. field. lra.
Qed.

Lemma luptitude_determines_flux_witness :
  2 * 1 * sinh (ln 10 / - (5 / 2) * fst (luptitude 3 (1 / 10) 1 2)
                - ln (1 / 2))
  = 3.
Proof.
  apply (luptitude_determines_flux 3 (1 / 10) 1 2); lra.
Defined.

(** A larger flux has a smaller asinh magnitude, for every sign of the
    fluxes. *)
Theorem luptitude_decreasing :
  forall phot1 phot2 err1 err2 skynoise zeropoints : R,
    0 < skynoise -> 0 < zeropoints -> phot1 < phot2 ->
    fst (luptitude phot2 err2 skynoise zeropoints)
    < fst (luptitude phot1 err1 skynoise zeropoints).
Proof.
  intros p1 p2 e1 e2 b zp Hb Hz Hp. unfold luptitude. cbn [fst].
  pose proof ln_10_positive as H10.
  assert (Hx : p1 / (2 * b) < p2 / (2 * b)).
  { unfold Rdiv. apply Rmult_lt_compat_r; [|exact Hp].
    apply Rinv_0_lt_compat. lra. }
  pose proof (arcsinh_lt _ _ Hx) as Ha.
  assert (Hc : 0 < 5 / 2 / ln 10).
  { apply Rdiv_lt_0_compat; lra. }
  replace (- (5 / 2) / ln 10) with (- (5 / 2 / ln 10)) by (field; lra).
  set (c := 5 / 2 / ln 10) in *.
  set (l := ln (b / zp)).
  assert (c * (arcsinh (p1 / (2 * b)) + l) < c * (arcsinh (p2 / (2 * b)) + l)).
  { apply Rmult_lt_compat_l; lra. }
  lra.
Qed.

Lemma luptitude_decreasing_witness :
  fst (luptitude 3 (1 / 10) 1 2) < fst (luptitude (- 1) (1 / 5) 1 2).
Proof.
  apply (luptitude_decreasing (- 1) 3 (1 / 5) (1 / 10) 1 2); lra.
Defined.

(** A flux of zero has the finite asinh magnitude
    [-2.5 * log10(skynoise / zeropoints)], with the error
    [2.5 * log10(e) * err / (2 * skynoise)]. *)
Theorem luptitude_of_zero_flux :
  forall err skynoise zeropoints : R,
    0 < skynoise -> 0 < zeropoints -> 0 <= err ->
    luptitude 0 err skynoise zeropoints
    = (- (5 / 2) * np_log10 (skynoise / zeropoints),
       5 / 2 * np_log10 (exp 1) * err / (2 * skynoise)).
Proof.
  intros err b zp Hb Hz He. unfold luptitude.
  pose proof ln_10_positive as H10.
  f_equal.
  - replace (0 / (2 * b)) with 0 by (field; lra).
    rewrite arcsinh_0. unfold np_log10. field. lra.
  - rewrite log10_e.
    replace (Rsqr (5 / 2 * (1 / ln 10) * err) / (Rsqr (2 * b) + Rsqr 0))
      with (Rsqr (5 / 2 * (1 / ln 10) * err / (2 * b)))
      by (unfold Rsqr; field; lra).
    apply sqrt_Rsqr.
    apply Rmult_le_pos; [|apply Rlt_le, Rinv_0_lt_compat; lra].
    apply Rmult_le_pos; [|exact He].
    apply Rmult_le_pos; [lra|].
    apply Rlt_le. unfold Rdiv. rewrite Rmult_1_l. now apply Rinv_0_lt_compat.
Qed.

Lemma luptitude_of_zero_flux_witness :
  luptitude 0 (1 / 10) 1 2
  = (- (5 / 2) * np_log10 (1 / 2),
     5 / 2 * np_log10 (exp 1) * (1 / 10) / (2 * 1)).
Proof.
  apply (luptitude_of_zero_flux (1 / 10) 1 2); lra.
Defined.

(** For a positive flux the error of the asinh magnitude is at most the
    error [magnitude] gives for the same flux and flux error. *)
Theorem luptitude_error_at_most_magnitude_error :
  forall phot err skynoise zeropoints zp : R,
    0 < phot -> 0 <= err -> 0 < skynoise ->
    snd (luptitude phot err skynoise zeropoints)
    <= snd (magnitude phot err zp).
Proof.
  intros p e b zp zp' Hp He Hb. unfold luptitude, magnitude. cbn [snd].
  pose proof ln_10_positive as H10. rewrite log10_e.
  set (A := 5 / 2 * (1 / ln 10) * e).
  assert (HA : 0 <= A).
  { unfold A. apply Rmult_le_pos; [|exact He].
    apply Rmult_le_pos; [lra|].
    apply Rlt_le. unfold Rdiv. rewrite Rmult_1_l. now apply Rinv_0_lt_compat. }
  replace (5 / 2 / ln 10 * e / p) with (A / p) by (unfold A; field; lra).
  assert (HAp : 0 <= A / p).
  { apply Rmult_le_pos; [exact HA|]. apply Rlt_le. now apply Rinv_0_lt_compat. }
  apply Rle_trans with (sqrt (Rsqr (A / p)));
    [|rewrite (sqrt_Rsqr (A / p) HAp); apply Rle_refl].
  assert (Hp2 : 0 < Rsqr p) by (apply Rsqr_pos_lt; lra).
  assert (Hb2 : 0 < Rsqr (2 * b)) by (apply Rsqr_pos_lt; lra).
  assert (HA2 : 0 <= Rsqr A) by apply Rle_0_sqr.
  apply sqrt_le_1_alt.
  rewrite Rsqr_div'. unfold Rdiv.
  apply Rmult_le_compat_l; [exact HA2|].
  apply Rinv_le_contravar; lra.
Qed.

Lemma luptitude_error_at_most_magnitude_error_witness :
  snd (luptitude 3 (1 / 10) 1 2) <= snd (magnitude 3 (1 / 10) 2).
Proof.
  apply (luptitude_error_at_most_magnitude_error 3 (1 / 10) 1 2 2); lra.
Defined.

End LuptitudeFacts.
